(** * attic/archive.py: the archive engine, embedded and verified

    Shallow embedding of [src/attic/archive.py].  Python objects with
    mutable fields become records threaded through a state-and-exception
    monad; the external collaborators (key, chunker, msgpack, cache,
    repository, operating system) are interfaces whose operations are taken
    as parameters or recorded as events of a trace. *)

From stdpp Require Import base option list gmap strings pretty.
From Stdlib Require Import ZArith Lia.
From Stdlib.Strings Require Import Byte Ascii.

Open Scope Z_scope.

(** ** Byte strings *)

Abbreviation bytes := (list byte).

#[global] Instance byte_eq_decision : EqDecision byte := Byte.byte_eq_dec.

#[global] Program Instance byte_countable : Countable byte :=
  inj_countable Byte.to_N Byte.of_N _.
Next Obligation. intros b. apply Byte.of_to_N. Qed.

(** [len(b)] as a Python integer. *)
Definition blen (b : bytes) : Z := Z.of_nat (length b).

(** [bytes(n)]: [n] zero bytes; a negative [n] raises ValueError. *)
Definition zeros (n : Z) : bytes := replicate (Z.to_nat n) x00.

(** Chunk ids are byte strings (the output of [Key.id_hash]). *)
Abbreviation Id := (list byte).

(** A reference to a file chunk: [(id, size, csize)]. *)
Abbreviation ChunkRef := (Id * Z * Z)%type.

(** ** Exceptions and the state-and-exception monad *)

Inductive Errno := ENOENT | ENOTEMPTY | EACCES | EPERM | EEXIST | ENOTDIR | ENOTSUP | EIO.

Inductive Exn :=
| KeyError
| IndexError
| ValueError
| TypeError
| AssertionError
| NotImplementedError
| OSError (e : Errno)
| AlreadyExists (name : string)
| DoesNotExist (name : string)
| DecryptError                 (* raised by Key.decrypt *)
| UnpackError                  (* raised by msgpack on malformed input *)
| StopIteration                (* next() on a drained msgpack Unpacker *)
| AttributeError
| Exception_ (msg : string).   (* a plain [Exception(msg)] *)

#[global] Instance Errno_eq_dec : EqDecision Errno.
Proof. solve_decision. Defined.
#[global] Instance Exn_eq_dec : EqDecision Exn.
Proof. solve_decision. Defined.

Inductive Res (A : Type) :=
| Ok (a : A)
| Raise (e : Exn).
Arguments Ok {A} a.
Arguments Raise {A} e.

(** A computation over the mutable state [S].  The state survives an
    exception: what was mutated before the raise stays mutated. *)
Definition M (S A : Type) : Type := S → Res A * S.

Definition ret {S A} (a : A) : M S A := λ s, (Ok a, s).
Definition raise {S A} (e : Exn) : M S A := λ s, (Raise e, s).
Definition bind {S A B} (m : M S A) (k : A → M S B) : M S B :=
  λ s, match m s with
       | (Ok a, s') => k a s'
       | (Raise e, s') => (Raise e, s')
       end.
Definition gets {S A} (f : S → A) : M S A := λ s, (Ok (f s), s).
Definition modify {S} (f : S → S) : M S unit := λ s, (Ok tt, f s).

Declare Scope m_scope.
Delimit Scope m_scope with m.
Notation "'do' x <- c ; k" := (bind c (λ x, k))
  (at level 10, x name, c at level 100, k at level 200) : m_scope.
Notation "'do' ' p <- c ; k" := (bind c (λ x, match x with p => k end))
  (at level 10, p strict pattern, c at level 100, k at level 200) : m_scope.
Notation "c ;; k" := (bind c (λ _, k))
  (at level 100, k at level 200, right associativity) : m_scope.
Open Scope m_scope.

(** [for x in xs: body(x)] *)
Fixpoint for_each {S A} (xs : list A) (body : A → M S unit) : M S unit :=
  match xs with
  | [] => ret tt
  | x :: xs' => body x ;; for_each xs' body
  end.

(** [[f(x) for x in xs]] *)
Fixpoint map_m {S A B} (f : A → M S B) (xs : list A) : M S (list B) :=
  match xs with
  | [] => ret []
  | x :: xs' => do y <- f x; do ys <- map_m f xs'; ret (y :: ys)
  end.

(** [try: m; except E: handler], for the exceptions [h] maps to a handler. *)
Definition try_except {S A} (m : M S A) (h : Exn → option (M S A)) : M S A :=
  λ s, match m s with
       | (Raise e, s') =>
           match h e with
           | Some k => k s'
           | None => (Raise e, s')
           end
       | r => r
       end.

(** [with ... as fd: m]: the cleanup runs on both exits. *)
Definition finally {S A} (m : M S A) (cleanup : M S unit) : M S A :=
  λ s, let '(r, s') := m s in
       match cleanup s' with
       | (Ok _, s'') => (r, s'')
       | (Raise e, s'') => (Raise e, s'')
       end.

(** Run a computation on the second component of a pair state. *)
Definition on_env {O E A} (m : M E A) : M (O * E) A :=
  λ s, let '(r, e') := m s.2 in (r, (s.1, e')).

(** ** External interfaces *)

(** The [Key] interface (attic.key). *)
Class Key := {
  id_hash : bytes → Id;
  encrypt : bytes → bytes;
  decrypt : Id → bytes → option bytes;
  chunk_seed : Z;
}.

(** [attic.chunker.chunkify(stream, window, mask, min, seed)], run to the
    end of the stream. *)
Class Chunker := {
  chunkify : bytes → Z → Z → Z → Z → list bytes;
}.

(** ** Module constants *)

Definition ITEMS_BUFFER : Z := 1024 * 1024.
Definition CHUNK_MIN : Z := 1024.
Definition WINDOW_SIZE : Z := 0xfff.
Definition CHUNK_MASK : Z := 0xffff.

(** Python slice [l[:end]], with [end = None] or an integer. *)
Definition slice_to {A} (l : list A) (end_ : option Z) : list A :=
  match end_ with
  | None => l
  | Some e => if e <? 0 then take (Z.to_nat (Z.of_nat (length l) + e)) l
              else take (Z.to_nat e) l
  end.

(** ** class ChunkBuffer *)

Module ChunkBuffer.

Definition BUFFER_SIZE : Z := 1 * 1024 * 1024.

(** [self.buffer] is a BytesIO whose position always equals its length
    (it is only appended to, or truncated to empty and rewritten), so
    [self.buffer.tell()] is the length of the contents. *)
Record t := mk { buffer : bytes; chunks : list Id }.

Definition init : t := {| buffer := []; chunks := [] |}.

Section Methods.
Context `{Key} `{Chunker}.
(** The environment [E] is what [write_chunk] acts on (the cache for
    CacheChunkBuffer, the checker's index and repository for the checker);
    [write_chunk] is the overridable method, passed explicitly. *)
Context {E : Type}.

Definition buffer_write (b : bytes) : M (t * E) unit :=
  modify (λ s, ({| buffer := buffer s.1 ++ b; chunks := chunks s.1 |}, s.2)).

Definition buffer_truncate : M (t * E) unit :=
  modify (λ s, ({| buffer := []; chunks := chunks s.1 |}, s.2)).

Definition chunks_append (i : Id) : M (t * E) unit :=
  modify (λ s, ({| buffer := buffer s.1; chunks := chunks s.1 ++ [i] |}, s.2)).

Definition is_full : M (t * E) bool :=
  gets (λ s, BUFFER_SIZE <? blen (buffer s.1)).

Definition flush (write_chunk : bytes → M E Id) (flush : bool) : M (t * E) unit :=
  do b <- gets (λ s, buffer s.1);
  if blen b =? 0 then ret tt
  else
    let chunks := chunkify b WINDOW_SIZE CHUNK_MASK CHUNK_MIN chunk_seed in
    buffer_truncate ;;
    let end_ := if flush || (Z.of_nat (length chunks) =? 1) then None else Some (-1) in
    for_each (slice_to chunks end_)
      (λ chunk, do i <- on_env (write_chunk chunk); chunks_append i) ;;
    match end_ with
    | Some _ =>
        match last chunks with
        | Some c => buffer_write c
        | None => raise IndexError
        end
    | None => ret tt
    end.

(** [add] receives the item already serialised by
    [self.packer.pack(StableDict(item))]. *)
Definition add (write_chunk : bytes → M E Id) (packed : bytes) : M (t * E) unit :=
  buffer_write packed ;;
  do full <- is_full;
  if full then flush write_chunk false else ret tt.

End Methods.
End ChunkBuffer.

(** ** Items, archive metadata and msgpack *)

(** An item is a Python dict; every recognised key may be absent. *)
Record Item := mkItem {
  i_path : option string;
  i_mode : option Z;
  i_source : option string;
  i_chunks : option (list ChunkRef);
  i_rdev : option Z;
  i_uid : option Z;
  i_gid : option Z;
  i_user : option (option string);    (* the value may be None *)
  i_group : option (option string);
  i_mtime : option Z;
  i_xattrs : option (list (bytes * bytes));
}.

Definition empty_item : Item :=
  mkItem None None None None None None None None None None None.

(** [d[k]] on a dict field: KeyError when the key is absent. *)
Definition getitem {S A} (f : option A) : M S A :=
  match f with
  | Some a => ret a
  | None => raise KeyError
  end.

Definition set_chunks_of_item (cs : list ChunkRef) (it : Item) : Item :=
  mkItem (i_path it) (i_mode it) (i_source it) (Some cs) (i_rdev it) (i_uid it)
         (i_gid it) (i_user it) (i_group it) (i_mtime it) (i_xattrs it).

(** The archive metadata block written by [save]. *)
Record Metadata := mkMetadata {
  m_version : Z;
  m_name : string;
  m_items : list Id;
  m_cmdline : list string;
  m_hostname : string;
  m_username : string;
  m_time : string;
}.

(** A decoded msgpack object: an item dict, or anything else. *)
Inductive Obj :=
| OItem (it : Item)
| OOther.

Inductive Unpacked :=
| Decoded (o : Obj) (rest : bytes)
| Incomplete
| Malformed.

(** msgpack: packing of items and metadata blocks, and the decoding of one
    object from the front of a byte string.  Decoding an object consumes at
    least one byte. *)
Class Msgpack := {
  pack_item : Item → bytes;
  pack_metadata : Metadata → bytes;
  unpack_metadata : bytes → option Metadata;
  unpack_one : bytes → Unpacked;
  unpack_one_progress : ∀ b o rest,
    unpack_one b = Decoded o rest → (length rest < length b)%nat;
}.

(** [msgpack.Unpacker]: the bytes fed and not yet decoded. *)
Definition Unpacker := bytes.

Definition feed (data : bytes) (u : Unpacker) : Unpacker := u ++ data.

(** [for item in unpacker]: the objects decoded until the buffer runs out of
    data, the undecoded rest, and whether decoding stopped on malformed
    input (the exception is raised once the objects before it were
    handled). *)
Fixpoint drain_fuel `{Msgpack} (fuel : nat) (u : Unpacker) : list Obj * Unpacker * bool :=
  match fuel with
  | O => ([], u, false)
  | S fuel' =>
      match unpack_one u with
      | Decoded o rest =>
          let '(os, u', bad) := drain_fuel fuel' rest in (o :: os, u', bad)
      | Incomplete => ([], u, false)
      | Malformed => ([], u, true)
      end
  end.

Definition drain `{Msgpack} (u : Unpacker) : list Obj * Unpacker * bool :=
  drain_fuel (S (length u)) u.

(** [b'chunks' in item] followed by [item[b'chunks']]; the membership test
    on a non-container raises TypeError. *)
Definition obj_chunks {S} (o : Obj) : M S (option (list ChunkRef)) :=
  match o with
  | OItem it => ret (i_chunks it)
  | OOther => raise TypeError
  end.

(** ** The outside world *)

(** [os.stat_result], the fields the module reads. *)
Record Stat := mkStat {
  st_mode : Z; st_nlink : Z; st_ino : Z; st_dev : Z;
  st_uid : Z; st_gid : Z; st_rdev : Z; st_mtime_ns : Z;
}.

#[global] Instance Stat_eq_dec : EqDecision Stat.
Proof. solve_decision. Defined.

(** The [stat] module's file-type tests (S_IFMT = 0o170000, S_IFDIR =
    0o040000, S_IFCHR = 0o020000, S_IFBLK = 0o060000, S_IFREG = 0o100000,
    S_IFIFO = 0o010000, S_IFLNK = 0o120000). *)
Definition S_IFMT (mode : Z) : Z := Z.land mode 0xF000.
Definition S_ISDIR (mode : Z) : bool := S_IFMT mode =? 0x4000.
Definition S_ISCHR (mode : Z) : bool := S_IFMT mode =? 0x2000.
Definition S_ISBLK (mode : Z) : bool := S_IFMT mode =? 0x6000.
Definition S_ISREG (mode : Z) : bool := S_IFMT mode =? 0x8000.
Definition S_ISFIFO (mode : Z) : bool := S_IFMT mode =? 0x1000.
Definition S_ISLNK (mode : Z) : bool := S_IFMT mode =? 0xA000.

(** A cache object is known by its identity: the [cache] argument of a
    method is either the very object held in [self.cache] or another one. *)
Inductive CacheRef := self_cache | other_cache.

#[global] Instance CacheRef_eq_dec : EqDecision CacheRef.
Proof. solve_decision. Defined.

(** An entry of [manifest.archives], one field per key.  [save] writes the
    keys as [str] ('id', 'time'), [__init__] reads [info[b'id']]: the two
    agree once the manifest has gone through msgpack, which is the case the
    record stands for.  An archive saved and opened through the same
    in-memory manifest raises KeyError in the code; the record does not
    tell the two kinds of key apart. *)
Record ArchiveInfo := mkInfo { info_id : Id; info_time : string }.

(** Calls on a [Statistics] object created locally ([calc_stats]). *)
Inductive StatCall :=
| stats_update (size csize : Z) (unique : bool)
| nfiles_incr.

(** The cache (attic.cache.Cache): [C] is the state of one cache object,
    [X] the state of everything else outside this module (repository,
    manifest store, [self.stats], operating system).  [cache_chunks] is the
    [chunks] attribute, read and written directly by [calc_stats]; the
    [stats] argument of the methods is always [self.stats], which lives in
    [X], as does the repository the cache writes to. *)
Class CacheOps (C X : Type) := {
  cache_chunks : C → gmap Id (Z * Z * Z);
  cache_chunks_set : gmap Id (Z * Z * Z) → C → C;
  add_chunk : Id → bytes → M (C * X) ChunkRef;
  chunk_incref : Id → M (C * X) ChunkRef;
  chunk_decref : Id → M (C * X) unit;
  seen_chunk : Id → M C bool;
  file_known_and_unchanged : Id → Stat → M C (option (list Id));
  memorize_file : Id → Stat → list Id → M C unit;
  begin_txn : M C unit;
  cache_commit : M C unit;
  rollback : M C unit;
}.

(** The repository, the manifest store, and [self.stats]. *)
Class StoreOps (X : Type) := {
  repository_get : bool → Id → M X bytes;    (* one element of get_many(ids, is_preloaded) *)
  repository_put : Id → bytes → M X unit;
  repository_commit : M X unit;
  manifest_write : gmap string ArchiveInfo → M X unit;
  stats_nfiles_incr : M X unit;               (* self.stats.nfiles += 1 *)
}.

(** The host: clock, process environment, and helpers of attic.helpers. *)
Class HostOps (X : Type) := {
  time_time : M X Z;
  utcnow_isoformat : M X string;
  sys_argv : list string;
  gethostname : string;
  getuser : string;
  make_path_safe : string → string;
  uid2user : Z → option string;
  gid2group : Z → option string;
  user2uid : option string → option Z;
  group2gid : option string → option Z;
  utime_supports_fd : bool;
  has_lchmod : bool;
}.

(** What the module asks of the operating system, as recorded in the
    trace.  A target of [setxattr] is a descriptor or a path. *)
Inductive Syscall :=
| sys_lstat (path : string)
| sys_rmdir (path : string)
| sys_unlink (path : string)
| sys_exists (path : string)
| sys_makedirs (path : string)
| sys_link (src dst : string)
| sys_open (path : string) (mode : string)
| sys_read (fd : Z)
| sys_write (fd : Z) (data : bytes)
| sys_flush (fd : Z)
| sys_close (fd : Z)
| sys_mkfifo (path : string)
| sys_symlink (src dst : string)
| sys_readlink (path : string)
| sys_mknod (path : string) (mode rdev : Z)
| sys_get_all_xattr (path : string)
| sys_setxattr (target : Z + string) (k v : bytes)
| sys_fchown (fd uid gid : Z)
| sys_lchown (path : string) (uid gid : Z)
| sys_fchmod (fd mode : Z)
| sys_chmod (path : string) (mode : Z)
| sys_lchmod (path : string) (mode : Z)
| sys_utime_fd (fd : Z) (mtime_ns : Z)
| sys_utime_nofollow (path : string) (mtime_ns : Z)
| sys_utime (path : string) (mtime_ns : Z).

(** The system calls themselves; each may raise [OSError]. *)
Class OsOps (X : Type) := {
  os_lstat : string → M X Stat;
  os_rmdir : string → M X unit;
  os_unlink : string → M X unit;
  os_exists : string → M X bool;
  os_makedirs : string → M X unit;
  os_link : string → string → M X unit;
  os_open : string → string → M X Z;
  os_read : Z → M X bytes;
  os_write : Z → bytes → M X unit;
  os_flush : Z → M X unit;
  os_close : Z → M X unit;
  os_mkfifo : string → M X unit;
  os_symlink : string → string → M X unit;
  os_readlink : string → M X string;
  os_mknod : string → Z → Z → M X unit;
  os_get_all_xattr : string → M X (list (bytes * bytes));
  os_setxattr : Z + string → bytes → bytes → M X unit;
  os_fchown : Z → Z → Z → M X unit;
  os_lchown : string → Z → Z → M X unit;
  os_fchmod : Z → Z → M X unit;
  os_chmod : string → Z → M X unit;
  os_lchmod : string → Z → M X unit;
  os_utime_fd : Z → Z → M X unit;
  os_utime_nofollow : string → Z → M X unit;
  os_utime : string → Z → M X unit;
}.

(** Every call the module makes on a collaborator, in program order. *)
Inductive Event :=
| ev_manifest_write
| ev_repository_commit
| ev_repository_get (is_preloaded : bool) (i : Id)
| ev_repository_put (i : Id) (cdata : bytes)
| ev_cache_commit (c : CacheRef)
| ev_begin_txn (c : CacheRef)
| ev_rollback (c : CacheRef)
| ev_add_chunk (c : CacheRef) (i : Id) (data : bytes)
| ev_chunk_incref (c : CacheRef) (i : Id)
| ev_chunk_decref (c : CacheRef) (i : Id)
| ev_chunks_setitem (i : Id) (entry : Z * Z * Z)   (* self.cache.chunks[i] = entry *)
| ev_seen_chunk (c : CacheRef) (i : Id)
| ev_file_known_and_unchanged (c : CacheRef) (path_hash : Id) (st : Stat)
| ev_memorize_file (c : CacheRef) (path_hash : Id) (st : Stat) (ids : list Id)
| ev_chunkify (data : bytes)
| ev_sys (s : Syscall).

(** ** Strings and paths (str methods, os.path) *)

Definition startswith (s prefix : string) : bool := String.prefix prefix s.

Definition endswith (s suffix : string) : bool :=
  String.prefix (String.rev suffix) (String.rev s).

(** posixpath.join on two components *)
Definition os_path_join (a b : string) : string :=
  if startswith b "/" then b
  else if bool_decide (a = "") || endswith a "/" then a +:+ b
  else a +:+ "/" +:+ b.

Definition is_slash (c : Ascii.ascii) : bool := bool_decide (c = "/"%char).

Fixpoint drop_while {A} (f : A → bool) (l : list A) : list A :=
  match l with
  | [] => []
  | x :: l' => if f x then drop_while f l' else l
  end.

(** posixpath.dirname: the text up to the last slash, without its trailing
    slashes unless it consists of slashes only. *)
Definition os_path_dirname (p : string) : string :=
  let head_rev := drop_while (λ c, negb (is_slash c)) (reverse (String.list_ascii_of_string p)) in
  if forallb is_slash head_rev then String.string_of_list_ascii (reverse head_rev)
  else String.string_of_list_ascii (reverse (drop_while is_slash head_rev)).

(** [s.encode('utf-8', 'surrogateescape')]: a string is its bytes. *)
Definition encode (s : string) : bytes := String.list_byte_of_string s.

(** The segments of a path between slashes. *)
Fixpoint segments_aux (l : list Ascii.ascii) (cur : list Ascii.ascii) : list string :=
  match l with
  | [] => [String.string_of_list_ascii (reverse cur)]
  | c :: l' => if is_slash c then String.string_of_list_ascii (reverse cur) :: segments_aux l' []
               else segments_aux l' (c :: cur)
  end.

Definition segments (p : string) : list string :=
  segments_aux (String.list_ascii_of_string p) [].

(** ** class Archive *)

Module Archive.

(** The fields of an [Archive] object, the objects it shares with its
    caller (the manifest's [archives] dict, the cache), the trace of calls
    made so far and the outside world. *)
Record World (C X : Type) := mkWorld {
  cwd : string;
  name : string;
  id : option Id;
  metadata : option Metadata;
  checkpoint_name : string;
  checkpoint_interval : Z;
  last_checkpoint : Z;
  numeric_owner : bool;
  hard_links : gmap (Z * Z) string;
  items_buffer : ChunkBuffer.t;
  archives : gmap string ArchiveInfo;
  cache : C;                 (* the object [self.cache] refers to *)
  cache' : C;                (* some other cache object *)
  trace : list Event;
  ext : X;
}.
Arguments mkWorld {C X}.
Arguments cwd {C X}.
Arguments name {C X}.
Arguments id {C X}.
Arguments metadata {C X}.
Arguments checkpoint_name {C X}.
Arguments checkpoint_interval {C X}.
Arguments last_checkpoint {C X}.
Arguments numeric_owner {C X}.
Arguments hard_links {C X}.
Arguments items_buffer {C X}.
Arguments archives {C X}.
Arguments cache {C X}.
Arguments cache' {C X}.
Arguments trace {C X}.
Arguments ext {C X}.

Section Methods.
Context {C X : Type}.
Context `{Key} `{Chunker} `{Msgpack}.
Context `{CacheOps C X} `{StoreOps X} `{HostOps X} `{OsOps X}.

Abbreviation W := (World C X).

Definition set_id (i : Id) (w : W) : W :=
  mkWorld (cwd w) (name w) (Some i) (metadata w) (checkpoint_name w)
    (checkpoint_interval w) (last_checkpoint w) (numeric_owner w) (hard_links w)
    (items_buffer w) (archives w) (cache w) (cache' w) (trace w) (ext w).
Definition set_last_checkpoint (t : Z) (w : W) : W :=
  mkWorld (cwd w) (name w) (id w) (metadata w) (checkpoint_name w)
    (checkpoint_interval w) t (numeric_owner w) (hard_links w)
    (items_buffer w) (archives w) (cache w) (cache' w) (trace w) (ext w).
Definition set_hard_links (h : gmap (Z * Z) string) (w : W) : W :=
  mkWorld (cwd w) (name w) (id w) (metadata w) (checkpoint_name w)
    (checkpoint_interval w) (last_checkpoint w) (numeric_owner w) h
    (items_buffer w) (archives w) (cache w) (cache' w) (trace w) (ext w).
Definition set_items_buffer (b : ChunkBuffer.t) (w : W) : W :=
  mkWorld (cwd w) (name w) (id w) (metadata w) (checkpoint_name w)
    (checkpoint_interval w) (last_checkpoint w) (numeric_owner w) (hard_links w)
    b (archives w) (cache w) (cache' w) (trace w) (ext w).
Definition set_archives (a : gmap string ArchiveInfo) (w : W) : W :=
  mkWorld (cwd w) (name w) (id w) (metadata w) (checkpoint_name w)
    (checkpoint_interval w) (last_checkpoint w) (numeric_owner w) (hard_links w)
    (items_buffer w) a (cache w) (cache' w) (trace w) (ext w).
Definition set_cache (c : C) (w : W) : W :=
  mkWorld (cwd w) (name w) (id w) (metadata w) (checkpoint_name w)
    (checkpoint_interval w) (last_checkpoint w) (numeric_owner w) (hard_links w)
    (items_buffer w) (archives w) c (cache' w) (trace w) (ext w).
Definition set_cache' (c : C) (w : W) : W :=
  mkWorld (cwd w) (name w) (id w) (metadata w) (checkpoint_name w)
    (checkpoint_interval w) (last_checkpoint w) (numeric_owner w) (hard_links w)
    (items_buffer w) (archives w) (cache w) c (trace w) (ext w).
Definition set_trace (t : list Event) (w : W) : W :=
  mkWorld (cwd w) (name w) (id w) (metadata w) (checkpoint_name w)
    (checkpoint_interval w) (last_checkpoint w) (numeric_owner w) (hard_links w)
    (items_buffer w) (archives w) (cache w) (cache' w) t (ext w).
Definition set_ext (x : X) (w : W) : W :=
  mkWorld (cwd w) (name w) (id w) (metadata w) (checkpoint_name w)
    (checkpoint_interval w) (last_checkpoint w) (numeric_owner w) (hard_links w)
    (items_buffer w) (archives w) (cache w) (cache' w) (trace w) x.

(** The cache object behind a reference. *)
Definition deref (r : CacheRef) (w : W) : C :=
  match r with self_cache => cache w | other_cache => cache' w end.
Definition assign (r : CacheRef) (c : C) (w : W) : W :=
  match r with self_cache => set_cache c w | other_cache => set_cache' c w end.

Definition log (ev : Event) : M W unit :=
  modify (λ w, set_trace (trace w ++ [ev]) w).

(** Lifting the collaborators' operations to the world. *)
Definition on_ext {A} (m : M X A) : M W A :=
  λ w, let '(r, x) := m (ext w) in (r, set_ext x w).
Definition on_cache {A} (r : CacheRef) (m : M C A) : M W A :=
  λ w, let '(a, c) := m (deref r w) in (a, assign r c w).
Definition on_cache_ext {A} (r : CacheRef) (m : M (C * X) A) : M W A :=
  λ w, let '(a, (c, x)) := m (deref r w, ext w) in (a, set_ext x (assign r c w)).

(** A method of the archive's ChunkBuffer, run on [self.items_buffer]. *)
Definition with_items_buffer {A} (m : M (ChunkBuffer.t * W) A) : M W A :=
  λ w, let '(a, (b, w')) := m (items_buffer w, w) in (a, set_items_buffer b w').

(** [self.id] and [self.metadata] exist only after [save] or [load]. *)
Definition get_id : M W Id :=
  do i <- gets id;
  match i with Some i => ret i | None => raise AttributeError end.
Definition get_metadata : M W Metadata :=
  do m <- gets metadata;
  match m with Some m => ret m | None => raise AttributeError end.

(** [self.key.decrypt(id, data)] *)
Definition key_decrypt (i : Id) (data : bytes) : M W bytes :=
  match decrypt i data with
  | Some plain => ret plain
  | None => raise DecryptError
  end.

(** One element of [zip(ids, self.repository.get_many(ids))]. *)
Definition get_one (is_preloaded : bool) (i : Id) : M W bytes :=
  log (ev_repository_get is_preloaded i) ;; on_ext (repository_get is_preloaded i).

(** [del d[k]] *)
Definition del_archive (n : string) : M W unit :=
  do a <- gets archives;
  match a !! n with
  | Some _ => modify (set_archives (delete n a))
  | None => raise KeyError
  end.

(** CacheChunkBuffer.write_chunk *)
Definition write_chunk (chunk : bytes) : M W Id :=
  log (ev_add_chunk self_cache (id_hash chunk) chunk) ;;
  do '(id_, _, _) <- on_cache_ext self_cache (add_chunk (id_hash chunk) chunk);
  ret id_.

Definition save (name_arg : option string) : M W unit :=
  do self_name <- gets name;
  let name := match name_arg with
              | Some n => if decide (n = "") then self_name else n
              | None => self_name
              end in
  do a <- gets archives;
  if decide (is_Some (a !! name)) then raise (AlreadyExists name)
  else
    with_items_buffer (ChunkBuffer.flush write_chunk true) ;;
    do items <- gets (λ w, ChunkBuffer.chunks (items_buffer w));
    do time <- on_ext utcnow_isoformat;
    let metadata := mkMetadata 1 name items sys_argv gethostname getuser time in
    let data := pack_metadata metadata in
    modify (set_id (id_hash data)) ;;
    do i <- get_id;
    log (ev_add_chunk self_cache i data) ;;
    on_cache_ext self_cache (add_chunk i data) ;;
    do i <- get_id;
    modify (λ w, set_archives (<[name := mkInfo i time]> (archives w)) w) ;;
    log ev_manifest_write ;;
    do a <- gets archives;
    on_ext (manifest_write a) ;;
    log ev_repository_commit ;;
    on_ext repository_commit ;;
    log (ev_cache_commit self_cache) ;;
    on_cache self_cache cache_commit.

Definition write_checkpoint : M W unit :=
  do cn <- gets checkpoint_name;
  save (Some cn) ;;
  do cn <- gets checkpoint_name;
  del_archive cn ;;
  do i <- get_id;
  log (ev_chunk_decref self_cache i) ;;
  on_cache_ext self_cache (chunk_decref i).

Definition add_item (item : Item) : M W unit :=
  with_items_buffer (ChunkBuffer.add write_chunk (pack_item item)) ;;
  do now <- on_ext time_time;
  do last <- gets last_checkpoint;
  do interval <- gets checkpoint_interval;
  if interval <? now - last then
    modify (set_last_checkpoint now) ;;
    write_checkpoint
  else ret tt.

(** [self.cache.chunk_decref(i)] *)
Definition decref (i : Id) : M W unit :=
  log (ev_chunk_decref self_cache i) ;;
  on_cache_ext self_cache (chunk_decref i).

(** The body of the loop of [delete] over one item-stream chunk. *)
Definition delete_items (objs : list Obj) : M W unit :=
  for_each objs (λ item,
    do cs <- obj_chunks item;
    match cs with
    | Some cs => for_each cs (λ '(chunk_id, size, csize), decref chunk_id)
    | None => ret tt
    end).

Fixpoint delete_loop (ids : list Id) (unpacker : Unpacker) : M W unit :=
  match ids with
  | [] => ret tt
  | id_ :: ids' =>
      do data <- get_one false id_;
      do plain <- key_decrypt id_ data;
      let '(objs, unpacker', bad) := drain (feed plain unpacker) in
      decref id_ ;;
      delete_items objs ;;
      if bad then raise UnpackError else delete_loop ids' unpacker'
  end.

Definition delete (cache : CacheRef) : M W unit :=
  do m <- get_metadata;
  delete_loop (m_items m) [] ;;
  do i <- get_id;
  decref i ;;
  do n <- gets name;
  del_archive n ;;
  log ev_manifest_write ;;
  do a <- gets archives;
  on_ext (manifest_write a) ;;
  log ev_repository_commit ;;
  on_ext repository_commit ;;
  log (ev_cache_commit cache) ;;
  on_cache cache cache_commit.

(** [add] and [add_file_chunks], local to [calc_stats]; [stats] is the
    local [Statistics] object, kept as the list of calls made on it. *)
Definition add (i : Id) (stats : list StatCall) : M W (list StatCall) :=
  do chunks <- gets (λ w, cache_chunks (cache w));
  match chunks !! i with
  | None => raise KeyError
  | Some (count, size, csize) =>
      log (ev_chunks_setitem i (count - 1, size, csize)) ;;
      modify (λ w, set_cache (cache_chunks_set
                (<[i := (count - 1, size, csize)]> (cache_chunks (cache w))) (cache w)) w) ;;
      ret (stats ++ [stats_update size csize (count =? 1)])
  end.

Fixpoint add_file_chunks (chunks : list ChunkRef) (stats : list StatCall)
  : M W (list StatCall) :=
  match chunks with
  | [] => ret stats
  | (i, _, _) :: chunks' => do stats <- add i stats; add_file_chunks chunks' stats
  end.

Fixpoint calc_stats_items (objs : list Obj) (stats : list StatCall)
  : M W (list StatCall) :=
  match objs with
  | [] => ret stats
  | item :: objs' =>
      do cs <- obj_chunks item;
      do stats <- match cs with
                  | Some cs => add_file_chunks cs (stats ++ [nfiles_incr])
                  | None => ret stats
                  end;
      calc_stats_items objs' stats
  end.

Fixpoint calc_stats_loop (ids : list Id) (unpacker : Unpacker) (stats : list StatCall)
  : M W (list StatCall) :=
  match ids with
  | [] => ret stats
  | i :: ids' =>
      do chunk <- get_one false i;
      do stats <- add i stats;
      do plain <- key_decrypt i chunk;
      let '(objs, unpacker', bad) := drain (feed plain unpacker) in
      do stats <- calc_stats_items objs stats;
      if bad then raise UnpackError else calc_stats_loop ids' unpacker' stats
  end.

Definition calc_stats (cache : CacheRef) : M W (list StatCall) :=
  log (ev_begin_txn cache) ;;
  on_cache cache begin_txn ;;
  do i <- get_id;
  do stats <- add i [];
  do m <- get_metadata;
  do stats <- calc_stats_loop (m_items m) [] stats;
  log (ev_rollback cache) ;;
  on_cache cache rollback ;;
  ret stats.

(** [d.update(e)] on items: the keys of [e] win. *)
Definition item_update (d e : Item) : Item :=
  let pick {A} (f : Item → option A) := match f e with Some v => Some v | None => f d end in
  mkItem (pick i_path) (pick i_mode) (pick i_source) (pick i_chunks) (pick i_rdev)
         (pick i_uid) (pick i_gid) (pick i_user) (pick i_group) (pick i_mtime)
         (pick i_xattrs).

Definition sys {A} (s : Syscall) (op : M X A) : M W A :=
  log (ev_sys s) ;; on_ext op.

Definition stat_attrs (st : Stat) (path : string) : M W Item :=
  do numeric <- gets numeric_owner;
  let user := if numeric then None else uid2user (st_uid st) in
  let group := if numeric then None else gid2group (st_gid st) in
  do xattrs <- sys (sys_get_all_xattr path) (os_get_all_xattr path);
  ret (mkItem None (Some (st_mode st)) None None None
         (Some (st_uid st)) (Some (st_gid st)) (Some user) (Some group)
         (Some (st_mtime_ns st))
         (match xattrs with [] => None | _ => Some xattrs end)).

(** [for id_ in ids: if not cache.seen_chunk(id_): break] — true when the
    loop ran to its [else]. *)
Fixpoint all_seen (cache : CacheRef) (ids : list Id) : M W bool :=
  match ids with
  | [] => ret true
  | id_ :: ids' =>
      log (ev_seen_chunk cache id_) ;;
      do seen <- on_cache cache (seen_chunk id_);
      if seen then all_seen cache ids' else ret false
  end.

Definition incref_all (cache : CacheRef) (ids : list Id) : M W (list ChunkRef) :=
  map_m (λ id_, log (ev_chunk_incref cache id_) ;;
                on_cache_ext cache (chunk_incref id_)) ids.

Definition add_chunks (cache : CacheRef) (chunks : list bytes) : M W (list ChunkRef) :=
  map_m (λ chunk, log (ev_add_chunk cache (id_hash chunk) chunk) ;;
                  on_cache_ext cache (add_chunk (id_hash chunk) chunk)) chunks.

(** [with open(path, 'rb') as fd: for chunk in chunkify(fd, ...)]: the
    chunker reads the descriptor to the end. *)
Definition chunkify_file (cache : CacheRef) (path : string) : M W (list ChunkRef) :=
  do fd <- sys (sys_open path "rb") (os_open path "rb");
  finally
    (do data <- sys (sys_read fd) (os_read fd);
     log (ev_chunkify data) ;;
     add_chunks cache (chunkify data WINDOW_SIZE CHUNK_MASK CHUNK_MIN chunk_seed))
    (sys (sys_close fd) (os_close fd)).

(** The end of [process_file]: the item is built from the chunk list,
    [self.stats.nfiles] is incremented and the item is added. *)
Definition add_file_item (path : string) (st : Stat) (chunks : list ChunkRef) : M W unit :=
  do attrs <- stat_attrs st path;
  on_ext stats_nfiles_incr ;;
  add_item (item_update
    (mkItem (Some (make_path_safe path)) None None (Some chunks)
            None None None None None None None)
    attrs).

(** [ids = cache.file_known_and_unchanged(path_hash, st)], then the
    [for ... else] that takes the references on a hit: the chunk list, or
    [None] when the file has to be read. *)
Definition lookup_memo (path_hash : Id) (st : Stat) (cache : CacheRef)
  : M W (option (list ChunkRef)) :=
  log (ev_file_known_and_unchanged cache path_hash st) ;;
  do ids <- on_cache cache (file_known_and_unchanged path_hash st);
  match ids with
  | Some ids =>
      do ok <- all_seen cache ids;
      if ok then do cs <- incref_all cache ids; ret (Some cs)
      else ret None
  | None => ret None
  end.

(** [if chunks is None:] read and chunk the file, then memorise its ids. *)
Definition read_and_memorize (path : string) (path_hash : Id) (st : Stat) (cache : CacheRef)
  : M W (list ChunkRef) :=
  do cs <- chunkify_file cache path;
  log (ev_memorize_file cache path_hash st (cs.*1.*1)) ;;
  on_cache cache (memorize_file path_hash st (cs.*1.*1)) ;;
  ret cs.


Definition process_file (path : string) (st : Stat) (cache : CacheRef) : M W unit :=
  let safe_path := make_path_safe path in
  do links <- gets hard_links;
  let key := (st_ino st, st_dev st) in
  match (if 1 <? st_nlink st then links !! key else None) with
  | Some source =>
      do item <- stat_attrs st path;
      add_item (item_update item
        (mkItem (Some safe_path) None (Some source) None None None None None None None None))
  | None =>
      (if 1 <? st_nlink st then modify (set_hard_links (<[key := safe_path]> links))
       else ret tt) ;;
      do cwd <- gets cwd;
      let path_hash := id_hash (encode (os_path_join cwd path)) in
      do chunks <- lookup_memo path_hash st cache;
      do chunks <- match chunks with
                   | Some cs => ret cs
                   | None => read_and_memorize path path_hash st cache
                   end;
      add_file_item path st chunks
  end.

(** Python truthiness of an optional integer ([None] and [0] are false). *)
Definition truthy (z : option Z) : bool :=
  match z with Some v => negb (v =? 0) | None => false end.

(** [fd or path] *)
Definition fd_or_path (fd : option Z) (path : string) : Z + string :=
  match fd with
  | Some v => if v =? 0 then inr path else inl v
  | None => inr path
  end.

Definition only_OSError {A} (k : M W A) (e : Exn) : option (M W A) :=
  match e with OSError _ => Some k | _ => None end.

Definition only_ENOTSUP {A} (k : M W A) (e : Exn) : option (M W A) :=
  match e with OSError ENOTSUP => Some k | _ => None end.

Definition restore_attrs (path : string) (item : Item) (symlink : bool) (fd : option Z)
  : M W unit :=
  (match i_xattrs item with
   | Some ((_ :: _) as xattrs) =>
       for_each xattrs (λ '(k, v),
         try_except
           (sys (sys_setxattr (fd_or_path fd path) k v) (os_setxattr (fd_or_path fd path) k v))
           (only_ENOTSUP (ret tt)))
   | _ => ret tt
   end) ;;
  do numeric <- gets numeric_owner;
  do '(uid, gid) <- (if numeric then ret (None, None)
                     else do user <- getitem (i_user item);
                          do group <- getitem (i_group item);
                          ret (user2uid user, group2gid group));
  do uid <- (if truthy uid then ret (default 0 uid) else getitem (i_uid item));
  do gid <- (if truthy gid then ret (default 0 gid) else getitem (i_gid item));
  try_except
    (if truthy fd then sys (sys_fchown (default 0 fd) uid gid) (os_fchown (default 0 fd) uid gid)
     else sys (sys_lchown path uid gid) (os_lchown path uid gid))
    (only_OSError (ret tt)) ;;
  (if truthy fd then
     do mode <- getitem (i_mode item);
     sys (sys_fchmod (default 0 fd) mode) (os_fchmod (default 0 fd) mode)
   else if negb symlink then
     do mode <- getitem (i_mode item);
     sys (sys_chmod path mode) (os_chmod path mode)
   else if has_lchmod then
     do mode <- getitem (i_mode item);
     sys (sys_lchmod path mode) (os_lchmod path mode)
   else ret tt) ;;
  if truthy fd && utime_supports_fd then
    do mtime <- getitem (i_mtime item);
    sys (sys_utime_fd (default 0 fd) mtime) (os_utime_fd (default 0 fd) mtime)
  else if utime_supports_fd then
    do mtime <- getitem (i_mtime item);
    sys (sys_utime_nofollow path mtime) (os_utime_nofollow path mtime)
  else if negb symlink then
    do mtime <- getitem (i_mtime item);
    sys (sys_utime path mtime) (os_utime path mtime)
  else ret tt.

(** DownloadPipeline.fetch_many, consumed by [body]. *)
Definition fetch_many (ids : list Id) (is_preloaded : bool) (body : bytes → M W unit)
  : M W unit :=
  for_each ids (λ id_,
    do data <- get_one is_preloaded id_;
    do plain <- key_decrypt id_ data;
    body plain).

(** [if not os.path.exists(os.path.dirname(path)): os.makedirs(...)] *)
Definition make_parent (path : string) : M W unit :=
  let parent := os_path_dirname path in
  do ex <- sys (sys_exists parent) (os_exists parent);
  if ex then ret tt else sys (sys_makedirs parent) (os_makedirs parent).

(** [if os.path.exists(path): os.unlink(path)] *)
Definition unlink_if_exists (path : string) : M W unit :=
  do ex <- sys (sys_exists path) (os_exists path);
  if ex then sys (sys_unlink path) (os_unlink path) else ret tt.

(** The [try: ... except OSError: pass] that clears the destination. *)
Definition remove_existing (path : string) : M W unit :=
  try_except
    (do st <- sys (sys_lstat path) (os_lstat path);
     if S_ISDIR (st_mode st) then sys (sys_rmdir path) (os_rmdir path)
     else sys (sys_unlink path) (os_unlink path))
    (only_OSError (ret tt)).

(** The dispatch on [mode] that creates the entry at [path]. *)
Definition materialize (dest path : string) (item : Item) (restore_attrs_ : bool) : M W unit :=
  do mode <- getitem (i_mode item);
  if S_ISDIR mode then
    do ex <- sys (sys_exists path) (os_exists path);
    (if ex then ret tt else sys (sys_makedirs path) (os_makedirs path)) ;;
    if restore_attrs_ then restore_attrs path item false None else ret tt
  else if S_ISREG mode then
    make_parent path ;;
    match i_source item with
    | Some isource =>
        let source := os_path_join dest isource in
        unlink_if_exists path ;;
        sys (sys_link source path) (os_link source path)
    | None =>
        do fd <- sys (sys_open path "wb") (os_open path "wb");
        finally
          (do chunks <- getitem (i_chunks item);
           fetch_many (chunks.*1.*1) true
             (λ data, sys (sys_write fd data) (os_write fd data)) ;;
           sys (sys_flush fd) (os_flush fd) ;;
           restore_attrs path item false (Some fd))
          (sys (sys_close fd) (os_close fd))
    end
  else if S_ISFIFO mode then
    make_parent path ;;
    sys (sys_mkfifo path) (os_mkfifo path) ;;
    restore_attrs path item false None
  else if S_ISLNK mode then
    make_parent path ;;
    do source <- getitem (i_source item);
    unlink_if_exists path ;;
    sys (sys_symlink source path) (os_symlink source path) ;;
    restore_attrs path item true None
  else if S_ISCHR mode || S_ISBLK mode then
    do mode <- getitem (i_mode item);
    do rdev <- getitem (i_rdev item);
    sys (sys_mknod path mode rdev) (os_mknod path mode rdev) ;;
    restore_attrs path item false None
  else raise (Exception_ "Unknown archive item type").

Definition extract_item (item : Item) (restore_attrs_ : bool) (dry_run : bool) : M W unit :=
  if dry_run then
    match i_chunks item with
    | Some chunks => fetch_many (chunks.*1.*1) true (λ _, ret tt)
    | None => ret tt
    end
  else
    do dest <- gets cwd;
    do ipath <- getitem (i_path item);
    if startswith ipath "/" || startswith ipath ".." then
      raise (Exception_ "Path should be relative and local")
    else
      let path := os_path_join dest ipath in
      remove_existing path ;;
      materialize dest path item restore_attrs_.

Definition set_name (n : string) (w : W) : W :=
  mkWorld (cwd w) n (id w) (metadata w) (checkpoint_name w)
    (checkpoint_interval w) (last_checkpoint w) (numeric_owner w) (hard_links w)
    (items_buffer w) (archives w) (cache w) (cache' w) (trace w) (ext w).
Definition set_metadata (m : Metadata) (w : W) : W :=
  mkWorld (cwd w) (name w) (id w) (Some m) (checkpoint_name w)
    (checkpoint_interval w) (last_checkpoint w) (numeric_owner w) (hard_links w)
    (items_buffer w) (archives w) (cache w) (cache' w) (trace w) (ext w).
Definition set_checkpoint_name (n : string) (w : W) : W :=
  mkWorld (cwd w) (name w) (id w) (metadata w) n
    (checkpoint_interval w) (last_checkpoint w) (numeric_owner w) (hard_links w)
    (items_buffer w) (archives w) (cache w) (cache' w) (trace w) (ext w).

(** [load]: [self.repository.get(id)] is the read of one id that was not
    preloaded; [unpack_metadata] is None when the block does not decode to
    a metadata dict.  [self.metadata] is assigned before the version is
    looked at. *)
Definition load (i : Id) : M W unit :=
  modify (set_id i) ;;
  do data <- get_one false i;
  do plain <- key_decrypt i data;
  match unpack_metadata plain with
  | None => raise UnpackError
  | Some m =>
      modify (set_metadata m) ;;
      if bool_decide (m_version m ≠ 1) then
        raise (Exception_ "Unknown archive metadata version")
      else modify (set_name (m_name m))
  end.

(** ['%s.checkpoint%s' % (name, i and ('.%d' % i) or '')] *)
Definition checkpoint_name_of (name : string) (i : nat) : string :=
  name +:+ ".checkpoint" +:+ match i with O => "" | S _ => "." +:+ pretty i end.

(** The [while True] loop of [__init__], entered with [i]; a round that
    does not leave the loop has found one more name of the manifest, so
    [fuel] bounds the rounds. *)
Fixpoint checkpoint_loop (fuel : nat) (name : string) (i : nat) : M W unit :=
  match fuel with
  | O => ret tt
  | S fuel' =>
      modify (set_checkpoint_name (checkpoint_name_of name i)) ;;
      do cn <- gets checkpoint_name;
      do a <- gets archives;
      if decide (is_Some (a !! cn)) then checkpoint_loop fuel' name (S i) else ret tt
  end.

(** [__init__], on a world that holds the objects passed in (the manifest's
    archives, the cache, the repository); [cwd] is what [os.getcwd()]
    returns.  The attributes [id] and [metadata] do not exist after a
    creation; [last_checkpoint] and [checkpoint_name] are not assigned when
    an archive is opened, and the record keeps what it had in them. *)
Definition init (cwd : string) (name : string) (create : bool)
    (checkpoint_interval : Z) (numeric_owner : bool) : M W unit :=
  modify (λ w, mkWorld cwd name None None (checkpoint_name w) checkpoint_interval
                 (last_checkpoint w) numeric_owner ∅ ChunkBuffer.init
                 (archives w) (cache w) (cache' w) (trace w) (ext w)) ;;
  do a <- gets archives;
  if create then
    if decide (is_Some (a !! name)) then raise (AlreadyExists name)
    else
      do now <- on_ext time_time;
      modify (set_last_checkpoint now) ;;
      checkpoint_loop (S (size a)) name 0
  else
    match a !! name with
    | None => raise (DoesNotExist name)
    | Some info => load (info_id info)
    end.

Definition process_item (path : string) (st : Stat) : M W unit :=
  do attrs <- stat_attrs st path;
  add_item (item_update
    (mkItem (Some (make_path_safe path)) None None None None None None None None None None)
    attrs).

Definition process_dev (path : string) (st : Stat) : M W unit :=
  do attrs <- stat_attrs st path;
  add_item (item_update
    (mkItem (Some (make_path_safe path)) None None None (Some (st_rdev st))
            None None None None None None)
    attrs).

Definition process_symlink (path : string) (st : Stat) : M W unit :=
  do source <- sys (sys_readlink path) (os_readlink path);
  do attrs <- stat_attrs st path;
  add_item (item_update
    (mkItem (Some (make_path_safe path)) None (Some source) None None
            None None None None None None)
    attrs).

End Methods.
End Archive.

(** ** class ArchiveChecker *)

Module ArchiveChecker.

(** What [report_progress] prints, by format string. *)
Inductive Report :=
| missing_file_chunk (path : string) (offset stop : Z)
    (* '{}: Missing file chunk detected (Byte {}-{})' *)
| metadata_damage.
    (* 'Archive metadata damage detected' *)

(** The fields of the checker that [rebuild_chunks] uses, the trace of
    repository calls, the lines printed to stderr and the outside world. *)
Record t (X : Type) := mk {
  chunks : gmap Id (Z * Z * Z);
  repair : bool;
  error_found : bool;
  progress : bool;
  possibly_superseded : gset Id;
  stderr : list Report;
  trace : list Event;
  ext : X;
}.
Arguments mk {X}.
Arguments chunks {X}.
Arguments repair {X}.
Arguments error_found {X}.
Arguments progress {X}.
Arguments possibly_superseded {X}.
Arguments stderr {X}.
Arguments trace {X}.
Arguments ext {X}.

Section Methods.
Context {X : Type}.
Context `{Key} `{Chunker} `{Msgpack} `{StoreOps X}.

Abbreviation T := (t X).

Definition set_chunks (c : gmap Id (Z * Z * Z)) (s : T) : T :=
  mk c (repair s) (error_found s) (progress s) (possibly_superseded s)
     (stderr s) (trace s) (ext s).
Definition set_error_found (b : bool) (s : T) : T :=
  mk (chunks s) (repair s) b (progress s) (possibly_superseded s)
     (stderr s) (trace s) (ext s).
Definition set_possibly_superseded (p : gset Id) (s : T) : T :=
  mk (chunks s) (repair s) (error_found s) (progress s) p
     (stderr s) (trace s) (ext s).
Definition set_stderr (l : list Report) (s : T) : T :=
  mk (chunks s) (repair s) (error_found s) (progress s) (possibly_superseded s)
     l (trace s) (ext s).
Definition set_trace (l : list Event) (s : T) : T :=
  mk (chunks s) (repair s) (error_found s) (progress s) (possibly_superseded s)
     (stderr s) l (ext s).
Definition set_ext (x : X) (s : T) : T :=
  mk (chunks s) (repair s) (error_found s) (progress s) (possibly_superseded s)
     (stderr s) (trace s) x.

Definition log (ev : Event) : M T unit :=
  modify (λ s, set_trace (trace s ++ [ev]) s).
Definition on_ext {A} (m : M X A) : M T A :=
  λ s, let '(r, x) := m (ext s) in (r, set_ext x s).

Definition report_progress (msg : Report) (error : bool) : M T unit :=
  (if error then modify (set_error_found true) else ret tt) ;;
  do p <- gets progress;
  if error || p then modify (λ s, set_stderr (stderr s ++ [msg]) s) else ret tt.

Definition record_unused (id_ : Id) : M T unit :=
  do c <- gets chunks;
  let count := match c !! id_ with Some (count, _, _) => count | None => 0 end in
  if count =? 0 then
    modify (λ s, set_possibly_superseded ({[id_]} ∪ possibly_superseded s) s)
  else ret tt.

Definition add_reference (id_ : Id) (size csize : Z) (cdata : option bytes) : M T unit :=
  do c <- gets chunks;
  match c !! id_ with
  | Some (count, _, _) =>
      modify (set_chunks (<[id_ := (count + 1, size, csize)]> c))
  | None =>
      match cdata with
      | None => raise AssertionError
      | Some cdata =>
          modify (set_chunks (<[id_ := (1, size, csize)]> c)) ;;
          do r <- gets repair;
          if r then log (ev_repository_put id_ cdata) ;;
                    on_ext (repository_put id_ cdata)
          else ret tt
      end
  end.

Definition add_callback (chunk : bytes) : M T Id :=
  let id_ := id_hash chunk in
  let cdata := encrypt chunk in
  add_reference id_ (blen chunk) (blen cdata) (Some cdata) ;;
  ret id_.

(** The body of the loop of [verify_file_chunks] for one reference;
    returns the triple appended to [chunk_list]. *)
Definition verify_ref (path : option string) (offset : Z) (ref : ChunkRef) : M T ChunkRef :=
  let '(chunk_id, size, csize) := ref in
  do c <- gets chunks;
  match c !! chunk_id with
  | None =>
      do p <- getitem path;
      report_progress (missing_file_chunk p offset (offset + size)) true ;;
      if size <? 0 then raise ValueError
      else
        let data := zeros size in
        let chunk_id := id_hash data in
        let cdata := encrypt data in
        let csize := blen cdata in
        add_reference chunk_id size csize (Some cdata) ;;
        ret (chunk_id, size, csize)
  | Some _ =>
      add_reference chunk_id size csize None ;;
      ret (chunk_id, size, csize)
  end.

(** The loop of [verify_file_chunks]; returns [chunk_list]. *)
Fixpoint verify_chunk_refs (path : option string) (refs : list ChunkRef)
    (offset : Z) (chunk_list : list ChunkRef) : M T (list ChunkRef) :=
  match refs with
  | [] => ret chunk_list
  | ref :: refs' =>
      do ref' <- verify_ref path offset ref;
      verify_chunk_refs path refs' (offset + ref.1.2) (chunk_list ++ [ref'])
  end.

Definition verify_file_chunks (item : Item) : M T Item :=
  do refs <- getitem (i_chunks item);
  do chunk_list <- verify_chunk_refs (i_path item) refs 0 [];
  ret (set_chunks_of_item chunk_list item).

(** [msgpack_resync]: [None] when the loop runs off the end of [data].
    [next(unpacker)] raises StopIteration on a truncated object. *)
Fixpoint msgpack_resync {S} (data : bytes) : M S (option bytes) :=
  match data with
  | [] => ret None
  | _ :: data' =>
      match unpack_one data with
      | Decoded (OItem it) _ =>
          if bool_decide (is_Some (i_path it)) then ret (Some data)
          else msgpack_resync data'
      | Decoded OOther _ => msgpack_resync data'
      | Incomplete => raise StopIteration
      | Malformed => raise UnpackError
      end
  end.

(** [missing_chunk_detector]: the new value of the nonlocal [state], which
    is also the key returned. *)
Definition missing_chunk_detector (index : gmap Id (Z * Z * Z)) (state : Z) (chunk_id : Id) : Z :=
  if bool_decide (state `mod` 2 ≠ (if bool_decide (index !! chunk_id = None) then 1 else 0))
  then state + 1 else state.

(** The group iterator of [itertools.groupby] run to its end, as
    [list(items)] does after the first element of the group: the further
    members of the group, the value of [state] left by the key function,
    the element read ahead with its key (if the input did not run out) and
    the unread input. *)
Fixpoint grouper (index : gmap Id (Z * Z * Z)) (tgtkey state : Z) (input : list Id)
  : list Id * Z * option (Z * Id) * list Id :=
  match input with
  | [] => ([], state, None, [])
  | v :: input' =>
      let k := missing_chunk_detector index state v in
      if k =? tgtkey then
        let '(g, state', ahead, rest) := grouper index tgtkey k input' in
        (v :: g, state', ahead, rest)
      else ([], k, Some (k, v), input')
  end.

(** The robust iterator is a generator: its state is the list of objects
    yielded so far and the checker. *)
Definition yield (o : Obj) : M (list Obj * T) unit :=
  modify (λ s, (s.1 ++ [o], s.2)).

(** The [for i, (chunk_id, cdata) in enumerate(zip(items, get_many(items)))]
    loop; [state] is the nonlocal variable as [list(items)] left it.  An
    exception of [msgpack_resync] is passed on with its kind; a
    StopIteration that leaves the body of the generator reaches the caller
    as RuntimeError from Python 3.7 on, and ends the iteration silently
    before. *)
Fixpoint feed_group (state : Z) (i : nat) (items : list Id) (unpacker : Unpacker)
  : M (list Obj * T) Unpacker :=
  match items with
  | [] => ret unpacker
  | chunk_id :: items' =>
      do cdata <- on_env (log (ev_repository_get false chunk_id) ;;
                          on_ext (repository_get false chunk_id));
      do data <- match decrypt chunk_id cdata with
                 | Some d => ret d
                 | None => raise DecryptError
                 end;
      do data <- (if negb (state =? 0) && bool_decide (i = O) then
                    do r <- msgpack_resync data;
                    match r with
                    | Some d => ret d
                    | None => raise TypeError      (* unpacker.feed(None) *)
                    end
                  else ret data);
      let '(objs, unpacker', bad) := drain (feed data unpacker) in
      for_each objs yield ;;
      if bad then raise UnpackError else feed_group state (S i) items' unpacker'
  end.

(** The [for state, items in groupby(...)] loop.  [ahead] is the element
    groupby has read ahead with its key, [input] the ids not yet read;
    every round consumes at least one id, so [fuel] bounds the rounds. *)
Fixpoint robust_loop (fuel : nat) (state : Z) (prev_state : option Z)
    (unpacker : Unpacker) (ahead : option (Z * Id)) (input : list Id)
  : M (list Obj * T) unit :=
  match fuel with
  | O => ret tt
  | S fuel' =>
      do index <- gets (λ s, chunks s.2);
      let next :=
        match ahead with
        | Some (k, v) => Some (k, v, input)
        | None =>
            match input with
            | [] => None
            | v :: input' => Some (missing_chunk_detector index state v, v, input')
            end
        end in
      match next with
      | None => ret tt
      | Some (key, v, input) =>
          let state := key in
          let unpacker := if bool_decide (Some state = prev_state) then unpacker else [] in
          let prev_state := Some state in
          if negb (state `mod` 2 =? 0) then
            on_env (report_progress metadata_damage true)
          else
            let '(g, state, ahead, input) := grouper index key state input in
            do unpacker <- feed_group state O (v :: g) unpacker;
            robust_loop fuel' state prev_state unpacker ahead input
      end
  end.

(** [robust_iterator(archive)] on [archive[b'items']], run to its end.  The
    generator is consumed lazily by [rebuild_chunks], which changes
    [self.chunks] between two items; the key function reads [self.chunks]
    only while [list(items)] drains a group and reads the first id of the
    next one, which happens before the first item of the group is yielded,
    and the loop returns at the next group: all its calls precede the first
    yield, so the index is the one of the moment the iteration starts. *)
Definition robust_iterator (items : list Id) : M (list Obj * T) unit :=
  robust_loop (S (length items)) 0 None [] None items.

End Methods.

(** *** verify_chunks *)

(** [repository.delete(id)] *)
Class RepositoryDelete (X : Type) := {
  repository_delete : Id → M X unit;
}.

(** What [verify_chunks] prints and asks of its collaborators, in order. *)
Inductive VerifyEvent :=
| orphaned_objects_found (n : nat)      (* '{} orphaned objects found' *)
| called_repository_delete (i : Id)
| called_manifest_write
| called_repository_commit.

Section Verify.
Context {X : Type}.
Context `{StoreOps X} `{RepositoryDelete X}.

(** The ids whose count is 0, the set [unused]. *)
Definition unused_ids (index : gmap Id (Z * Z * Z)) : gset Id :=
  dom (filter (λ kv, kv.2.1.1 = 0) index).

Definition note (ev : VerifyEvent) : M (list VerifyEvent * t X) unit :=
  modify (λ s, (s.1 ++ [ev], s.2)).

(** [verify_chunks]; its state is the list of what it has printed and
    called, and the checker.  [report_progress(msg, error=True)] sets
    [error_found] and prints; [manifest_archives] is the table of
    [self.manifest].  A set is walked in some order, here the one of
    [elements]. *)
Definition verify_chunks (manifest_archives : gmap string ArchiveInfo)
  : M (list VerifyEvent * t X) unit :=
  do index <- gets (λ s, chunks s.2);
  let unused := unused_ids index in
  do superseded <- gets (λ s, possibly_superseded s.2);
  let orphaned := unused ∖ superseded in
  (if decide (orphaned = ∅) then ret tt
   else on_env (modify (set_error_found true)) ;;
        note (orphaned_objects_found (size orphaned))) ;;
  do r <- gets (λ s, repair s.2);
  if r then
    for_each (elements unused) (λ id_,
      note (called_repository_delete id_) ;;
      on_env (on_ext (repository_delete id_))) ;;
    note called_manifest_write ;;
    on_env (on_ext (manifest_write manifest_archives)) ;;
    note called_repository_commit ;;
    on_env (on_ext repository_commit)
  else ret tt.

End Verify.
End ArchiveChecker.

(** ** The contract of the cache *)

(** The reference count of a chunk: the [count] of its entry, 0 without. *)
Definition refcount (m : gmap Id (Z * Z * Z)) (i : Id) : Z :=
  match m !! i with
  | Some (count, _, _) => count
  | None => 0
  end.

(** What the module relies on from a cache: [chunks] is an attribute that
    reads back what was stored; [add_chunk] inserts or increments,
    [chunk_decref] decrements, [commit] keeps the table; a transaction begun
    with [begin_txn] leaves the table as it is, and [rollback] restores the
    table of the moment of [begin_txn] whatever was stored since. *)
Class CacheLaws (C X : Type) `{CacheOps C X} : Prop := {
  chunks_set_get : ∀ m c, cache_chunks (cache_chunks_set m c) = m;
  chunks_set_set : ∀ m m' c,
    cache_chunks_set m' (cache_chunks_set m c) = cache_chunks_set m' c;
  chunks_get_set : ∀ c, cache_chunks_set (cache_chunks c) c = c;
  add_chunk_increments : ∀ i data c x r c' x',
    add_chunk i data (c, x) = (Ok r, (c', x')) →
    refcount (cache_chunks c') i = refcount (cache_chunks c) i + 1;
  chunk_decref_decrements : ∀ i c x r c' x',
    chunk_decref i (c, x) = (Ok r, (c', x')) →
    refcount (cache_chunks c') i = refcount (cache_chunks c) i - 1;
  commit_keeps_chunks : ∀ c r c',
    cache_commit c = (Ok r, c') → cache_chunks c' = cache_chunks c;
  begin_txn_keeps_chunks : ∀ c r c1,
    begin_txn c = (Ok r, c1) → cache_chunks c1 = cache_chunks c;
  rollback_restores : ∀ c r c1 m r' c2,
    begin_txn c = (Ok r, c1) →
    rollback (cache_chunks_set m c1) = (Ok r', c2) →
    cache_chunks c2 = cache_chunks c;
}.

(** ** A small concrete world on which the code can be run *)

Module Example.

(** A key whose ids are the plaintext itself and whose ciphertext is the
    plaintext behind a one-byte envelope. *)
Definition key : Key := {|
  id_hash := λ b, b;
  encrypt := λ b, xff :: b;
  decrypt := λ _ d, match d with
                    | [] => None
                    | h :: p => if bool_decide (h = xff) then Some p else None
                    end;
  chunk_seed := 0;
|}.

(** A chunker that cuts every two bytes. *)
Fixpoint pairs (fuel : nat) (b : bytes) : list bytes :=
  match fuel, b with
  | S fuel', x :: y :: ((_ :: _) as rest) => [x; y] :: pairs fuel' rest
  | _, [] => []
  | _, _ => [b]
  end.

Definition chunker : Chunker := {| chunkify := λ b _ _ _ _, pairs (length b) b |}.

(** A two-byte wire format: [x81; c] is the item whose only key is [path],
    with the one-character path [c]; [xc1] is never valid (as in msgpack);
    any other byte is a scalar. *)
Definition path_of_byte (c : byte) : string :=
  String.string_of_list_byte [c].

Definition item_with_path (c : byte) : Item :=
  mkItem (Some (path_of_byte c)) None None None None None None None None None None.

Definition toy_unpack_one (b : bytes) : Unpacked :=
  match b with
  | [] => Incomplete
  | h :: rest =>
      if bool_decide (h = xc1) then Malformed
      else if bool_decide (h = x81) then
        match rest with
        | [] => Incomplete
        | c :: rest' => Decoded (OItem (item_with_path c)) rest'
        end
      else Decoded OOther rest
  end.

Definition toy_pack_item (it : Item) : bytes :=
  match i_path it with
  | Some p => x81 :: take 1 (String.list_byte_of_string p)
  | None => [x00]
  end.

Definition toy_pack_metadata (m : Metadata) : bytes :=
  x90 :: String.list_byte_of_string (m_name m) ++ concat (m_items m).

Definition msgpack : Msgpack.
Proof.
  refine {| pack_item := toy_pack_item;
            pack_metadata := toy_pack_metadata;
            unpack_metadata := λ _, None;
            unpack_one := toy_unpack_one |}.
  intros b o rest. unfold toy_unpack_one. destruct b as [|h b]; [done|].
  repeat case_bool_decide; try done.
  - destruct b as [|c b]; [done|]. intros [= _ <-]. simpl. lia.
  - intros [= _ <-]. simpl. lia.
Defined.

(** A filesystem entry. *)
Inductive Node :=
| NDir
| NFile (content : bytes)
| NFifo
| NSymlink (target : string)
| NDev (rdev : Z).

(** Everything outside the module: repository, manifest store,
    [self.stats], clock, and a filesystem keyed by path text (paths are not
    normalised; descriptor 3 is the one open file). *)
Record Outside := mkOutside {
  repo : gmap Id bytes;
  manifest_store : gmap string ArchiveInfo;
  self_stats : list StatCall;
  clock : Z;
  fs : gmap string Node;
  open_path : option string;
}.

Definition set_repo (r : gmap Id bytes) (x : Outside) : Outside :=
  mkOutside r (manifest_store x) (self_stats x) (clock x) (fs x) (open_path x).
Definition set_manifest_store (m : gmap string ArchiveInfo) (x : Outside) : Outside :=
  mkOutside (repo x) m (self_stats x) (clock x) (fs x) (open_path x).
Definition set_self_stats (l : list StatCall) (x : Outside) : Outside :=
  mkOutside (repo x) (manifest_store x) l (clock x) (fs x) (open_path x).
Definition set_fs (f : gmap string Node) (x : Outside) : Outside :=
  mkOutside (repo x) (manifest_store x) (self_stats x) (clock x) f (open_path x).
Definition set_open_path (p : option string) (x : Outside) : Outside :=
  mkOutside (repo x) (manifest_store x) (self_stats x) (clock x) (fs x) p.

(** Modelled from the spec: the cache collaborator (attic.cache.Cache, not
    part of this module), after the contract of section 6: a table
    [id → (count, size, csize)], a per-file memo, [add_chunk] inserts or
    increments, [chunk_incref] and [chunk_decref] move the count,
    [begin_txn] takes a snapshot that [rollback] restores and [commit]
    drops. *)
Record Cache := mkCache {
  table : gmap Id (Z * Z * Z);
  memo : gmap Id (Stat * list Id);
  snapshot : option (gmap Id (Z * Z * Z) * gmap Id (Stat * list Id));
}.

Definition cache_add_chunk (i : Id) (data : bytes) : M (Cache * Outside) ChunkRef :=
  λ '(c, x),
    match table c !! i with
    | Some (count, size, csize) =>
        (Ok (i, size, csize),
         (mkCache (<[i := (count + 1, size, csize)]> (table c)) (memo c) (snapshot c),
          set_self_stats (self_stats x ++ [stats_update size csize false]) x))
    | None =>
        let cdata := @encrypt key data in
        (Ok (i, blen data, blen cdata),
         (mkCache (<[i := (1, blen data, blen cdata)]> (table c)) (memo c) (snapshot c),
          set_self_stats (self_stats x ++ [stats_update (blen data) (blen cdata) true])
            (set_repo (<[i := cdata]> (repo x)) x)))
    end.

Definition cache_chunk_incref (i : Id) : M (Cache * Outside) ChunkRef :=
  λ '(c, x),
    match table c !! i with
    | Some (count, size, csize) =>
        (Ok (i, size, csize),
         (mkCache (<[i := (count + 1, size, csize)]> (table c)) (memo c) (snapshot c),
          set_self_stats (self_stats x ++ [stats_update size csize false]) x))
    | None => (Raise KeyError, (c, x))
    end.

Definition cache_chunk_decref (i : Id) : M (Cache * Outside) unit :=
  λ '(c, x),
    match table c !! i with
    | Some (count, size, csize) =>
        if count =? 1 then
          (Ok tt, (mkCache (delete i (table c)) (memo c) (snapshot c),
                   set_repo (delete i (repo x)) x))
        else
          (Ok tt, (mkCache (<[i := (count - 1, size, csize)]> (table c)) (memo c) (snapshot c), x))
    | None => (Raise KeyError, (c, x))
    end.

Definition cache_ops : CacheOps Cache Outside := {|
  cache_chunks := table;
  cache_chunks_set := λ m c, mkCache m (memo c) (snapshot c);
  add_chunk := cache_add_chunk;
  chunk_incref := cache_chunk_incref;
  chunk_decref := cache_chunk_decref;
  seen_chunk := λ i c, (Ok (bool_decide (is_Some (table c !! i))), c);
  file_known_and_unchanged := λ path_hash st c,
    (Ok (match memo c !! path_hash with
         | Some (st', ids) => if bool_decide (st' = st) then Some ids else None
         | None => None
         end), c);
  memorize_file := λ path_hash st ids c,
    (Ok tt, mkCache (table c) (<[path_hash := (st, ids)]> (memo c)) (snapshot c));
  begin_txn := λ c, (Ok tt, mkCache (table c) (memo c) (Some (table c, memo c)));
  cache_commit := λ c, (Ok tt, mkCache (table c) (memo c) None);
  rollback := λ c,
    (Ok tt, match snapshot c with
            | Some (t, m) => mkCache t m None
            | None => c
            end);
|}.

Definition store_ops : StoreOps Outside := {|
  repository_get := λ _ i x,
    match repo x !! i with
    | Some cdata => (Ok cdata, x)
    | None => (Raise KeyError, x)
    end;
  repository_put := λ i cdata x, (Ok tt, set_repo (<[i := cdata]> (repo x)) x);
  repository_commit := λ x, (Ok tt, x);
  manifest_write := λ a x, (Ok tt, set_manifest_store a x);
  stats_nfiles_incr := λ x, (Ok tt, set_self_stats (self_stats x ++ [nfiles_incr]) x);
|}.

Definition host_ops : HostOps Outside := {|
  time_time := λ x, (Ok (clock x), x);
  utcnow_isoformat := λ x, (Ok "2014-05-01T12:00:00.000000", x);
  sys_argv := ["attic"; "create"];
  gethostname := "host";
  getuser := "user";
  make_path_safe := λ p, p;
  uid2user := λ _, None;
  gid2group := λ _, None;
  user2uid := λ _, None;
  group2gid := λ _, None;
  utime_supports_fd := true;
  has_lchmod := false;
|}.

Definition node_mode (n : Node) : Z :=
  match n with
  | NDir => 0x4000 + 0x1ed
  | NFile _ => 0x8000 + 0x1a4
  | NFifo => 0x1000 + 0x1a4
  | NSymlink _ => 0xA000 + 0x1ff
  | NDev _ => 0x2000 + 0x1a4
  end.

Definition node_stat (n : Node) : Stat :=
  mkStat (node_mode n) 1 0 0 0 0 (match n with NDev r => r | _ => 0 end) 0.

Definition has_children (p : string) (f : gmap string Node) : bool :=
  existsb (λ k, String.prefix (p +:+ "/") k) (map_to_list f).*1.

Definition oserror {A} (e : Errno) : M Outside A := raise (OSError e).

(** Create [p] as [n] unless something is there. *)
Definition create (p : string) (n : Node) : M Outside unit :=
  λ x, match fs x !! p with
       | Some _ => (Raise (OSError EEXIST), x)
       | None => (Ok tt, set_fs (<[p := n]> (fs x)) x)
       end.

Definition os_ops : OsOps Outside := {|
  os_lstat := λ p x,
    match fs x !! p with
    | Some n => (Ok (node_stat n), x)
    | None => (Raise (OSError ENOENT), x)
    end;
  os_rmdir := λ p x,
    match fs x !! p with
    | Some NDir => if has_children p (fs x) then (Raise (OSError ENOTEMPTY), x)
                   else (Ok tt, set_fs (delete p (fs x)) x)
    | Some _ => (Raise (OSError ENOTDIR), x)
    | None => (Raise (OSError ENOENT), x)
    end;
  os_unlink := λ p x,
    match fs x !! p with
    | Some NDir => (Raise (OSError EPERM), x)
    | Some _ => (Ok tt, set_fs (delete p (fs x)) x)
    | None => (Raise (OSError ENOENT), x)
    end;
  os_exists := λ p x, (Ok (bool_decide (is_Some (fs x !! p))), x);
  os_makedirs := λ p, create p NDir;
  os_link := λ src dst x,
    match fs x !! src with
    | Some n => create dst n x
    | None => (Raise (OSError ENOENT), x)
    end;
  os_open := λ p mode x,
    if bool_decide (mode = "wb") then
      match fs x !! p with
      | Some NDir => (Raise (OSError EPERM), x)
      | _ => (Ok 3, set_open_path (Some p) (set_fs (<[p := NFile []]> (fs x)) x))
      end
    else
      match fs x !! p with
      | Some (NFile _) => (Ok 3, set_open_path (Some p) x)
      | _ => (Raise (OSError ENOENT), x)
      end;
  os_read := λ fd x,
    match open_path x ≫= (λ p, fs x !! p) with
    | Some (NFile content) => (Ok content, x)
    | _ => (Raise (OSError EIO), x)
    end;
  os_write := λ fd data x,
    match open_path x with
    | Some p =>
        match fs x !! p with
        | Some (NFile content) => (Ok tt, set_fs (<[p := NFile (content ++ data)]> (fs x)) x)
        | _ => (Raise (OSError EIO), x)
        end
    | None => (Raise (OSError EIO), x)
    end;
  os_flush := λ fd x, (Ok tt, x);
  os_close := λ fd x, (Ok tt, set_open_path None x);
  os_mkfifo := λ p, create p NFifo;
  os_symlink := λ src dst, create dst (NSymlink src);
  os_readlink := λ p x,
    match fs x !! p with
    | Some (NSymlink target) => (Ok target, x)
    | _ => (Raise (OSError ENOENT), x)
    end;
  os_mknod := λ p mode rdev, create p (NDev rdev);
  os_get_all_xattr := λ p x, (Ok [], x);
  os_setxattr := λ target k v x, (Ok tt, x);
  os_fchown := λ fd uid gid x, (Ok tt, x);
  os_lchown := λ p uid gid x, (Ok tt, x);
  os_fchmod := λ fd mode x, (Ok tt, x);
  os_chmod := λ p mode x, (Ok tt, x);
  os_lchmod := λ p mode x, (Ok tt, x);
  os_utime_fd := λ fd mtime x, (Ok tt, x);
  os_utime_nofollow := λ p mtime x, (Ok tt, x);
  os_utime := λ p mtime x, (Ok tt, x);
|}.

Definition outside0 : Outside := mkOutside ∅ ∅ [] 1000 ∅ None.
Definition cache0 : Cache := mkCache ∅ ∅ None.

(** An archive being created in [/dest], named [A], last checkpointed at
    time 0, with nothing in the manifest. *)
Definition world0 : Archive.World Cache Outside :=
  Archive.mkWorld "/dest" "A" None None "A.checkpoint" 300 0 false ∅
    ChunkBuffer.init ∅ cache0 cache0 [] outside0.

(** The item whose path is [a]. *)
Definition item_a : Item := item_with_path x61.

(** Items to restore. *)
Definition file_item (p : string) : Item :=
  mkItem (Some p) (Some 0x81a4) None (Some []) None (Some 0) (Some 0)
         (Some None) (Some None) (Some 0) None.
Definition link_item (p src : string) : Item :=
  mkItem (Some p) (Some 0x81a4) (Some src) None None (Some 0) (Some 0)
         (Some None) (Some None) (Some 0) None.

(** A destination [/dest] holding a non-empty directory [d] and a file [t]. *)
Definition restore_fs : gmap string Node :=
  <["/dest" := NDir]> (<["/dest/d" := NDir]> (<["/dest/d/f" := NFile []]>
    (<["/dest/t" := NFile [x01]]> ∅))).

Definition restore_world : Archive.World Cache Outside :=
  Archive.mkWorld "/dest" "A" None None "A.checkpoint" 300 0 false ∅
    ChunkBuffer.init ∅ cache0 cache0 [] (mkOutside ∅ ∅ [] 1000 restore_fs None).

(** Three item-stream chunks, one item each; the checker's index and the
    repository lack the second. *)
Definition chunk_a : bytes := [x81; x61].
Definition chunk_b : bytes := [x81; x62].
Definition chunk_c : bytes := [x81; x63].

Definition damaged_checker : ArchiveChecker.t Outside :=
  ArchiveChecker.mk (<[chunk_a := (0, 0, 0)]> (<[chunk_c := (0, 0, 0)]> ∅))
    true false true ∅ [] []
    (mkOutside (<[chunk_a := xff :: chunk_a]> (<[chunk_c := xff :: chunk_c]> ∅))
               ∅ [] 1000 ∅ None).

(** A stored archive [A] whose item stream is the chunk [chunk_a]; its
    metadata block has the id [meta_id]; [chunk_a] is also referenced by
    another archive. *)
Definition meta_id : Id := [x90; x41].

Definition stored_table : gmap Id (Z * Z * Z) :=
  <[meta_id := (1, 2, 3)]> (<[chunk_a := (2, 2, 3)]> ∅).

Definition stored_world : Archive.World Cache Outside :=
  Archive.mkWorld "/dest" "A" (Some meta_id)
    (Some (mkMetadata 1 "A" [chunk_a] [] "host" "user" "2014-05-01T12:00:00.000000"))
    "A.checkpoint" 300 0 false ∅ ChunkBuffer.init
    (<["A" := mkInfo meta_id "2014-05-01T12:00:00.000000"]> ∅)
    (mkCache stored_table ∅ None) cache0 []
    (mkOutside (<[meta_id := xff :: meta_id]> (<[chunk_a := xff :: chunk_a]> ∅))
               ∅ [] 1000 ∅ None).

(** A source tree with one file [/dest/t]; in [known_world] the cache
    remembers it with the chunk [x01]. *)
Definition file_stat : Stat := mkStat 0x81a4 1 7 1 0 0 0 0.

Definition ingest_world : Archive.World Cache Outside :=
  Archive.mkWorld "/dest" "A" None None "A.checkpoint" 300 900 false ∅
    ChunkBuffer.init ∅ cache0 cache0 [] (mkOutside ∅ ∅ [] 1000 restore_fs None).



(** A checker whose index has the chunk [x01] and lacks [x02]. *)
Definition file_checker : ArchiveChecker.t Outside :=
  ArchiveChecker.mk (<[[x01] := (0, 0, 0)]> ∅) true false true ∅ [] [] outside0.

Definition checked_item : Item :=
  mkItem (Some "f") (Some 0x81a4) None (Some [([x01], 1, 2); ([x02], 3, 4)])
         None None None None None None None.

(** A second wire format, in which a metadata block can be read back: the
    byte [x90] followed by the name of the archive. *)
Definition toy_unpack_metadata (b : bytes) : option Metadata :=
  match b with
  | h :: rest =>
      if bool_decide (h = x90) then
        Some (mkMetadata 1 (String.string_of_list_byte rest) [] [] "host" "user"
                "2014-05-01T12:00:00.000000")
      else None
  | [] => None
  end.

Definition meta_msgpack : Msgpack := {|
  pack_item := toy_pack_item;
  pack_metadata := toy_pack_metadata;
  unpack_metadata := toy_unpack_metadata;
  unpack_one := toy_unpack_one;
  unpack_one_progress := @unpack_one_progress msgpack;
|}.

Definition delete_ops : ArchiveChecker.RepositoryDelete Outside := {|
  ArchiveChecker.repository_delete := λ i x,
    match repo x !! i with
    | Some _ => (Ok tt, set_repo (delete i (repo x)) x)
    | None => (Raise KeyError, x)
    end;
|}.

(** A checker in repair mode after the rebuild: [chunk_a] has no reference
    left and was not superseded, [chunk_c] has one. *)
Definition rebuilt_checker : ArchiveChecker.t Outside :=
  ArchiveChecker.mk (<[chunk_a := (0, 2, 3)]> (<[chunk_c := (1, 2, 3)]> ∅))
    true false true ∅ [] []
    (mkOutside (<[chunk_a := xff :: chunk_a]> (<[chunk_c := xff :: chunk_c]> ∅))
               ∅ [] 1000 ∅ None).

End Example.

(** ** Properties of traces *)

(** However [m] ends, the state it leaves is related by [R] to the state it
    started from. *)
Definition steps {S A} (R : relation S) (m : M S A) : Prop :=
  ∀ s r s', m s = (r, s') → R s s'.

(** The trace has grown, by events satisfying [P] only. *)
Definition appends {S} (tr : S → list Event) (P : Event → Prop) : relation S :=
  λ s s', ∃ t, tr s' = tr s ++ t ∧ Forall P t.

(** Whatever [m] does, it only appends to the trace, and only events
    satisfying [P]. *)
Definition emits {S A} (tr : S → list Event) (P : Event → Prop) (m : M S A) : Prop :=
  steps (appends tr P) m.

(** The relation on pair states that looks at the environment only. *)
Definition on_snd {O E} (R : relation E) : relation (O * E) :=
  λ s s', R s.2 s'.2.

(** The three persistence steps. *)
Definition is_persist (ev : Event) : bool :=
  match ev with
  | ev_manifest_write | ev_repository_commit | ev_cache_commit _ => true
  | _ => false
  end.

Definition commit_order (c : CacheRef) : list Event :=
  [ev_manifest_write; ev_repository_commit; ev_cache_commit c].

Definition is_ok {A} (r : Res A) : bool :=
  match r with Ok _ => true | Raise _ => false end.

(** Whatever [m] does and however it ends, the persistence steps it has
    appended to the trace form a prefix of manifest.write,
    repository.commit, cache.commit, and all three when [m] returns. *)
Definition commits_in_order {S A} (tr : S → list Event) (c : CacheRef) (m : M S A) : Prop :=
  ∀ s, let '(r, s') := m s in
       ∃ t, tr s' = tr s ++ t ∧
            List.filter is_persist t `prefix_of` commit_order c ∧
            if is_ok r then List.filter is_persist t = commit_order c else True.

(** The fields of the archive that only the archive's own methods assign:
    everything but the items buffer, the caches, the trace and the outside
    world. *)
Definition same_config {C X} : relation (Archive.World C X) :=
  λ w w', Archive.cwd w' = Archive.cwd w ∧ Archive.name w' = Archive.name w ∧
          Archive.id w' = Archive.id w ∧ Archive.metadata w' = Archive.metadata w ∧
          Archive.checkpoint_name w' = Archive.checkpoint_name w ∧
          Archive.checkpoint_interval w' = Archive.checkpoint_interval w ∧
          Archive.last_checkpoint w' = Archive.last_checkpoint w ∧
          Archive.numeric_owner w' = Archive.numeric_owner w ∧
          Archive.hard_links w' = Archive.hard_links w ∧
          Archive.archives w' = Archive.archives w.

(** ** Reading the run of [calc_stats] off its trace *)







(** ** What the checker promises for one file-chunk reference *)

(** The claim about [verify_file_chunks], for one reference [ref] handled in
    the state [s] and leaving the state [s'] with the triple [out]: a
    reference whose id is absent from the index is replaced by the zero chunk
    of the same size, which gains a reference and is put in the repository in
    repair mode when the index did not have it; a reference whose id is
    present is kept and gains a reference; no other entry changes. *)
Definition ref_verified `{Key} {X} (ref out : ChunkRef) (s s' : ArchiveChecker.t X) : Prop :=
  let '(chunk_id, size, csize) := ref in
  let index := ArchiveChecker.chunks s in
  let index' := ArchiveChecker.chunks s' in
  match index !! chunk_id with
  | None =>
      let zero := zeros size in
      let zero_id := id_hash zero in
      out = (zero_id, size, blen (encrypt zero)) ∧
      index' !! zero_id = Some (refcount index zero_id + 1, size, blen (encrypt zero)) ∧
      (∀ j, j ≠ zero_id → index' !! j = index !! j) ∧
      ArchiveChecker.trace s' = ArchiveChecker.trace s ++
        (if ArchiveChecker.repair s && bool_decide (index !! zero_id = None)
         then [ev_repository_put zero_id (encrypt zero)] else []) ∧
      ArchiveChecker.error_found s' = true
  | Some _ =>
      out = ref ∧
      index' !! chunk_id = Some (refcount index chunk_id + 1, size, csize) ∧
      (∀ j, j ≠ chunk_id → index' !! j = index !! j) ∧
      ArchiveChecker.trace s' = ArchiveChecker.trace s ∧
      ArchiveChecker.error_found s' = ArchiveChecker.error_found s
  end ∧ ArchiveChecker.repair s' = ArchiveChecker.repair s.

(** The same for a list of references handled one after the other. *)
Fixpoint refs_verified `{Key} {X} (refs outs : list ChunkRef) (s s' : ArchiveChecker.t X)
  : Prop :=
  match refs, outs with
  | [], [] => s' = s
  | ref :: refs', out :: outs' =>
      ∃ s1, ref_verified ref out s s1 ∧ refs_verified refs' outs' s1 s'
  | _, _ => False
  end.

(** ** Restore: the claims in their own words *)

(** A path the specification wants rejected on restore: it begins with a
    slash or one of its segments is [..]. *)
Definition unsafe_path (p : string) : bool :=
  startswith p "/" || bool_decide (".." ∈ segments p).

(** The system calls that apply an item's attributes. *)
Definition is_attr_syscall (sc : Syscall) : bool :=
  match sc with
  | sys_setxattr _ _ _ | sys_fchown _ _ _ | sys_lchown _ _ _ | sys_fchmod _ _
  | sys_chmod _ _ | sys_lchmod _ _ | sys_utime_fd _ _ | sys_utime_nofollow _ _
  | sys_utime _ _ => true
  | _ => false
  end.

(** The events of restoring a hard link. *)
Definition is_link_event (ev : Event) : Prop :=
  match ev with
  | ev_sys (sys_lstat _) | ev_sys (sys_rmdir _) | ev_sys (sys_unlink _)
  | ev_sys (sys_exists _) | ev_sys (sys_makedirs _) | ev_sys (sys_link _ _) => True
  | _ => False
  end.

(** ** Restore: where an OSError can come from *)

(** The system calls of [restore_attrs] whose failure with [en] is not
    handled: [setxattr] unless the error is ENOTSUP, and the calls that set
    the mode and the times. *)
Definition unhandled_attr_failure (sc : Syscall) (en : Errno) : Prop :=
  match sc with
  | sys_setxattr _ _ _ => en ≠ ENOTSUP
  | sys_fchmod _ _ | sys_chmod _ _ | sys_lchmod _ _
  | sys_utime_fd _ _ | sys_utime_nofollow _ _ | sys_utime _ _ => True
  | _ => False
  end.

(** When [m] ends in an OSError, the last call recorded in the trace is a
    system call that [origin] accepts for this error. *)
Definition blames {C X A} (origin : Syscall → Errno → Prop) (m : M (Archive.World C X) A)
  : Prop :=
  ∀ w en w', m w = (Raise (OSError en), w') →
    ∃ sc, last (Archive.trace w') = Some (ev_sys sc) ∧ origin sc en.

(** The chunk ids of an item, none without [chunks]. *)
Definition item_chunk_ids (item : Item) : list Id :=
  match i_chunks item with Some cs => cs.*1.*1 | None => [] end.

(** No one of the file types [extract_item] knows. *)
Definition unknown_type (mode : Z) : bool :=
  negb (S_ISDIR mode || S_ISREG mode || S_ISFIFO mode || S_ISLNK mode
        || S_ISCHR mode || S_ISBLK mode).

(** ** Deleting an archive: the calls it makes *)

(** The calls of the loop of [delete]: repository reads and releases of
    references on [self.cache]. *)
Definition is_release_event (ev : Event) : Prop :=
  match ev with
  | ev_repository_get false _ | ev_chunk_decref self_cache _ => True
  | _ => False
  end.

(** ** The checker without [--repair], and its error flag *)

(** In a checker that is not in repair mode, nothing was put in the
    repository, the outside world is as it was, and the checker is still
    not in repair mode. *)
Definition check_only {X} : relation (ArchiveChecker.t X) :=
  λ s s', ArchiveChecker.repair s = false →
          ArchiveChecker.trace s' = ArchiveChecker.trace s ∧
          ArchiveChecker.ext s' = ArchiveChecker.ext s ∧
          ArchiveChecker.repair s' = false.

(** An error found stays found. *)
Definition sticky_error {X} : relation (ArchiveChecker.t X) :=
  λ s s', ArchiveChecker.error_found s = true → ArchiveChecker.error_found s' = true.

(** ** Ingest: the table of hard links *)

(** The table of hard links is as it was. *)
Definition same_links {C X} : relation (Archive.World C X) :=
  λ w w', Archive.hard_links w' = Archive.hard_links w.

(** ** Attributes: what is recorded is what is restored *)

(** The calls that apply to a restored entry the attributes [attrs] that
    [stat_attrs] recorded from the stat result [st]: an extended attribute
    that was listed; the recorded owner and group, or the ids their recorded
    names map to on this host; the recorded mode; the recorded time. *)
Definition restores_stat {X} `{HostOps X} (st : Stat) (attrs : Item) (ev : Event) : Prop :=
  match ev with
  | ev_sys (sys_setxattr _ k v) => (k, v) ∈ default [] (i_xattrs attrs)
  | ev_sys (sys_fchown _ u g) | ev_sys (sys_lchown _ u g) =>
      (u = st_uid st ∨ user2uid (default None (i_user attrs)) = Some u) ∧
      (g = st_gid st ∨ group2gid (default None (i_group attrs)) = Some g)
  | ev_sys (sys_fchmod _ m) | ev_sys (sys_chmod _ m) | ev_sys (sys_lchmod _ m) =>
      m = st_mode st
  | ev_sys (sys_utime_fd _ t) | ev_sys (sys_utime_nofollow _ t) | ev_sys (sys_utime _ t) =>
      t = st_mtime_ns st
  | _ => False
  end.

(** The calls that clear and prepare the place of a restored entry. *)
Definition is_prepare_event (ev : Event) : Prop :=
  match ev with
  | ev_sys (sys_lstat _) | ev_sys (sys_rmdir _) | ev_sys (sys_unlink _)
  | ev_sys (sys_exists _) | ev_sys (sys_makedirs _) => True
  | _ => False
  end.

Definition is_attr_event (ev : Event) : Prop :=
  match ev with
  | ev_sys sc => is_attr_syscall sc = true
  | _ => False
  end.

(** One chunk of a restored file: it is read, then written. *)
Definition chunk_restored (fd : Z) (i : Id) (plain : bytes) : list Event :=
  [ev_repository_get true i; ev_sys (sys_write fd plain)].

(** ** An example with files *)

(** A wire format with files: [x82; c] is the item with the one-character
    path [c] and one chunk, of id [[c]], size 1 and csize 1; every other
    input decodes as in [Example.msgpack]. *)
Module FileExample.
Import Example.

Definition file_with_chunk (c : byte) : Item :=
  mkItem (Some (path_of_byte c)) None None (Some [([c], 1, 1)])
         None None None None None None None.

Definition unpack_file (b : bytes) : Unpacked :=
  match b with
  | [] => Incomplete
  | h :: rest =>
      if bool_decide (h = x82) then
        match rest with
        | [] => Incomplete
        | c :: rest' => Decoded (OItem (file_with_chunk c)) rest'
        end
      else toy_unpack_one b
  end.

Definition file_msgpack : Msgpack.
Proof.
  refine {| pack_item := toy_pack_item;
            pack_metadata := toy_pack_metadata;
            unpack_metadata := λ _, None;
            unpack_one := unpack_file |}.
  intros b o rest. unfold unpack_file. destruct b as [|h b]; [done|].
  case_bool_decide.
  - destruct b as [|c b]; [done|]. intros [= _ <-]. simpl. lia.
  - apply (unpack_one_progress (Msgpack := msgpack)).
Defined.




End FileExample.

(** ** What an archive references, and the item of a file *)









(** The checker rewrites the chunk list of an item and nothing else. *)
Definition same_but_chunks (item item' : Item) : Prop :=
  i_path item' = i_path item ∧ i_mode item' = i_mode item ∧
  i_source item' = i_source item ∧ i_rdev item' = i_rdev item ∧
  i_uid item' = i_uid item ∧ i_gid item' = i_gid item ∧
  i_user item' = i_user item ∧ i_group item' = i_group item ∧
  i_mtime item' = i_mtime item ∧ i_xattrs item' = i_xattrs item.

(** * Theorems *)

(** ** A small logic of state relations and traces *)

Section Steps.
Context {S : Type} (R : relation S) `{!Reflexive R} `{!Transitive R}.

Lemma steps_ret {A} (a : A) : steps R (ret a).
Proof. by intros s r s' [= <- <-]. Qed.

Lemma steps_raise {A} e : steps R (@raise S A e).
Proof. by intros s r s' [= <- <-]. Qed.

Lemma steps_gets {A} (f : S → A) : steps R (gets f).
Proof. by intros s r s' [= <- <-]. Qed.

Lemma steps_modify (f : S → S) : (∀ s, R s (f s)) → steps R (modify f).
Proof. intros Hf s r s' [= <- <-]. apply Hf. Qed.

Lemma steps_bind {A B} (m : M S A) (k : A → M S B) :
  steps R m → (∀ a, steps R (k a)) → steps R (bind m k).
Proof.
  intros Hm Hk s r s'. unfold bind.
  destruct (m s) as [[a|e] s1] eqn:E.
  - intros Hka. etrans; [exact (Hm _ _ _ E)|exact (Hk _ _ _ _ Hka)].
  - intros [= <- <-]. exact (Hm _ _ _ E).
Qed.

Lemma steps_for_each {A} (xs : list A) (body : A → M S unit) :
  (∀ x, steps R (body x)) → steps R (for_each xs body).
Proof.
  intros Hb. induction xs as [|x xs IH]; simpl.
  - apply steps_ret.
  - apply steps_bind; auto.
Qed.

Lemma steps_map_m {A B} (f : A → M S B) (xs : list A) :
  (∀ x, steps R (f x)) → steps R (map_m f xs).
Proof.
  intros Hf. induction xs as [|x xs IH]; simpl.
  - apply steps_ret.
  - apply steps_bind; [auto|]. intros y. apply steps_bind; [auto|].
    intros ys. apply steps_ret.
Qed.

Lemma steps_try_except {A} (m : M S A) h :
  steps R m → (∀ e k, h e = Some k → steps R k) → steps R (try_except m h).
Proof.
  intros Hm Hh s r s'. unfold try_except.
  destruct (m s) as [[a|e] s1] eqn:E.
  - intros [= <- <-]. exact (Hm _ _ _ E).
  - destruct (h e) as [k|] eqn:Hk.
    + intros Hks. etrans; [exact (Hm _ _ _ E)|exact (Hh _ _ Hk _ _ _ Hks)].
    + intros [= <- <-]. exact (Hm _ _ _ E).
Qed.

Lemma steps_finally {A} (m : M S A) cleanup :
  steps R m → steps R cleanup → steps R (finally m cleanup).
Proof.
  intros Hm Hc s r s'. unfold finally.
  destruct (m s) as [r1 s1] eqn:E.
  destruct (cleanup s1) as [[u|e] s2] eqn:E2; intros [= <- <-];
    (etrans; [exact (Hm _ _ _ E)|exact (Hc _ _ _ E2)]).
Qed.

Lemma steps_on_env {O A} (m : M S A) :
  steps R m → steps (@on_snd O S R) (on_env m).
Proof.
  intros Hm [o s] r [o' s']. unfold on_env, on_snd. simpl.
  destruct (m s) as [r1 s1] eqn:E. intros [= <- <- <-]. exact (Hm _ _ _ E).
Qed.

#[export] Instance on_snd_refl {O} : Reflexive (@on_snd O S R).
Proof. intros s. unfold on_snd. reflexivity. Qed.

#[export] Instance on_snd_trans {O} : Transitive (@on_snd O S R).
Proof. intros s1 s2 s3. unfold on_snd. apply transitivity. Qed.

End Steps.

#[export] Instance appends_refl {S} (tr : S → list Event) P : Reflexive (appends tr P).
Proof. intros s. exists []. by rewrite app_nil_r. Qed.

#[export] Instance appends_trans {S} (tr : S → list Event) P : Transitive (appends tr P).
Proof.
  intros s1 s2 s3 (t1 & E1 & F1) (t2 & E2 & F2). exists (t1 ++ t2).
  split; [by rewrite E2, E1, app_assoc|by apply Forall_app].
Qed.

Section Emits.
Context {S : Type} (tr : S → list Event) (P : Event → Prop).

Lemma emits_ret {A} (a : A) : emits tr P (ret a).
Proof. apply steps_ret, _. Qed.

Lemma emits_raise {A} e : emits tr P (@raise S A e).
Proof. apply steps_raise, _. Qed.

Lemma emits_gets {A} (f : S → A) : emits tr P (gets f).
Proof. apply steps_gets, _. Qed.

Lemma emits_modify (f : S → S) : (∀ s, tr (f s) = tr s) → emits tr P (modify f).
Proof. intros Hf. apply steps_modify. intros s. exists []. by rewrite Hf, app_nil_r. Qed.

Lemma emits_bind {A B} (m : M S A) (k : A → M S B) :
  emits tr P m → (∀ a, emits tr P (k a)) → emits tr P (bind m k).
Proof. apply steps_bind, _. Qed.

Lemma emits_for_each {A} (xs : list A) (body : A → M S unit) :
  (∀ x, emits tr P (body x)) → emits tr P (for_each xs body).
Proof. apply steps_for_each; apply _. Qed.

Lemma emits_map_m {A B} (f : A → M S B) (xs : list A) :
  (∀ x, emits tr P (f x)) → emits tr P (map_m f xs).
Proof. apply steps_map_m; apply _. Qed.

Lemma emits_try_except {A} (m : M S A) h :
  emits tr P m → (∀ e k, h e = Some k → emits tr P k) → emits tr P (try_except m h).
Proof. apply steps_try_except, _. Qed.

Lemma emits_finally {A} (m : M S A) cleanup :
  emits tr P m → emits tr P cleanup → emits tr P (finally m cleanup).
Proof. apply steps_finally, _. Qed.

Lemma emits_on_env {O A} (m : M S A) :
  emits tr P m → emits (λ s : O * S, tr s.2) P (on_env m).
Proof. intros Hm. exact (steps_on_env _ m Hm). Qed.

End Emits.

Lemma emits_weaken {S A} (tr : S → list Event) (P Q : Event → Prop) (m : M S A) :
  (∀ ev, P ev → Q ev) → emits tr P m → emits tr Q m.
Proof.
  intros HPQ Hm s r s' E. destruct (Hm _ _ _ E) as (t & Et & Ht).
  exists t. split; [done|]. eapply Forall_impl; eauto.
Qed.

Section ChunkBuffer_proofs.
Context `{Key} `{Chunker} {E : Type}.
Implicit Types (wr : bytes → M E Id) (cb : ChunkBuffer.t) (e : E).

Lemma for_each_write_chunks wr cs : ∀ cb e ids e',
  map_m wr cs e = (Ok ids, e') →
  for_each cs (λ chunk, do i <- on_env (wr chunk); ChunkBuffer.chunks_append i) (cb, e)
  = (Ok tt, ({| ChunkBuffer.buffer := ChunkBuffer.buffer cb;
                ChunkBuffer.chunks := ChunkBuffer.chunks cb ++ ids |}, e')).
Proof.
  induction cs as [|c cs IH]; intros cb e ids e' Hm; simpl in *.
  - unfold ret in Hm. injection Hm as <- <-. rewrite app_nil_r. by destruct cb.
  - unfold bind in Hm |- *. unfold on_env at 1. simpl.
    destruct (wr c e) as [[i|x] e1] eqn:Hw; [|done].
    destruct (map_m wr cs e1) as [[is'|x] e2] eqn:Hr; [|done].
    unfold ret in Hm. injection Hm as <- <-.
    unfold ChunkBuffer.chunks_append at 1, modify. simpl.
    rewrite (IH _ _ _ _ Hr). simpl. by rewrite <- app_assoc.
Qed.

Lemma slice_to_minus_one {A} (l : list A) : slice_to l (Some (-1)) = removelast l.
Proof.
  unfold slice_to. simpl.
  induction l as [|x l IH]; [done|].
  destruct l as [|y l]; [done|].
  replace (Z.to_nat (Z.of_nat (length (x :: y :: l)) + -1)) with (S (length l)) by (simpl; lia).
  replace (Z.to_nat (Z.of_nat (length (y :: l)) + -1)) with (length l) in IH by (simpl; lia).
  change (removelast (x :: y :: l)) with (x :: removelast (y :: l)).
  rewrite <- IH. reflexivity.
Qed.

(** C5. [flush(final)] does nothing on an empty buffer.  Otherwise the
    buffer is split by the chunker with (0xfff, 0xffff, 1024, chunk_seed);
    when [final] is false and more than one chunk comes out, all chunks but
    the last go to [write_chunk], their ids are appended to [self.chunks] in
    order, and the last chunk becomes the buffer; in every other case all
    chunks are written and the buffer is left empty.  The chunker is taken to
    return at least one chunk for a non-empty input, and the writes to
    succeed. *)
Theorem flush_spec wr (final : bool) cb e ids e' :
  let cs := chunkify (ChunkBuffer.buffer cb) 0xfff 0xffff 1024 chunk_seed in
  let keep := negb final && (1 <? Z.of_nat (length cs)) in
  (ChunkBuffer.buffer cb ≠ [] → cs ≠ []) →
  map_m wr (if keep then removelast cs else cs) e = (Ok ids, e') →
  ChunkBuffer.flush wr final (cb, e) =
    if decide (ChunkBuffer.buffer cb = []) then (Ok tt, (cb, e))
    else (Ok tt, ({| ChunkBuffer.buffer := if keep then default [] (last cs) else [];
                     ChunkBuffer.chunks := ChunkBuffer.chunks cb ++ ids |}, e')).
Proof.
  intros cs keep Hne Hw.
  unfold ChunkBuffer.flush, bind at 1, gets. simpl.
  destruct (decide (ChunkBuffer.buffer cb = [])) as [Hb|Hb].
  { rewrite Hb. reflexivity. }
  specialize (Hne Hb).
  assert ((blen (ChunkBuffer.buffer cb) =? 0) = false) as ->.
  { apply Z.eqb_neq. unfold blen. destruct (ChunkBuffer.buffer cb); [done|simpl; lia]. }
  change (chunkify (ChunkBuffer.buffer cb) WINDOW_SIZE CHUNK_MASK CHUNK_MIN chunk_seed) with cs.
  unfold bind at 1. unfold ChunkBuffer.buffer_truncate at 1, modify. simpl.
  unfold bind at 1.
  destruct final; simpl in keep; subst keep.
  - simpl. rewrite (for_each_write_chunks _ _ _ _ _ _ Hw). reflexivity.
  - simpl in Hw |- *.
    destruct (1 <? Z.of_nat (length cs)) eqn:Hlen.
    + assert ((Z.of_nat (length cs) =? 1) = false) as -> by lia.
      rewrite slice_to_minus_one.
      rewrite (for_each_write_chunks _ _ _ _ _ _ Hw).
      destruct (last cs) as [c|] eqn:Hl.
      * reflexivity.
      * apply last_None in Hl. done.
    + assert ((Z.of_nat (length cs) =? 1) = true) as ->.
      { apply Z.ltb_ge in Hlen.
        destruct cs as [|? [|? ?]]; [done|reflexivity|simpl length in Hlen; lia]. }
      simpl. rewrite (for_each_write_chunks _ _ _ _ _ _ Hw). reflexivity.
Qed.

Lemma steps_flush (R : relation E) `{!Reflexive R} `{!Transitive R} wr final :
  (∀ c, steps R (wr c)) → steps (on_snd R) (ChunkBuffer.flush wr final).
Proof.
  intros Hwr. unfold ChunkBuffer.flush.
  pose proof (λ f, steps_modify (@on_snd ChunkBuffer.t E R) f) as Hmod.
  apply steps_bind; [apply _|apply steps_gets, _|]. intros b.
  destruct (blen b =? 0); [apply steps_ret, _|].
  apply steps_bind; [apply _|apply Hmod; intros s; hnf; simpl; reflexivity|]. intros _.
  apply steps_bind; [apply _| |].
  - apply steps_for_each; [apply _..|]. intros c.
    apply steps_bind; [apply _|by apply steps_on_env|]. intros i.
    apply Hmod; intros s; hnf; simpl; reflexivity.
  - intros _. destruct (final || _); [apply steps_ret, _|].
    destruct (last _); [apply Hmod; intros s; hnf; simpl; reflexivity|apply steps_raise, _].
Qed.

Lemma steps_add (R : relation E) `{!Reflexive R} `{!Transitive R} wr packed :
  (∀ c, steps R (wr c)) → steps (on_snd R) (ChunkBuffer.add wr packed).
Proof.
  intros Hwr. unfold ChunkBuffer.add.
  apply steps_bind; [apply _| |].
  { apply steps_modify. intros s. hnf. simpl. reflexivity. }
  intros _. apply steps_bind; [apply _|apply steps_gets, _|]. intros full.
  destruct full; [by apply steps_flush|apply steps_ret, _].
Qed.

Lemma emits_flush (tr : E → list Event) (P : Event → Prop) wr final :
  (∀ c, emits tr P (wr c)) →
  emits (λ s : ChunkBuffer.t * E, tr s.2) P (ChunkBuffer.flush wr final).
Proof. intros Hwr. exact (steps_flush (appends tr P) wr final Hwr). Qed.

Lemma emits_add (tr : E → list Event) (P : Event → Prop) wr packed :
  (∀ c, emits tr P (wr c)) →
  emits (λ s : ChunkBuffer.t * E, tr s.2) P (ChunkBuffer.add wr packed).
Proof. intros Hwr. exact (steps_add (appends tr P) wr packed Hwr). Qed.

End ChunkBuffer_proofs.

(** ** The archive: what each method appends to the trace *)

Section Archive_traces.
Context {C X : Type}.
Context `{Key} `{Chunker} `{Msgpack}.
Context `{CacheOps C X} `{StoreOps X} `{HostOps X} `{OsOps X}.
Implicit Types (w : Archive.World C X) (P : Event → Prop).

Abbreviation tr := (@Archive.trace C X).

Lemma emits_log P ev : P ev → emits tr P (Archive.log ev).
Proof.
  intros HP w r w' [= <- <-]. exists [ev]. split; [done|]. by constructor.
Qed.

Lemma emits_on_ext P {A} (m : M X A) : emits tr P (Archive.on_ext m).
Proof.
  intros w r w'. unfold Archive.on_ext. destruct (m _) as [a x].
  intros [= <- <-]. exists []. by rewrite app_nil_r.
Qed.

Lemma emits_on_cache P {A} c (m : M C A) : emits tr P (Archive.on_cache c m).
Proof.
  intros w r w'. unfold Archive.on_cache. destruct (m _) as [a c'].
  intros [= <- <-]. exists []. rewrite app_nil_r. by destruct c.
Qed.

Lemma emits_on_cache_ext P {A} c (m : M (C * X) A) : emits tr P (Archive.on_cache_ext c m).
Proof.
  intros w r w'. unfold Archive.on_cache_ext. destruct (m _) as [a [c' x]].
  intros [= <- <-]. exists []. rewrite app_nil_r. by destruct c.
Qed.

Lemma emits_with_items_buffer P {A} (m : M (ChunkBuffer.t * Archive.World C X) A) :
  emits (λ s, tr s.2) P m → emits tr P (Archive.with_items_buffer m).
Proof.
  intros Hm w r w'. unfold Archive.with_items_buffer.
  destruct (m _) as [a [b w1]] eqn:E. intros [= <- <-].
  exact (Hm _ _ _ E).
Qed.

Lemma emits_sys P {A} sc (m : M X A) : P (ev_sys sc) → emits tr P (Archive.sys sc m).
Proof.
  intros HP. unfold Archive.sys.
  apply emits_bind; [by apply emits_log|]. intros _. apply emits_on_ext.
Qed.

(** [m] can be put in front of an ordered computation when it performs no
    persistence step itself. *)
Lemma commits_in_order_bind {S A B} (tr : S → list Event) c (m : M S A) (k : A → M S B) :
  emits tr (λ ev, is_persist ev = false) m →
  (∀ a, commits_in_order tr c (k a)) →
  commits_in_order tr c (bind m k).
Proof.
  intros Hm Hk s. unfold bind.
  destruct (m s) as [[a|e] s1] eqn:E.
  - specialize (Hk a s1). destruct (k a s1) as [r s'].
    destruct Hk as (t2 & E2 & Hp & Hok).
    destruct (Hm _ _ _ E) as (t1 & E1 & Hf1).
    assert (List.filter is_persist t1 = []) as Hnil.
    { clear -Hf1. induction Hf1 as [|ev t Hev _ IH]; [done|]. simpl. by rewrite Hev. }
    exists (t1 ++ t2). rewrite List.filter_app, Hnil. simpl.
    split; [by rewrite E2, E1, app_assoc|done].
  - destruct (Hm _ _ _ E) as (t1 & E1 & Hf1).
    assert (List.filter is_persist t1 = []) as Hnil.
    { clear -Hf1. induction Hf1 as [|ev t Hev _ IH]; [done|]. simpl. by rewrite Hev. }
    exists t1. rewrite Hnil. split; [done|]. split; [apply prefix_nil|done].
Qed.

Lemma commits_in_order_raise {S A} (tr : S → list Event) c e :
  commits_in_order tr c (@raise S A e).
Proof.
  intros s. simpl. exists []. rewrite app_nil_r. split; [done|].
  split; [apply prefix_nil|done].
Qed.

(** The common tail of [save] and [delete]. *)
Lemma commits_in_order_tail c :
  commits_in_order tr c
    (Archive.log ev_manifest_write ;;
     do a <- gets Archive.archives;
     Archive.on_ext (manifest_write a) ;;
     Archive.log ev_repository_commit ;;
     Archive.on_ext repository_commit ;;
     Archive.log (ev_cache_commit c) ;;
     Archive.on_cache c cache_commit).
Proof.
  intros w. unfold bind, Archive.log, modify, gets, Archive.on_ext, Archive.on_cache. simpl.
  destruct (manifest_write _ _) as [[[]|e1] x1]; simpl.
  2:{ exists [ev_manifest_write]. split; [done|]. split; [|done].
      by exists [ev_repository_commit; ev_cache_commit c]. }
  destruct (repository_commit x1) as [[[]|e2] x2]; simpl.
  2:{ exists [ev_manifest_write; ev_repository_commit].
      split; [by rewrite <- app_assoc|]. split; [|done].
      by exists [ev_cache_commit c]. }
  destruct c; simpl;
    destruct (cache_commit _) as [[[]|e3] c3]; simpl;
    (eexists [ev_manifest_write; ev_repository_commit; ev_cache_commit _];
     split; [by rewrite <- !app_assoc|]; split; done).
Qed.

#[export] Instance same_config_refl : Reflexive (@same_config C X).
Proof. intros w. by repeat split. Qed.

#[export] Instance same_config_trans : Transitive (@same_config C X).
Proof.
  intros w1 w2 w3 (?&?&?&?&?&?&?&?&?&?) (?&?&?&?&?&?&?&?&?&?).
  repeat split; congruence.
Qed.

Lemma frame_write_chunk chunk : steps same_config (Archive.write_chunk chunk).
Proof.
  intros w r w'. unfold Archive.write_chunk, bind, Archive.log, modify, Archive.on_cache_ext.
  simpl. destruct (add_chunk _ _ _) as [[[[i sz] cs]|e] [c x]]; intros [= <- <-];
    by repeat split.
Qed.

Lemma frame_with_items_buffer {A} (m : M (ChunkBuffer.t * Archive.World C X) A) :
  steps (on_snd same_config) m → steps same_config (Archive.with_items_buffer m).
Proof.
  intros Hm w r w'. unfold Archive.with_items_buffer.
  destruct (m _) as [a [b w1]] eqn:E. intros [= <- <-].
  exact (Hm _ _ _ E).
Qed.

Lemma emits_only_OSError P {A} (k : M (Archive.World C X) A) :
  emits tr P k → ∀ e k', Archive.only_OSError k e = Some k' → emits tr P k'.
Proof. intros Hk e k'. destruct e; simpl; intros [= <-] || discriminate. done. Qed.

Lemma emits_only_ENOTSUP P {A} (k : M (Archive.World C X) A) :
  emits tr P k → ∀ e k', Archive.only_ENOTSUP k e = Some k' → emits tr P k'.
Proof.
  intros Hk e k'. destruct e as [| | | | | |en| | | | | | |]; simpl; try discriminate.
  destruct en; intros [= <-] || discriminate. done.
Qed.

End Archive_traces.

Create HintDb archive_defs.
#[global] Hint Unfold Archive.write_chunk Archive.get_id Archive.get_metadata
  Archive.key_decrypt Archive.get_one Archive.del_archive Archive.decref
  Archive.delete_items obj_chunks Archive.make_parent Archive.unlink_if_exists
  Archive.remove_existing Archive.fetch_many Archive.incref_all Archive.add_chunks
  Archive.chunkify_file Archive.stat_attrs Archive.add Archive.lookup_memo
  Archive.read_and_memorize Archive.add_file_item : archive_defs.

(** Decompose a goal [emits tr P m] along the structure of [m]. *)
Ltac emits_step :=
  match goal with
  | |- emits _ _ (bind _ _) => apply emits_bind; [|intros ?]
  | |- emits _ _ (ret _) => apply emits_ret
  | |- emits _ _ (raise _) => apply emits_raise
  | |- emits _ _ (gets _) => apply emits_gets
  | |- emits _ _ (modify _) => apply emits_modify; done
  | |- emits _ _ (getitem ?f) => destruct f; [apply emits_ret|apply emits_raise]
  | |- emits _ _ (for_each _ _) => apply emits_for_each; intros ?
  | |- emits _ _ (map_m _ _) => apply emits_map_m; intros ?
  | |- emits _ _ (finally _ _) => apply emits_finally
  | |- emits _ _ (try_except _ (Archive.only_OSError _)) =>
      apply emits_try_except; [|apply emits_only_OSError]
  | |- emits _ _ (try_except _ (Archive.only_ENOTSUP _)) =>
      apply emits_try_except; [|apply emits_only_ENOTSUP]
  | |- emits _ _ (Archive.log _) => apply emits_log
  | |- emits _ _ (Archive.on_ext _) => apply emits_on_ext
  | |- emits _ _ (Archive.on_cache _ _) => apply emits_on_cache
  | |- emits _ _ (Archive.on_cache_ext _ _) => apply emits_on_cache_ext
  | |- emits _ _ (Archive.sys _ _) => apply emits_sys
  | |- emits _ _ (Archive.with_items_buffer _) => apply emits_with_items_buffer
  | |- emits _ _ (ChunkBuffer.flush _ _) => apply emits_flush; intros ?
  | |- emits _ _ (ChunkBuffer.add _ _) => apply emits_add; intros ?
  | |- emits _ _ (match ?x with _ => _ end) => destruct x
  | |- emits _ _ _ => progress autounfold with archive_defs
  end.

Ltac emits_auto := repeat emits_step; try done.

Section Archive_order.
Context {C X : Type}.
Context `{Key} `{Chunker} `{Msgpack}.
Context `{CacheOps C X} `{StoreOps X} `{HostOps X} `{OsOps X}.

Lemma emits_delete_loop (P : Event → Prop) ids :
  (∀ b i, P (ev_repository_get b i)) → (∀ c i, P (ev_chunk_decref c i)) →
  ∀ u, emits (@Archive.trace C X) P (Archive.delete_loop ids u).
Proof.
  intros Hget Hdec. induction ids as [|i ids IH]; intros u; simpl.
  - apply emits_ret.
  - emits_auto; try apply IH.
Qed.

(** C4. In both [save] and [delete] the persistence steps happen in the
    order manifest.write(), repository.commit(), cache.commit(): on every
    run, also one that ends in an exception, the steps performed are a
    prefix of that sequence, and a run that returns has performed all
    three. *)
Theorem save_delete_commit_order (name_arg : option string) (cache : CacheRef) :
  commits_in_order (@Archive.trace C X) self_cache (Archive.save name_arg) ∧
  commits_in_order (@Archive.trace C X) cache (Archive.delete cache).
Proof.
  split.
  - unfold Archive.save.
    apply commits_in_order_bind; [emits_auto|intros self_name].
    apply commits_in_order_bind; [emits_auto|intros a].
    destruct (decide _); [apply commits_in_order_raise|].
    repeat (apply commits_in_order_bind; [solve [emits_auto]|intros ?]).
    apply commits_in_order_tail.
  - unfold Archive.delete.
    apply commits_in_order_bind; [emits_auto|intros m].
    apply commits_in_order_bind; [by apply emits_delete_loop|intros _].
    repeat (apply commits_in_order_bind; [solve [emits_auto]|intros ?]).
    apply commits_in_order_tail.
Qed.

End Archive_order.

(** ** Checkpoints *)

Section Archive_checkpoint.
Context {C X : Type}.
Context `{Key} `{Chunker} `{Msgpack}.
Context `{CacheOps C X} `{StoreOps X} `{HostOps X} `{OsOps X}.
Context `{!CacheLaws C X}.

(** What a successful [write_checkpoint] has done, relative to the state
    [w1] in which [save] has flushed the items buffer. *)
Lemma write_checkpoint_spec (w w' : Archive.World C X) :
  Archive.checkpoint_name w ≠ "" →
  Archive.write_checkpoint w = (Ok tt, w') →
  ∃ w1 time,
    Archive.with_items_buffer (ChunkBuffer.flush Archive.write_chunk true) w = (Ok tt, w1) ∧
    let data := pack_metadata
      (mkMetadata 1 (Archive.checkpoint_name w) (ChunkBuffer.chunks (Archive.items_buffer w1))
         sys_argv gethostname getuser time) in
    Archive.id w' = Some (id_hash data) ∧
    Archive.trace w' = Archive.trace w1 ++
      [ev_add_chunk self_cache (id_hash data) data; ev_manifest_write;
       ev_repository_commit; ev_cache_commit self_cache;
       ev_chunk_decref self_cache (id_hash data)] ∧
    Archive.archives w' !! Archive.checkpoint_name w = None ∧
    refcount (cache_chunks (Archive.cache w')) (id_hash data) =
      refcount (cache_chunks (Archive.cache w1)) (id_hash data) ∧
    Archive.last_checkpoint w' = Archive.last_checkpoint w.
Proof.
  intros Hcn Hrun.
  unfold Archive.write_checkpoint, Archive.save in Hrun.
  unfold bind at 1, gets at 1 in Hrun. simpl in Hrun.
  unfold bind at 1 in Hrun. unfold bind at 1, gets at 1 in Hrun.
  destruct (decide (Archive.checkpoint_name w = "")) as [|_]; [done|].
  unfold bind at 1, gets at 1 in Hrun.
  destruct (decide (is_Some (Archive.archives w !! Archive.checkpoint_name w))) as [|Hfree].
  { simpl in Hrun. discriminate. }
  unfold bind at 1 in Hrun.
  destruct (Archive.with_items_buffer _ w) as [[[]|e] w1] eqn:Hflush; [|discriminate].
  assert (same_config w w1) as (_&_&_&_&Ecn&_&Elc&_&_&Earch).
  { eapply frame_with_items_buffer; [|exact Hflush].
    apply steps_flush; [apply _..|]. apply frame_write_chunk. }
  unfold Archive.del_archive, Archive.get_id, Archive.log, Archive.on_ext,
    Archive.on_cache_ext, Archive.on_cache, bind, gets, modify in Hrun.
  simpl in Hrun.
  destruct (utcnow_isoformat (Archive.ext w1)) as [[time|e] x2] eqn:Htime; [|discriminate].
  simpl in Hrun.
  set (data := pack_metadata _) in *.
  destruct (add_chunk _ _ _) as [[ref|e] [c3 x3]] eqn:Hadd; [|discriminate].
  simpl in Hrun.
  destruct (manifest_write _ _) as [[[]|e] x4] eqn:Hmw; [|discriminate].
  simpl in Hrun.
  destruct (repository_commit _) as [[[]|e] x5] eqn:Hrc; [|discriminate].
  simpl in Hrun.
  destruct (cache_commit _) as [[[]|e] c6] eqn:Hcc; [|discriminate].
  simpl in Hrun. rewrite Ecn in Hrun. rewrite lookup_insert_eq in Hrun.
  simpl in Hrun.
  destruct (chunk_decref _ _) as [[[]|e] [c7 x7]] eqn:Hdec; [|discriminate].
  injection Hrun as <-. simpl.
  exists w1, time. split; [done|]. fold data.
  split; [done|]. split; [by rewrite <- !app_assoc|].
  split; [by rewrite lookup_delete_eq|].
  split; [|done].
  rewrite (chunk_decref_decrements _ _ _ _ _ _ Hdec).
  rewrite (commit_keeps_chunks _ _ _ Hcc).
  rewrite (add_chunk_increments _ _ _ _ _ _ _ Hadd). lia.
Qed.

(** C3. When [add_item] triggers a checkpoint ([now - last_checkpoint >
    checkpoint_interval]) and returns, [write_checkpoint] has saved the
    archive under the checkpoint name (the metadata block [data] carries that
    name, its id [id_hash data] went to [cache.add_chunk], then manifest,
    repository and cache were committed), has removed the checkpoint entry
    from [manifest.archives], and its final [cache.chunk_decref] is on
    [self.id], which is the id of that checkpoint block: the reference count
    of the block is back to what it was before the block was added.  [w1] is
    the state in which [save] has flushed the items buffer. *)
Theorem add_item_checkpoint (item : Item) (w w0 w' : Archive.World C X) (now : Z) (x0 : X) :
  Archive.with_items_buffer (ChunkBuffer.add Archive.write_chunk (pack_item item)) w
    = (Ok tt, w0) →
  time_time (Archive.ext w0) = (Ok now, x0) →
  Archive.checkpoint_interval w < now - Archive.last_checkpoint w →
  Archive.checkpoint_name w ≠ "" →
  Archive.add_item item w = (Ok tt, w') →
  ∃ w1 time,
    Archive.with_items_buffer (ChunkBuffer.flush Archive.write_chunk true)
      (Archive.set_last_checkpoint now (Archive.set_ext x0 w0)) = (Ok tt, w1) ∧
    let data := pack_metadata
      (mkMetadata 1 (Archive.checkpoint_name w) (ChunkBuffer.chunks (Archive.items_buffer w1))
         sys_argv gethostname getuser time) in
    Archive.id w' = Some (id_hash data) ∧
    Archive.trace w' = Archive.trace w1 ++
      [ev_add_chunk self_cache (id_hash data) data; ev_manifest_write;
       ev_repository_commit; ev_cache_commit self_cache;
       ev_chunk_decref self_cache (id_hash data)] ∧
    Archive.archives w' !! Archive.checkpoint_name w = None ∧
    refcount (cache_chunks (Archive.cache w')) (id_hash data) =
      refcount (cache_chunks (Archive.cache w1)) (id_hash data) ∧
    Archive.last_checkpoint w' = now.
Proof.
  intros Hadd Htime Hdue Hcn Hrun.
  assert (same_config w w0) as (_&_&_&_&Ecn&Eint&Elast&_&_&_).
  { eapply frame_with_items_buffer; [|exact Hadd].
    apply steps_add; [apply _..|]. apply frame_write_chunk. }
  unfold Archive.add_item in Hrun.
  unfold bind at 1 in Hrun. rewrite Hadd in Hrun.
  unfold bind at 1, Archive.on_ext at 1 in Hrun. rewrite Htime in Hrun.
  unfold bind at 1, gets at 1 in Hrun. unfold bind at 1, gets at 1 in Hrun.
  simpl in Hrun. rewrite Eint, Elast in Hrun.
  assert ((Archive.checkpoint_interval w <? now - Archive.last_checkpoint w) = true) as Hlt
    by lia.
  rewrite Hlt in Hrun.
  unfold bind at 1, modify at 1 in Hrun.
  apply write_checkpoint_spec in Hrun; [|simpl; congruence].
  simpl in Hrun. rewrite Ecn in Hrun. exact Hrun.
Qed.

End Archive_checkpoint.

(** ** Statistics *)





Section Archive_stats_ids.
Context {C X : Type}.
Context `{Key} `{Chunker} `{Msgpack}.
Context `{CacheOps C X} `{StoreOps X} `{HostOps X} `{OsOps X}.
Implicit Types (w : Archive.World C X).









End Archive_stats_ids.

Section Archive_stats.
Context {C X : Type}.
Context `{Key} `{Chunker} `{Msgpack}.
Context `{CacheOps C X} `{StoreOps X} `{HostOps X} `{OsOps X}.
Context `{!CacheLaws C X}.
Implicit Types (w : Archive.World C X).







Lemma emits_add_file_chunks (P : Event → Prop) cs :
  (∀ i e, P (ev_chunks_setitem i e)) →
  ∀ stats, emits (@Archive.trace C X) P (Archive.add_file_chunks cs stats).
Proof.
  intros HP. induction cs as [|[[i sz] csz] cs IH]; intros stats; simpl.
  - apply emits_ret.
  - unfold Archive.add. emits_auto; try apply IH.
Qed.

Lemma emits_calc_stats_items (P : Event → Prop) objs :
  (∀ i e, P (ev_chunks_setitem i e)) →
  ∀ stats, emits (@Archive.trace C X) P (Archive.calc_stats_items objs stats).
Proof.
  intros HP. induction objs as [|o objs IH]; intros stats; simpl.
  - apply emits_ret.
  - emits_auto; try apply IH. by apply emits_add_file_chunks.
Qed.

Lemma emits_calc_stats_loop (P : Event → Prop) ids :
  (∀ i e, P (ev_chunks_setitem i e)) → (∀ b i, P (ev_repository_get b i)) →
  ∀ u stats, emits (@Archive.trace C X) P (Archive.calc_stats_loop ids u stats).
Proof.
  intros HP HG. induction ids as [|i ids IH]; intros u stats; simpl.
  - apply emits_ret.
  - unfold Archive.add. emits_auto; try apply IH. by apply emits_calc_stats_items.
Qed.


End Archive_stats.

(** ** Ingest of a regular file *)

Section Archive_process_file.
Context {C X : Type}.
Context `{Key} `{Chunker} `{Msgpack}.
Context `{CacheOps C X} `{StoreOps X} `{HostOps X} `{OsOps X}.
Implicit Types (w : Archive.World C X).



Lemma all_seen_false_trace cache ids : ∀ w w',
  Archive.all_seen cache ids w = (Ok false, w') →
  ∃ n, Archive.trace w' = Archive.trace w ++ map (ev_seen_chunk cache) (take (S n) ids) ∧
       (n < length ids)%nat.
Proof.
  induction ids as [|i ids IH]; intros w w'; simpl.
  - discriminate.
  - unfold bind at 1, Archive.log at 1, modify at 1.
    unfold bind at 1, Archive.on_cache at 1.
    destruct (seen_chunk i _) as [[b|e] c1]; [|discriminate].
    destruct b.
    + intros Hr. apply IH in Hr. destruct Hr as (n & Hr & Hn). exists (S n).
      rewrite Hr. split; [|lia]. destruct cache; simpl; by rewrite <- app_assoc.
    + intros [= <-]. exists O. split; [|lia]. rewrite take_0. by destruct cache.
Qed.






End Archive_process_file.

(** ** The checker: file chunks *)

Section Checker_file_chunks.
Context {X : Type}.
Context `{Key} `{Chunker} `{Msgpack} `{StoreOps X}.
Implicit Types (s : ArchiveChecker.t X).

Hypothesis put_returns : ∀ i cdata x, ∃ x', repository_put i cdata x = (Ok tt, x').

Lemma verify_ref_spec p offset ref s :
  0 ≤ ref.1.2 →
  ∃ out s', ArchiveChecker.verify_ref (Some p) offset ref s = (Ok out, s') ∧
            ref_verified ref out s s' ∧ out.1.2 = ref.1.2.
Proof.
  destruct ref as [[chunk_id size] csize]. simpl. intros Hsize.
  unfold ArchiveChecker.verify_ref, ref_verified.
  unfold bind at 1, gets at 1.
  destruct (ArchiveChecker.chunks s !! chunk_id) as [[[n sz] cs]|] eqn:Hi.
  - unfold ArchiveChecker.add_reference, bind, gets, modify, ret. simpl. rewrite Hi. simpl.
    eexists _, _. split; [reflexivity|]. simpl. split; [|done]. split; [|done].
    split; [done|]. rewrite lookup_insert_eq. unfold refcount. rewrite Hi.
    split; [done|]. split; [|done]. intros j Hj. by rewrite lookup_insert_ne.
  - assert ((size <? 0) = false) as Hneg by lia.
    unfold ArchiveChecker.report_progress, ArchiveChecker.add_reference,
      ArchiveChecker.log, ArchiveChecker.on_ext, getitem, bind, gets, modify, ret.
    simpl. rewrite Hneg. simpl.
    set (zid := id_hash (zeros size)).
    destruct (ArchiveChecker.chunks s !! zid) as [[[n sz] cs]|] eqn:Hz; simpl.
    + eexists _, _. split; [reflexivity|]. simpl. split; [|done]. split; [|done].
      split; [done|]. rewrite lookup_insert_eq. unfold refcount. rewrite Hz.
      split; [done|]. split; [intros j Hj; by rewrite lookup_insert_ne|].
      rewrite andb_false_r. by rewrite app_nil_r.
    + destruct (ArchiveChecker.repair s) eqn:Hr; simpl.
      * destruct (put_returns zid (encrypt (zeros size)) (ArchiveChecker.ext s)) as [x' ->].
        eexists _, _. split; [reflexivity|]. simpl. split; [|done]. split; [|done].
        split; [done|]. rewrite lookup_insert_eq. unfold refcount. rewrite Hz.
        split; [done|]. split; [intros j Hj; by rewrite lookup_insert_ne|]. done.
      * eexists _, _. split; [reflexivity|]. simpl. split; [|done]. split; [|done].
        split; [done|]. rewrite lookup_insert_eq. unfold refcount. rewrite Hz.
        split; [done|]. split; [intros j Hj; by rewrite lookup_insert_ne|].
        by rewrite app_nil_r.
Qed.

Lemma verify_chunk_refs_spec p refs : ∀ offset acc s,
  Forall (λ r : ChunkRef, 0 ≤ r.1.2) refs →
  ∃ outs s', ArchiveChecker.verify_chunk_refs (Some p) refs offset acc s
               = (Ok (acc ++ outs), s') ∧
             refs_verified refs outs s s' ∧ outs.*1.*2 = refs.*1.*2.
Proof.
  induction refs as [|ref refs IH]; intros offset acc s Hsz; simpl.
  - exists [], s. by rewrite app_nil_r.
  - apply Forall_cons in Hsz as [Hr Hsz].
    destruct (verify_ref_spec p offset ref s Hr) as (out & s1 & E1 & V1 & S1).
    destruct (IH (offset + ref.1.2) (acc ++ [out]) s1 Hsz) as (outs & s' & E & V & S).
    exists (out :: outs), s'. unfold bind. rewrite E1, E.
    split; [by rewrite <- app_assoc|]. split; [by exists s1|].
    rewrite !fmap_cons. by rewrite S1, S.
Qed.

(** C7. [verify_file_chunks] on an item with a path and a list of chunk
    references with non-negative sizes, when [repository.put] does not fail:
    the chunk list of the item is replaced, and nothing else of the item,
    by a list of the same length and the same sizes in the same order;
    reference by reference, an id absent from the index is replaced by
    [(id_hash(zeros), size, len(encrypt(zeros)))] for [size] zero bytes,
    that zero chunk gains a reference and is put in the repository in repair
    mode only when its id was not in the index; a reference whose id is
    present keeps its triple and its count goes up by one. *)
Theorem verify_file_chunks_spec (item : Item) (p : string) (refs : list ChunkRef) s :
  i_path item = Some p →
  i_chunks item = Some refs →
  Forall (λ r : ChunkRef, 0 ≤ r.1.2) refs →
  ∃ item' outs s',
    ArchiveChecker.verify_file_chunks item s = (Ok item', s') ∧
    i_chunks item' = Some outs ∧
    same_but_chunks item item' ∧
    refs_verified refs outs s s' ∧
    length outs = length refs ∧
    outs.*1.*2 = refs.*1.*2.
Proof.
  intros Hp Hc Hsz. unfold ArchiveChecker.verify_file_chunks. rewrite Hc, Hp.
  destruct (verify_chunk_refs_spec p refs 0 [] s Hsz) as (outs & s' & E & V & S).
  exists (set_chunks_of_item outs item), outs, s'.
  unfold bind, getitem, ret. simpl. rewrite E.
  split; [done|]. split; [done|]. split; [by repeat split|]. split; [done|].
  split; [|done]. apply (f_equal length) in S. by rewrite !length_fmap in S.
Qed.

End Checker_file_chunks.

(** ** Restore *)

Section Archive_extract.
Context {C X : Type}.
Context `{Key} `{Chunker} `{Msgpack}.
Context `{CacheOps C X} `{StoreOps X} `{HostOps X} `{OsOps X}.
Implicit Types (w : Archive.World C X).


Lemma bind_ext {S A B} (m : M S A) (k k' : A → M S B) s :
  (∀ a s', k a s' = k' a s') → bind m k s = bind m k' s.
Proof. intros Hk. unfold bind. destruct (m s) as [[a|e] s']; [apply Hk|done]. Qed.

Lemma materialize_hardlink (item : Item) (isource : string) (mode : Z) b dest path w :
  i_mode item = Some mode → S_ISREG mode = true → i_source item = Some isource →
  Archive.materialize dest path item b w =
  (Archive.make_parent path ;;
   Archive.unlink_if_exists path ;;
   Archive.sys (sys_link (os_path_join dest isource) path)
     (os_link (os_path_join dest isource) path)) w.
Proof.
  intros Hm Hreg Hs.
  assert (S_ISDIR mode = false) as Hdir.
  { unfold S_ISREG, S_ISDIR in *. lia. }
  unfold Archive.materialize. rewrite Hm, Hs. unfold getitem.
  unfold bind at 1, ret at 1. by rewrite Hdir, Hreg.
Qed.

(** C10. Restoring a hard link (regular-file mode, [source] present, path
    accepted): [extract_item] is the removal of an existing entry, the
    creation of the parent directory when it is missing, the unlink of the
    path if it exists and [os.link(cwd/source, path)], whatever
    [restore_attrs] is; the only events are lstat, rmdir, unlink, exists,
    makedirs and link, so no system call applying mode, ownership, mtime or
    xattrs is made. *)
Theorem extract_hardlink (item : Item) (ipath isource : string) (mode : Z)
    (restore_attrs_ : bool) :
  i_path item = Some ipath →
  startswith ipath "/" || startswith ipath ".." = false →
  i_mode item = Some mode →
  S_ISREG mode = true →
  i_source item = Some isource →
  (∀ w, let path := os_path_join (Archive.cwd w) ipath in
        Archive.extract_item item restore_attrs_ false w =
        (Archive.remove_existing path ;;
         Archive.make_parent path ;;
         Archive.unlink_if_exists path ;;
         Archive.sys (sys_link (os_path_join (Archive.cwd w) isource) path)
           (os_link (os_path_join (Archive.cwd w) isource) path)) w) ∧
  emits (@Archive.trace C X)
    (λ ev, is_link_event ev ∧ ∀ sc, ev = ev_sys sc → is_attr_syscall sc = false)
    (Archive.extract_item item restore_attrs_ false).
Proof.
  intros Hp Hsafe Hm Hreg Hs.
  assert (∀ w, Archive.extract_item item restore_attrs_ false w =
        (Archive.remove_existing (os_path_join (Archive.cwd w) ipath) ;;
         Archive.make_parent (os_path_join (Archive.cwd w) ipath) ;;
         Archive.unlink_if_exists (os_path_join (Archive.cwd w) ipath) ;;
         Archive.sys (sys_link (os_path_join (Archive.cwd w) isource)
                        (os_path_join (Archive.cwd w) ipath))
           (os_link (os_path_join (Archive.cwd w) isource)
                        (os_path_join (Archive.cwd w) ipath))) w) as Heq.
  { intros w. unfold Archive.extract_item.
    rewrite Hp. unfold getitem.
    unfold bind at 1, gets at 1. unfold bind at 1, ret at 1. rewrite Hsafe.
    apply bind_ext. intros _ w1. by eapply materialize_hardlink. }
  split; [exact Heq|].
  - assert (∀ sc, is_link_event (ev_sys sc) → is_attr_syscall sc = false →
              (λ ev, is_link_event ev ∧ ∀ sc, ev = ev_sys sc → is_attr_syscall sc = false)
                (ev_sys sc)) as Hev.
    { intros sc ? ?. split; [done|]. by intros ? [= <-]. }
    intros w r w' Hrun. rewrite Heq in Hrun. revert Hrun.
    generalize (os_path_join (Archive.cwd w) isource), (os_path_join (Archive.cwd w) ipath).
    intros source path. revert w r w'.
    change (emits (@Archive.trace C X)
      (λ ev, is_link_event ev ∧ ∀ sc, ev = ev_sys sc → is_attr_syscall sc = false)
      (Archive.remove_existing path ;;
       Archive.make_parent path ;;
       Archive.unlink_if_exists path ;;
       Archive.sys (sys_link source path) (os_link source path))).
    emits_auto; try (by apply Hev).
Qed.

End Archive_extract.

(** ** The checker: the robust iterator *)

Section Checker_iterator.
Context {X : Type}.
Context `{Key} `{Chunker} `{Msgpack} `{StoreOps X}.
Implicit Types (s : ArchiveChecker.t X) (index : gmap Id (Z * Z * Z)).

Lemma detector_present index v :
  is_Some (index !! v) → ArchiveChecker.missing_chunk_detector index 0 v = 0.
Proof.
  intros [e He]. unfold ArchiveChecker.missing_chunk_detector.
  rewrite He. simpl. reflexivity.
Qed.

Lemma detector_missing index v :
  index !! v = None → ArchiveChecker.missing_chunk_detector index 0 v = 1.
Proof.
  intros He. unfold ArchiveChecker.missing_chunk_detector.
  rewrite He. simpl. reflexivity.
Qed.

Lemma grouper_valid_run index pre m post :
  Forall (λ v, is_Some (index !! v)) pre → index !! m = None →
  ArchiveChecker.grouper index 0 0 (pre ++ m :: post) = (pre, 1, Some (1, m), post).
Proof.
  intros Hpre Hm. induction Hpre as [|v pre Hv _ IH]; simpl.
  - by rewrite detector_missing.
  - rewrite detector_present by done. simpl. by rewrite IH.
Qed.

Lemma robust_loop_stops_at_gap fuel index pre m post ys s :
  ArchiveChecker.chunks s = index →
  Forall (λ v, is_Some (index !! v)) pre → index !! m = None →
  ArchiveChecker.robust_loop (S (S fuel)) 0 None [] None (pre ++ m :: post) (ys, s) =
  match pre with
  | [] => on_env (ArchiveChecker.report_progress ArchiveChecker.metadata_damage true) (ys, s)
  | v :: pre' =>
      (ArchiveChecker.feed_group 1 O (v :: pre') [] ;;
       on_env (ArchiveChecker.report_progress ArchiveChecker.metadata_damage true)) (ys, s)
  end.
Proof.
  intros Hidx Hpre Hm. destruct pre as [|v pre'].
  - simpl. unfold bind at 1, gets at 1. simpl. rewrite Hidx.
    rewrite detector_missing by done. reflexivity.
  - apply Forall_cons in Hpre as [Hv Hpre].
    cbn [ArchiveChecker.robust_loop app]. unfold bind at 1, gets at 1. cbn [snd].
    rewrite Hidx. rewrite detector_present by done.
    cbn -[ArchiveChecker.feed_group ArchiveChecker.grouper ArchiveChecker.robust_loop].
    rewrite grouper_valid_run by done.
    apply bind_ext. intros u [ys' s']. reflexivity.
Qed.

(** X16. Whatever follows the first missing chunk of the item stream has no
    influence on what the robust iterator does: the iteration ends at the
    first damaged run. *)
Lemma robust_iterator_ignores_rest pre m post ys s :
  Forall (λ v, is_Some (ArchiveChecker.chunks s !! v)) pre →
  ArchiveChecker.chunks s !! m = None →
  ArchiveChecker.robust_iterator (pre ++ m :: post) (ys, s) =
  ArchiveChecker.robust_iterator (pre ++ [m]) (ys, s).
Proof.
  intros Hpre Hm. unfold ArchiveChecker.robust_iterator.
  rewrite !length_app. simpl length.
  replace (S (length pre + S (length post)))%nat with (S (S (length pre + length post)))
    by lia.
  replace (S (length pre + 1))%nat with (S (S (length pre))) by lia.
  by rewrite !(robust_loop_stops_at_gap _ (ArchiveChecker.chunks s)).
Qed.
End Checker_iterator.

(** ** The code, run on the example world *)

Section Runs.
Import Example.
#[local] Existing Instances key chunker msgpack cache_ops store_ops host_ops os_ops.

(** The example cache honours the contract. *)
Lemma example_cache_laws : CacheLaws Cache Outside.
Proof.
  split.
  - done.
  - done.
  - by intros [].
  - intros i data [t m sn] x r c' x'. simpl. unfold cache_add_chunk, refcount. simpl.
    destruct (t !! i) as [[[n sz] cs]|] eqn:E; intros [= <- <- <-]; simpl;
      rewrite lookup_insert_eq; lia.
  - intros i [t m sn] x r c' x'. simpl. unfold cache_chunk_decref, refcount. simpl.
    destruct (t !! i) as [[[n sz] cs]|] eqn:E; [|discriminate].
    destruct (n =? 1) eqn:En; intros [= <- <-]; simpl.
    + rewrite lookup_delete_eq. lia.
    + rewrite lookup_insert_eq. lia.
  - by intros c r c' [= <- <-].
  - by intros c r c1 [= <- <-].
  - intros c r c1 m r' c2 [= <- <-] [= <- <-]. done.
Qed.

(** C5, run: five bytes in the buffer, cut every two bytes; the last chunk
    stays in the buffer. *)
Lemma flush_spec_witness :
  ChunkBuffer.flush (E := unit) ret false
    ({| ChunkBuffer.buffer := [x01; x02; x03; x04; x05]; ChunkBuffer.chunks := [] |}, tt)
  = (Ok tt, ({| ChunkBuffer.buffer := [x05];
                ChunkBuffer.chunks := [[x01; x02]; [x03; x04]] |}, tt)).
Proof.
  assert (ChunkBuffer.buffer
            {| ChunkBuffer.buffer := [x01; x02; x03; x04; x05]; ChunkBuffer.chunks := [] |} ≠ [] →
          chunkify [x01; x02; x03; x04; x05] 0xfff 0xffff 1024 chunk_seed ≠ []) as H1.
  { vm_compute. discriminate. }
  exact (flush_spec (E := unit) ret false
           {| ChunkBuffer.buffer := [x01; x02; x03; x04; x05]; ChunkBuffer.chunks := [] |}
           tt [[x01; x02]; [x03; x04]] tt H1 eq_refl).
Defined.

(** C3, run: the clock is at 1000, the last checkpoint at 0, the interval
    300. *)
Lemma add_item_checkpoint_witness :
  Archive.archives (Archive.add_item item_a world0).2 !! "A.checkpoint" = None ∧
  Archive.last_checkpoint (Archive.add_item item_a world0).2 = 1000.
Proof.
  pose (w0 := (Archive.with_items_buffer
                 (ChunkBuffer.add Archive.write_chunk (pack_item item_a)) world0).2).
  assert (Archive.with_items_buffer
            (ChunkBuffer.add Archive.write_chunk (pack_item item_a)) world0 = (Ok tt, w0)) as H1
    by (vm_compute; reflexivity).
  assert (time_time (Archive.ext w0) = (Ok 1000, Archive.ext w0)) as H2
    by (vm_compute; reflexivity).
  assert (Archive.checkpoint_interval world0 < 1000 - Archive.last_checkpoint world0) as H3
    by (vm_compute; reflexivity).
  assert (Archive.checkpoint_name world0 ≠ "") as H4 by (vm_compute; discriminate).
  assert (Archive.add_item item_a world0 = (Ok tt, (Archive.add_item item_a world0).2)) as H5
    by (vm_compute; reflexivity).
  destruct (add_item_checkpoint (CacheLaws0 := example_cache_laws) item_a world0 w0 _ 1000 _
              H1 H2 H3 H4 H5) as (w1 & time & _ & _ & _ & Ha & _ & Hl).
  split; [exact Ha|exact Hl].
Defined.



(** C7, run: a file of two chunks, the second missing from the index. *)
Lemma verify_file_chunks_spec_witness :
  ∃ item' outs s',
    ArchiveChecker.verify_file_chunks checked_item file_checker = (Ok item', s') ∧
    i_chunks item' = Some outs ∧
    i_path item' = Some "f" ∧
    refs_verified [([x01], 1, 2); ([x02], 3, 4)] outs file_checker s' ∧
    outs.*1.*2 = [1; 3].
Proof.
  assert (∀ (i cdata : bytes) (x : Outside), ∃ x', repository_put i cdata x = (Ok tt, x'))
    as Hput by (intros i cdata x; eexists; reflexivity).
  assert (Forall (λ r : ChunkRef, 0 ≤ r.1.2) [([x01], 1, 2); ([x02], 3, 4)]) as Hsz
    by (repeat constructor; simpl; lia).
  destruct (verify_file_chunks_spec Hput checked_item "f" [([x01], 1, 2); ([x02], 3, 4)]
              file_checker eq_refl eq_refl Hsz)
    as (item' & outs & s' & Hrun & Hc & (Hp & _) & Hv & _ & Hs).
  exists item', outs, s'.
  split; [exact Hrun|]. split; [exact Hc|]. split; [exact Hp|]. split; [exact Hv|exact Hs].
Defined.

(** C10, run: the hard link [l] to [t], with [restore_attrs=True]. *)
Lemma extract_hardlink_witness :
  (Archive.extract_item (link_item "l" "t") true false restore_world).1 = Ok tt ∧
  Archive.trace (Archive.extract_item (link_item "l" "t") true false restore_world).2 =
    [ev_sys (sys_lstat "/dest/l"); ev_sys (sys_exists "/dest");
     ev_sys (sys_exists "/dest/l"); ev_sys (sys_link "/dest/t" "/dest/l")].
Proof.
  destruct (extract_hardlink (C := Cache) (X := Outside) (link_item "l" "t") "l" "t" 0x81a4 true
              eq_refl eq_refl eq_refl eq_refl eq_refl) as [Heq _].
  rewrite (Heq restore_world). vm_compute. split; reflexivity.
Defined.


(** C1, the code at two inputs.  The path [a/../../b] has [..] segments,
    yet [extract_item] raises nothing and opens [/dest/a/../../b] for
    writing; the path [..foo] has no [..] segment and does not begin with a
    slash, yet [extract_item] raises its path exception: the test is on the
    first two characters only. *)
Theorem extract_item_accepts_parent_escape :
  unsafe_path "a/../../b" = true ∧
  (Archive.extract_item (file_item "a/../../b") true false restore_world).1 = Ok tt ∧
  ev_sys (sys_open "/dest/a/../../b" "wb")
    ∈ Archive.trace (Archive.extract_item (file_item "a/../../b") true false restore_world).2 ∧
  unsafe_path "..foo" = false ∧
  (Archive.extract_item (file_item "..foo") true false restore_world).1
    = Raise (Exception_ "Path should be relative and local").
Proof.
  split; [by vm_compute|]. split; [by vm_compute|].
  split; [|split; by vm_compute].
  vm_compute. do 3 apply list_elem_of_further. apply list_elem_of_here.
Qed.

(** C2, the code on an item stream of three chunks whose second is missing:
    the first and the third chunk are in the index and each holds one item,
    but the robust iterator yields the item of the first chunk only, reports
    the damage and stops; the item of the surviving third chunk is lost. *)
Theorem robust_iterator_loses_items_after_gap :
  ArchiveChecker.chunks damaged_checker !! chunk_a = Some (0, 0, 0) ∧
  ArchiveChecker.chunks damaged_checker !! chunk_b = None ∧
  ArchiveChecker.chunks damaged_checker !! chunk_c = Some (0, 0, 0) ∧
  (drain chunk_a).1.1 = [OItem (item_with_path x61)] ∧
  (drain chunk_c).1.1 = [OItem (item_with_path x63)] ∧
  let '(r, (yielded, s')) :=
    ArchiveChecker.robust_iterator [chunk_a; chunk_b; chunk_c] ([], damaged_checker) in
  r = Ok tt ∧ yielded = [OItem (item_with_path x61)] ∧
  ArchiveChecker.stderr s' = [ArchiveChecker.metadata_damage].
Proof. vm_compute. repeat split. Qed.

End Runs.

(** ** A run over an archive with a file *)

Section Runs_files.
Import Example FileExample.
#[local] Existing Instances key chunker file_msgpack cache_ops store_ops host_ops os_ops.


End Runs_files.

(** ** The chunk buffer: conservation of bytes and failure *)

Section ChunkBuffer_more.
Context `{Key} `{Chunker} {E : Type}.
Implicit Types (wr : bytes → M E Id) (cb : ChunkBuffer.t) (e : E).

(** The loop of [flush], read backwards: when it returns, every chunk was
    written and the ids came back in order. *)
Lemma for_each_write_chunks_inv wr cs : ∀ cb e cb' e',
  for_each cs (λ chunk, do i <- on_env (wr chunk); ChunkBuffer.chunks_append i) (cb, e)
    = (Ok tt, (cb', e')) →
  ∃ ids, map_m wr cs e = (Ok ids, e') ∧
         cb' = {| ChunkBuffer.buffer := ChunkBuffer.buffer cb;
                  ChunkBuffer.chunks := ChunkBuffer.chunks cb ++ ids |}.
Proof.
  induction cs as [|c cs IH]; intros cb e cb' e'; simpl.
  - intros [= <- <-]. exists []. rewrite app_nil_r. by destruct cb.
  - unfold bind at 1 2. unfold on_env at 1. simpl.
    destruct (wr c e) as [[i|x] e1] eqn:Hw; [|done].
    unfold ChunkBuffer.chunks_append at 1, modify. simpl.
    intros Hrest. apply IH in Hrest as (ids & Hm & ->). simpl.
    exists (i :: ids). unfold bind. rewrite Hw, Hm. simpl.
    split; [done|]. by rewrite <- app_assoc.
Qed.

(** When the loop of [flush] fails, the buffer is as it was before the
    loop. *)
Lemma for_each_write_chunks_buffer wr cs : ∀ cb e r cb' e',
  for_each cs (λ chunk, do i <- on_env (wr chunk); ChunkBuffer.chunks_append i) (cb, e)
    = (r, (cb', e')) →
  ChunkBuffer.buffer cb' = ChunkBuffer.buffer cb ∧
  ChunkBuffer.chunks cb `prefix_of` ChunkBuffer.chunks cb'.
Proof.
  induction cs as [|c cs IH]; intros cb e r cb' e'; simpl.
  - by intros [= <- <- <-].
  - unfold bind at 1 2. unfold on_env at 1. simpl.
    destruct (wr c e) as [[i|x] e1] eqn:Hw.
    + unfold ChunkBuffer.chunks_append at 1, modify. simpl.
      intros Hrest. apply IH in Hrest as [Hb Hp]. simpl in *.
      split; [done|]. etrans; [|exact Hp]. by apply prefix_app_r.
    + by intros [= <- <- <-].
Qed.

Lemma concat_removelast_last (cs : list bytes) c :
  last cs = Some c → concat (removelast cs) ++ c = concat cs.
Proof.
  intros Hl. apply last_Some in Hl as [l' ->].
  rewrite removelast_last, concat_app. simpl. by rewrite app_nil_r.
Qed.

Lemma flush_returns_inv wr (final : bool) cb e cb' e' :
  concat (chunkify (ChunkBuffer.buffer cb) WINDOW_SIZE CHUNK_MASK CHUNK_MIN chunk_seed)
    = ChunkBuffer.buffer cb →
  ChunkBuffer.flush wr final (cb, e) = (Ok tt, (cb', e')) →
  ∃ written ids,
    map_m wr written e = (Ok ids, e') ∧
    ChunkBuffer.chunks cb' = ChunkBuffer.chunks cb ++ ids ∧
    concat written ++ ChunkBuffer.buffer cb' = ChunkBuffer.buffer cb ∧
    (final = true → ChunkBuffer.buffer cb' = []).
Proof.
  intros Hcat. unfold ChunkBuffer.flush, bind at 1, gets. simpl.
  destruct (blen (ChunkBuffer.buffer cb) =? 0) eqn:Hlen.
  { intros [= <- <-]. exists [], []. simpl. rewrite app_nil_r.
    repeat split; try done. intros _.
    unfold blen in Hlen. destruct (ChunkBuffer.buffer cb); [done|simpl in Hlen; lia]. }
  set (cs := chunkify _ _ _ _ _) in *.
  unfold bind at 1. unfold ChunkBuffer.buffer_truncate at 1, modify. simpl.
  unfold bind at 1.
  destruct (for_each _ _ _) as [[[]|x] [cb1 e1]] eqn:Hloop; [|done].
  apply for_each_write_chunks_inv in Hloop as (ids & Hm & ->).
  destruct (final || (Z.of_nat (length cs) =? 1)) eqn:Hend.
  - intros [= <- <-]. exists cs, ids. simpl in *. rewrite app_nil_r. done.
  - rewrite slice_to_minus_one in Hm.
    destruct (last cs) as [c|] eqn:Hl; [|done].
    unfold ChunkBuffer.buffer_write, modify. simpl. intros [= <- <-].
    exists (removelast cs), ids. simpl.
    split; [done|]. split; [done|].
    split; [by rewrite <- Hcat; apply concat_removelast_last|].
    intros ->. done.
Qed.

(** X3. However [flush] ends, the ids recorded before are still in
    [self.chunks], in the same order and at the front; when it ends in an
    exception the buffer is empty: it was truncated before the first write,
    so the chunks not yet written are not kept for another attempt. *)
Theorem flush_failure_empties_buffer wr (final : bool) cb e r cb' e' :
  ChunkBuffer.flush wr final (cb, e) = (r, (cb', e')) →
  ChunkBuffer.chunks cb `prefix_of` ChunkBuffer.chunks cb' ∧
  (is_ok r = false → ChunkBuffer.buffer cb' = []).
Proof.
  unfold ChunkBuffer.flush, bind at 1, gets. simpl.
  destruct (blen (ChunkBuffer.buffer cb) =? 0) eqn:Hlen.
  { intros [= <- <- <-]. done. }
  set (cs := chunkify _ _ _ _ _) in *.
  unfold bind at 1. unfold ChunkBuffer.buffer_truncate at 1, modify. simpl.
  unfold bind at 1.
  destruct (for_each _ _ _) as [[[]|x] [cb1 e1]] eqn:Hloop;
    apply for_each_write_chunks_buffer in Hloop as [Hb Hp]; simpl in Hb, Hp.
  - destruct (final || (Z.of_nat (length cs) =? 1)).
    + intros [= <- <- <-]. done.
    + destruct (last cs) as [c|].
      * unfold ChunkBuffer.buffer_write, modify. intros [= <- <- <-]. done.
      * intros [= <- <- <-]. done.
  - intros [= <- <- <-]. done.
Qed.

(** X1. [flush] loses no byte: when the chunker cuts the buffer into pieces
    that concatenate to it and [flush] returns, the chunks handed to
    [write_chunk], in order, followed by what is left in the buffer, are the
    bytes the buffer held; their ids are appended to [self.chunks] in the
    same order, and a final flush leaves the buffer empty. *)
Theorem flush_conserves_bytes wr (final : bool) cb e cb' e' :
  concat (chunkify (ChunkBuffer.buffer cb) WINDOW_SIZE CHUNK_MASK CHUNK_MIN chunk_seed)
    = ChunkBuffer.buffer cb →
  ChunkBuffer.flush wr final (cb, e) = (Ok tt, (cb', e')) →
  ∃ written ids,
    map_m wr written e = (Ok ids, e') ∧
    ChunkBuffer.chunks cb' = ChunkBuffer.chunks cb ++ ids ∧
    concat written ++ ChunkBuffer.buffer cb' = ChunkBuffer.buffer cb ∧
    (final = true → ChunkBuffer.buffer cb' = []).
Proof. apply flush_returns_inv. Qed.

(** X2. [add] loses no byte either: after a call that returns, the chunks
    written, followed by the buffer, are the old buffer followed by the
    packed item; nothing is written while the buffer holds at most
    [BUFFER_SIZE] bytes. *)
Theorem add_conserves_bytes wr (packed : bytes) cb e cb' e' :
  concat (chunkify (ChunkBuffer.buffer cb ++ packed) WINDOW_SIZE CHUNK_MASK CHUNK_MIN chunk_seed)
    = ChunkBuffer.buffer cb ++ packed →
  ChunkBuffer.add wr packed (cb, e) = (Ok tt, (cb', e')) →
  ∃ written ids,
    map_m wr written e = (Ok ids, e') ∧
    ChunkBuffer.chunks cb' = ChunkBuffer.chunks cb ++ ids ∧
    concat written ++ ChunkBuffer.buffer cb' = ChunkBuffer.buffer cb ++ packed ∧
    (blen (ChunkBuffer.buffer cb ++ packed) ≤ ChunkBuffer.BUFFER_SIZE → written = []).
Proof.
  intros Hcat. unfold ChunkBuffer.add, bind at 1, ChunkBuffer.buffer_write at 1, modify.
  unfold bind at 1, ChunkBuffer.is_full, gets. simpl.
  destruct (ChunkBuffer.BUFFER_SIZE <? _) eqn:Hfull.
  - intros Hfl. apply flush_returns_inv in Hfl as (written & ids & Hm & Hc & Hb & _);
      [|exact Hcat].
    exists written, ids. simpl in *. repeat split; try done. lia.
  - intros [= <- <-]. exists [], []. simpl. by rewrite app_nil_r.
Qed.
End ChunkBuffer_more.

Section ChunkBuffer_runs.
Import Example.
#[local] Existing Instances key chunker msgpack cache_ops store_ops host_ops os_ops.

Lemma flush_conserves_bytes_witness :
  ∃ written ids,
    map_m (S := unit) ret written tt = (Ok ids, tt) ∧
    ids = [[x01; x02]; [x03; x04]] ∧
    concat written ++ [x05] = [x01; x02; x03; x04; x05].
Proof.
  pose (cb := {| ChunkBuffer.buffer := [x01; x02; x03; x04; x05]; ChunkBuffer.chunks := [] |}).
  assert (concat (chunkify (ChunkBuffer.buffer cb) WINDOW_SIZE CHUNK_MASK CHUNK_MIN chunk_seed)
          = ChunkBuffer.buffer cb) as H1 by (vm_compute; reflexivity).
  assert (ChunkBuffer.flush (E := unit) ret false (cb, tt)
          = (Ok tt, ({| ChunkBuffer.buffer := [x05];
                        ChunkBuffer.chunks := [[x01; x02]; [x03; x04]] |}, tt))) as H2
    by (vm_compute; reflexivity).
  destruct (flush_conserves_bytes (E := unit) ret false cb tt _ _ H1 H2)
    as (written & ids & Hm & Hc & Hb & _).
  exists written, ids. simpl in Hc. split; [exact Hm|]. split; [by symmetry|exact Hb].
Defined.

Lemma add_conserves_bytes_witness :
  ∃ written, written = [] ∧ concat written ++ [x01; x02; x03] = [x01; x02] ++ [x03].
Proof.
  pose (cb := {| ChunkBuffer.buffer := [x01; x02]; ChunkBuffer.chunks := [] |}).
  assert (concat (chunkify (ChunkBuffer.buffer cb ++ [x03]) WINDOW_SIZE CHUNK_MASK CHUNK_MIN
                    chunk_seed) = ChunkBuffer.buffer cb ++ [x03]) as H1
    by (vm_compute; reflexivity).
  assert (ChunkBuffer.add (E := unit) ret [x03] (cb, tt)
          = (Ok tt, ({| ChunkBuffer.buffer := [x01; x02; x03]; ChunkBuffer.chunks := [] |}, tt)))
    as H2 by (vm_compute; reflexivity).
  destruct (add_conserves_bytes (E := unit) ret [x03] cb tt _ _ H1 H2)
    as (written & ids & Hm & Hc & Hb & Hsmall).
  exists written. split; [apply Hsmall; vm_compute; discriminate|exact Hb].
Defined.

Lemma flush_failure_empties_buffer_witness :
  let out := ChunkBuffer.flush (E := unit) (λ _, raise (OSError EIO)) true
     ({| ChunkBuffer.buffer := [x01; x02; x03]; ChunkBuffer.chunks := [[x09]] |}, tt) in
  [[x09]] `prefix_of` ChunkBuffer.chunks out.2.1 ∧ ChunkBuffer.buffer out.2.1 = [].
Proof.
  pose (cb := {| ChunkBuffer.buffer := [x01; x02; x03]; ChunkBuffer.chunks := [[x09]] |}).
  assert (ChunkBuffer.flush (E := unit) (λ _, raise (OSError EIO)) true (cb, tt)
          = (Raise (OSError EIO),
             ({| ChunkBuffer.buffer := []; ChunkBuffer.chunks := [[x09]] |}, tt))) as H1
    by (vm_compute; reflexivity).
  destruct (flush_failure_empties_buffer (E := unit) _ true cb tt _ _ _ H1) as [H2 H3].
  subst cb. cbv zeta. rewrite H1. split; [exact H2|exact (H3 eq_refl)].
Defined.
End ChunkBuffer_runs.


(** ** The archive: save, dry runs, unknown types and attributes *)

Section Archive_more.
Context {C X : Type}.
Context `{Key} `{Chunker} `{Msgpack}.
Context `{CacheOps C X} `{StoreOps X} `{HostOps X} `{OsOps X}.
Implicit Types (w : Archive.World C X).

Lemma fetch_many_trace b ids : ∀ w,
  let '(r, w') := Archive.fetch_many ids b (λ _, ret tt) w in
  w' = Archive.set_ext (Archive.ext w') (Archive.set_trace (Archive.trace w') w) ∧
  ∃ k : nat, Archive.trace w' = Archive.trace w ++ (ev_repository_get b <$> take k ids) ∧
             (is_ok r = true → k = length ids).
Proof.
  unfold Archive.fetch_many.
  induction ids as [|i ids IH]; intros w; simpl.
  - split; [by destruct w|]. exists O. by rewrite app_nil_r.
  - unfold bind at 1 2. unfold Archive.get_one, bind at 1, Archive.log, modify.
    unfold Archive.on_ext at 1. simpl.
    destruct (repository_get b i (Archive.ext w)) as [[data|e] x1] eqn:Hget; simpl.
    + unfold bind at 1, Archive.key_decrypt. destruct (decrypt i data) as [plain|].
      * unfold ret at 1. unfold bind at 1, ret at 1.
        set (w1 := Archive.set_ext x1 _).
        specialize (IH w1). destruct (for_each ids _ w1) as [r w'].
        destruct IH as (Hw & k & Ht & Hk). split.
        { rewrite Hw at 1. by destruct w. }
        exists (S k). simpl. rewrite Ht. subst w1. simpl.
        rewrite <- app_assoc. split; [done|]. intros Hr. by rewrite Hk.
      * simpl. split; [by destruct w|]. exists 1%nat. simpl. done.
    + split; [by destruct w|]. exists 1%nat. simpl. done.
Qed.

(** X4. A dry run of [extract_item] does not touch the destination: whatever
    the item and its path, the only thing it does is to request the item's
    chunks from the repository, as preloaded ones and in their order (all of
    them when it returns, the first ones when a request or a decryption
    fails); nothing of the archive object changes. *)
Theorem extract_item_dry_run (item : Item) (restore_attrs_ : bool) w :
  let '(r, w') := Archive.extract_item item restore_attrs_ true w in
  w' = Archive.set_ext (Archive.ext w') (Archive.set_trace (Archive.trace w') w) ∧
  ∃ k : nat, Archive.trace w' =
               Archive.trace w ++ (ev_repository_get true <$> take k (item_chunk_ids item)) ∧
             (is_ok r = true → k = length (item_chunk_ids item)).
Proof.
  unfold Archive.extract_item, item_chunk_ids. simpl.
  destruct (i_chunks item) as [cs|].
  - apply fetch_many_trace.
  - simpl. split; [by destruct w|]. exists O. by rewrite app_nil_r.
Qed.


Lemma frame_flush_items final :
  steps same_config
    (Archive.with_items_buffer (C := C) (X := X) (ChunkBuffer.flush Archive.write_chunk final)).
Proof.
  apply frame_with_items_buffer, steps_flush; [apply _..|]. apply frame_write_chunk.
Qed.

(** X5. [save] never replaces or removes an entry of the manifest: however
    it ends, every archive listed before is listed unchanged; and when it
    returns, the name saved under ([name], or [self.name] when [name] is
    None or empty) was not listed before and is now bound to the id the
    archive has got. *)
Theorem save_adds_one_entry (name_arg : option string) w r w' :
  Archive.save name_arg w = (r, w') →
  let n := match name_arg with
           | Some n => if decide (n = "") then Archive.name w else n
           | None => Archive.name w
           end in
  (∀ n', is_Some (Archive.archives w !! n') →
         Archive.archives w' !! n' = Archive.archives w !! n') ∧
  (r = Ok tt →
   Archive.archives w !! n = None ∧
   ∃ i time, Archive.id w' = Some i ∧
             Archive.archives w' = <[n := mkInfo i time]> (Archive.archives w)).
Proof.
  intros Hrun n. subst n. revert Hrun.
  unfold Archive.save, Archive.get_id, bind, gets, modify, ret, raise, Archive.log,
    Archive.on_ext, Archive.on_cache_ext, Archive.on_cache.
  set (n := match name_arg with
            | Some n => if decide (n = "") then Archive.name w else n
            | None => Archive.name w
            end).
  destruct (decide (is_Some (Archive.archives w !! n))) as [Hin|Hnot].
  { intros [= <- <-]. split; [done|discriminate]. }
  assert (Archive.archives w !! n = None) as Hnone.
  { destruct (Archive.archives w !! n) eqn:E; [|done]. destruct Hnot. by eexists. }
  destruct (Archive.with_items_buffer _ w) as [[[]|e] w1] eqn:Hflush;
    pose proof (frame_flush_items true _ _ _ Hflush) as (_&_&_&_&_&_&_&_&_&Harch).
  2:{ intros [= <- <-]. rewrite Harch. split; [done|discriminate]. }
  assert (∀ n' v, is_Some (Archive.archives w !! n') →
            <[n := v]> (Archive.archives w) !! n' = Archive.archives w !! n') as Hkeep.
  { intros n' v [v' Hv]. rewrite lookup_insert_ne; [done|]. intros ->. congruence. }
  simpl.
  intros Hrun. repeat (case_match; simplify_eq/=); rewrite ?Harch;
    (split; [done || (intros ??; by apply Hkeep)|try discriminate]).
  intros _. split; [done|]. eauto.
Qed.


(** X6. An item whose mode is none of the types [extract_item] knows (a
    socket, say) is refused only after the entry that was at its path has
    been removed: the call is the removal of the existing entry followed by
    the exception, and never returns normally. *)
Theorem extract_item_unknown_type (item : Item) (ipath : string) (mode : Z)
    (restore_attrs_ : bool) w :
  i_path item = Some ipath → i_mode item = Some mode →
  startswith ipath "/" || startswith ipath ".." = false →
  unknown_type mode = true →
  let out := Archive.extract_item item restore_attrs_ false w in
  out = (Archive.remove_existing (os_path_join (Archive.cwd w) ipath) ;;
         raise (Exception_ "Unknown archive item type")) w ∧
  is_ok out.1 = false.
Proof.
  intros Hp Hm Hsafe Hunk. unfold unknown_type in Hunk.
  apply negb_true_iff in Hunk.
  repeat (apply orb_false_iff in Hunk as [Hunk ?]).
  assert (Archive.extract_item item restore_attrs_ false w =
          (Archive.remove_existing (os_path_join (Archive.cwd w) ipath) ;;
           raise (Exception_ "Unknown archive item type")) w) as Heq.
  { unfold Archive.extract_item. cbn beta iota. unfold bind at 1, gets at 1. cbn beta iota.
    rewrite Hp. unfold getitem at 1, bind at 1, ret at 1. rewrite Hsafe.
    apply bind_ext. intros [] w1. unfold Archive.materialize.
    rewrite Hm. unfold getitem at 1, bind at 1, ret at 1.
    by repeat match goal with Hb : _ = false |- _ => rewrite Hb; clear Hb end. }
  cbv zeta. split; [exact Heq|]. rewrite Heq. unfold bind.
  by destruct (Archive.remove_existing _ w) as [[[]|e] w1].
Qed.

(** *** Which failures of [restore_attrs] are not handled *)

Lemma blames_bind origin {A B} (m : M (Archive.World C X) A) (k : A → M (Archive.World C X) B) :
  blames origin m → (∀ a, blames origin (k a)) → blames origin (bind m k).
Proof.
  intros Hm Hk w en w'. unfold bind. destruct (m w) as [[a|e] w1] eqn:E.
  - apply Hk.
  - intros [= -> <-]. exact (Hm _ _ _ E).
Qed.

Lemma blames_pure origin {A} (m : M (Archive.World C X) A) :
  (∀ w en, (m w).1 ≠ Raise (OSError en)) → blames origin m.
Proof. intros Hm w en w' E. destruct (Hm w en). by rewrite E. Qed.

Lemma blames_getitem origin {A} (f : option A) :
  blames (C := C) (X := X) origin (getitem f).
Proof. apply blames_pure. intros w en. by destruct f. Qed.

Lemma blames_sys (origin : Syscall → Errno → Prop) {A} sc (op : M X A) :
  (∀ en, origin sc en) → blames (C := C) origin (Archive.sys sc op).
Proof.
  intros Ho w en w'. unfold Archive.sys, bind, Archive.log, modify, Archive.on_ext. simpl.
  destruct (op _) as [r x]. intros [= -> <-]. exists sc. simpl.
  split; [apply last_snoc|apply Ho].
Qed.

Lemma blames_for_each origin {A} (xs : list A) (body : A → M (Archive.World C X) unit) :
  (∀ x, blames origin (body x)) → blames origin (for_each xs body).
Proof.
  intros Hb. induction xs as [|x xs IH]; simpl.
  - by apply blames_pure.
  - apply blames_bind; auto.
Qed.

(** X7. [restore_attrs] lets an OSError escape only from the call that just
    failed, and that call is never a chown: it is a [setxattr] that failed
    with something other than ENOTSUP, or one of chmod, fchmod, lchmod and
    utime.  A failure to set the owner, and ENOTSUP from [setxattr], never
    end the restoration of an item. *)
Theorem restore_attrs_unhandled (path : string) (item : Item) (symlink : bool) (fd : option Z) :
  blames (C := C) (X := X) unhandled_attr_failure (Archive.restore_attrs path item symlink fd).
Proof.
  unfold Archive.restore_attrs.
  apply blames_bind.
  { destruct (i_xattrs item) as [[|kv xattrs]|]; try by apply blames_pure.
    apply blames_for_each. intros [k v] w en w'. unfold try_except.
    destruct (Archive.sys _ _ w) as [[[]|e] w1] eqn:E; [done|].
    destruct e as [| | | | | |en'| | | | | | |]; try done.
    destruct en'; try done; intros [= <- <-];
      (unfold Archive.sys, bind, Archive.log, modify, Archive.on_ext in E; simpl in E;
       destruct (os_setxattr _ _ _ _) as [r x]; injection E as -> <-;
       eexists; split; [apply last_snoc|done]). }
  intros _. apply blames_bind; [by apply blames_pure|]. intros numeric.
  apply blames_bind.
  { destruct numeric; [by apply blames_pure|].
    apply blames_bind; [apply blames_getitem|]. intros user.
    apply blames_bind; [apply blames_getitem|]. intros group. by apply blames_pure. }
  intros [uid gid].
  apply blames_bind.
  { destruct (Archive.truthy uid); [by apply blames_pure|apply blames_getitem]. }
  intros uid'. apply blames_bind.
  { destruct (Archive.truthy gid); [by apply blames_pure|apply blames_getitem]. }
  intros gid'. apply blames_bind.
  { intros w en w'. unfold try_except.
    match goal with |- context [match ?m w with _ => _ end] =>
      destruct (m w) as [[[]|e] w1] end; [done|].
    by destruct e. }
  intros _. apply blames_bind.
  { destruct (Archive.truthy fd); [|destruct (negb symlink); [|destruct has_lchmod]];
      try (by apply blames_pure);
      (apply blames_bind; [apply blames_getitem|]; intros mode; by apply blames_sys). }
  intros _.
  destruct (Archive.truthy fd && utime_supports_fd);
    [|destruct utime_supports_fd; [|destruct (negb symlink)]];
    try (by apply blames_pure);
    (apply blames_bind; [apply blames_getitem|]; intros mtime; by apply blames_sys).
Qed.

End Archive_more.

Section Archive_more_runs.
Import Example.
#[local] Existing Instances key chunker msgpack cache_ops store_ops host_ops os_ops.

(** X5, run: a new archive [A] saved into an empty manifest. *)
Lemma save_adds_one_entry_witness :
  ∃ i time, Archive.id (Archive.save None world0).2 = Some i ∧
            Archive.archives (Archive.save None world0).2 = <["A" := mkInfo i time]> ∅.
Proof.
  assert (Archive.save None world0 = (Ok tt, (Archive.save None world0).2)) as Hrun
    by (vm_compute; reflexivity).
  destruct (save_adds_one_entry None world0 _ _ Hrun) as [_ Hok].
  destruct (Hok eq_refl) as (_ & i & time & Hi & Ha).
  exists i, time. split; [exact Hi|exact Ha].
Defined.

(** X6, run: a socket item named [t] while the destination has a file [t]:
    the file is gone and the item is refused. *)
Lemma extract_item_unknown_type_witness :
  let item := mkItem (Some "t") (Some 0xC1A4) None None None (Some 0) (Some 0)
                     (Some None) (Some None) (Some 0) None in
  fs (Archive.ext restore_world) !! "/dest/t" = Some (NFile [x01]) ∧
  (Archive.extract_item item true false restore_world).1
    = Raise (Exception_ "Unknown archive item type") ∧
  fs (Archive.ext (Archive.extract_item item true false restore_world).2) !! "/dest/t" = None.
Proof.
  intros item.
  destruct (extract_item_unknown_type (C := Cache) (X := Outside) item "t" 0xC1A4 true
              restore_world eq_refl eq_refl eq_refl eq_refl) as [Heq _].
  rewrite Heq. vm_compute. repeat split.
Defined.

End Archive_more_runs.

(** ** The archive: hard links on ingest, delete, failing statistics *)

Section Archive_frames.
Context {C X : Type}.
Context `{Key} `{Chunker} `{Msgpack}.
Context `{CacheOps C X} `{StoreOps X} `{HostOps X} `{OsOps X}.
Implicit Types (w : Archive.World C X).

Lemma frame_log ev : steps (@same_config C X) (Archive.log ev).
Proof. intros w r w' [= <- <-]. by repeat split. Qed.

Lemma frame_on_ext {A} (m : M X A) : steps (@same_config C X) (Archive.on_ext m).
Proof.
  intros w r w'. unfold Archive.on_ext. destruct (m _) as [a x].
  intros [= <- <-]. by repeat split.
Qed.

Lemma frame_on_cache {A} c (m : M C A) : steps (@same_config C X) (Archive.on_cache c m).
Proof.
  intros w r w'. unfold Archive.on_cache. destruct (m _) as [a c'].
  intros [= <- <-]. by destruct c.
Qed.

Lemma frame_on_cache_ext {A} c (m : M (C * X) A) :
  steps (@same_config C X) (Archive.on_cache_ext c m).
Proof.
  intros w r w'. unfold Archive.on_cache_ext. destruct (m _) as [a [c' x]].
  intros [= <- <-]. by destruct c.
Qed.

Lemma frame_delete_loop ids : ∀ u, steps (@same_config C X) (Archive.delete_loop ids u).
Proof.
  induction ids as [|i ids IH]; intros u; simpl.
  - apply steps_ret, _.
  - apply steps_bind; [apply _| |intros data].
    { apply steps_bind; [apply _|apply frame_log|intros _; apply frame_on_ext]. }
    apply steps_bind; [apply _| |intros plain].
    { unfold Archive.key_decrypt. destruct (decrypt i data); [apply steps_ret|apply steps_raise]; apply _. }
    destruct (drain _) as [[objs u'] bad].
    apply steps_bind; [apply _| |intros _].
    { apply steps_bind; [apply _|apply frame_log|intros _; apply frame_on_cache_ext]. }
    apply steps_bind; [apply _| |intros _].
    { apply steps_for_each; [apply _..|]. intros item.
      apply steps_bind; [apply _| |intros cs].
      { destruct item; [apply steps_ret|apply steps_raise]; apply _. }
      destruct cs as [cs|]; [|apply steps_ret, _].
      apply steps_for_each; [apply _..|]. intros [[j sz] cs'].
      apply steps_bind; [apply _|apply frame_log|intros _; apply frame_on_cache_ext]. }
    destruct bad; [apply steps_raise, _|apply IH].
Qed.

(** A loop of [delete] that returns has released every id of the item
    stream. *)
Lemma delete_loop_releases ids : ∀ u w w',
  Archive.delete_loop ids u w = (Ok tt, w') →
  ∃ t, Archive.trace w' = Archive.trace w ++ t ∧ Forall is_release_event t ∧
       ∀ j, j ∈ ids → ev_chunk_decref self_cache j ∈ t.
Proof.
  induction ids as [|i ids IH]; intros u w w'; simpl.
  - intros [= <-]. exists []. rewrite app_nil_r. split; [done|]. split; [done|].
    intros j Hj. by apply elem_of_nil in Hj.
  - unfold bind at 1.
    destruct (Archive.get_one false i w) as [[data|e] w1] eqn:E1; [|done].
    assert (emits (@Archive.trace C X) is_release_event (Archive.get_one false i)) as Hg
      by emits_auto.
    destruct (Hg _ _ _ E1) as (t1 & Ht1 & Hf1).
    unfold bind at 1.
    destruct (Archive.key_decrypt i data w1) as [[plain|e] w2] eqn:E2; [|done].
    assert (w2 = w1) as ->.
    { unfold Archive.key_decrypt in E2. destruct (decrypt i data); by injection E2. }
    destruct (drain _) as [[objs u'] bad].
    unfold bind at 1.
    destruct (Archive.decref i w1) as [[[]|e] w3] eqn:E3; [|done].
    assert (Archive.trace w3 = Archive.trace w1 ++ [ev_chunk_decref self_cache i]) as Ht3.
    { unfold Archive.decref, bind, Archive.log, modify, Archive.on_cache_ext in E3.
      simpl in E3. destruct (chunk_decref _ _) as [r3 [c3 x3]]. by injection E3 as _ <-. }
    unfold bind at 1.
    destruct (Archive.delete_items objs w3) as [[[]|e] w4] eqn:E4; [|done].
    assert (emits (@Archive.trace C X) is_release_event (Archive.delete_items objs)) as Hd
      by emits_auto.
    destruct (Hd _ _ _ E4) as (t4 & Ht4 & Hf4).
    destruct bad; [done|]. intros E5.
    destruct (IH _ _ _ E5) as (t5 & Ht5 & Hf5 & Hin5).
    exists (t1 ++ [ev_chunk_decref self_cache i] ++ t4 ++ t5).
    split; [by rewrite Ht5, Ht4, Ht3, Ht1, <- !app_assoc|].
    split.
    { repeat apply Forall_app_2; try done. by constructor. }
    intros j [->|Hj]%elem_of_cons.
    + apply elem_of_app. right. apply elem_of_cons. by left.
    + rewrite !elem_of_app. right. right. right. by apply Hin5.
Qed.


(** X8. A [delete] that returns has released, on [self.cache], one
    reference of every chunk of the item stream and, last, the one of the
    archive's metadata block; between them it only reads the repository and
    releases references.  Then the archive's name, which was listed, is
    removed from the manifest, nothing else of the manifest changes, and the
    manifest is written, the repository committed and the cache given as
    argument committed. *)
Theorem delete_releases_references (cache : CacheRef) w w' :
  Archive.delete cache w = (Ok tt, w') →
  ∃ md i t,
    Archive.metadata w = Some md ∧ Archive.id w = Some i ∧
    Archive.trace w' = Archive.trace w ++ t ++
      [ev_chunk_decref self_cache i; ev_manifest_write; ev_repository_commit;
       ev_cache_commit cache] ∧
    Forall is_release_event t ∧
    (∀ j, j ∈ m_items md → ev_chunk_decref self_cache j ∈ t) ∧
    is_Some (Archive.archives w !! Archive.name w) ∧
    Archive.archives w' = delete (Archive.name w) (Archive.archives w).
Proof.
  unfold Archive.delete. unfold bind at 1, Archive.get_metadata, bind at 1, gets at 1.
  cbn beta iota.
  destruct (Archive.metadata w) as [md|] eqn:Hmd; [|done]. unfold ret at 1.
  unfold bind at 1.
  destruct (Archive.delete_loop (m_items md) [] w) as [[[]|e] w1] eqn:Hloop; [|done].
  destruct (delete_loop_releases _ _ _ _ Hloop) as (t & Ht & Hf & Hin).
  destruct (frame_delete_loop _ _ _ _ _ Hloop) as (_&Hname&Hid&_&_&_&_&_&_&Harch).
  unfold Archive.get_id, Archive.decref, Archive.del_archive, bind, gets, modify, ret, raise,
    Archive.log, Archive.on_ext, Archive.on_cache_ext, Archive.on_cache.
  rewrite Hid. destruct (Archive.id w) as [i|] eqn:Hi; [|done]. simpl.
  intros Hrun. exists md, i, t.
  repeat (case_match; simplify_eq/=).
  rewrite Hname, Harch in *.
  split; [done|]. split; [done|].
  split; [destruct cache; simpl; rewrite Ht, <- !app_assoc; reflexivity|].
  split; [done|]. split; [done|].
  split; [by eexists|by destruct cache].
Qed.


(** X9. A file with several links whose inode was met before is stored as
    a hard link: the item added has the safe path, the attributes of the
    file and, as [source], the path recorded for the inode; it has no
    chunks.  The cache is not asked about the file and the file is not
    opened: the only call before [add_item] is the listing of the extended
    attributes. *)
Theorem process_file_hardlink (path : string) (st : Stat) (cache : CacheRef) w
    (source : string) (attrs : Item) w1 :
  1 < st_nlink st →
  Archive.hard_links w !! (st_ino st, st_dev st) = Some source →
  Archive.stat_attrs st path w = (Ok attrs, w1) →
  ∃ item,
    Archive.process_file path st cache w = Archive.add_item item w1 ∧
    i_path item = Some (make_path_safe path) ∧ i_source item = Some source ∧
    i_chunks item = None ∧ i_mode item = Some (st_mode st) ∧
    i_uid item = Some (st_uid st) ∧ i_gid item = Some (st_gid st) ∧
    i_mtime item = Some (st_mtime_ns st) ∧
    Archive.trace w1 = Archive.trace w ++ [ev_sys (sys_get_all_xattr path)] ∧
    Archive.hard_links w1 = Archive.hard_links w.
Proof.
  intros Hn Hl Hs. eexists. split.
  { unfold Archive.process_file. unfold bind at 1, gets at 1. cbn beta iota.
    apply Z.ltb_lt in Hn. rewrite Hn, Hl. unfold bind at 1. rewrite Hs. reflexivity. }
  revert Hs. unfold Archive.stat_attrs, Archive.sys, bind, gets, Archive.log, modify,
    Archive.on_ext, ret. simpl.
  destruct (os_get_all_xattr path (Archive.ext w)) as [[xattrs|e] x]; [|done].
  intros [= <- <-]. simpl. repeat split; done.
Qed.

Lemma raise_within_bind (P : Event → Prop) {A B} (m : M (Archive.World C X) A)
    (k : A → M (Archive.World C X) B) :
  emits (@Archive.trace C X) P m →
  (∀ a w e w', k a w = (Raise e, w') →
     ∃ t, Archive.trace w' = Archive.trace w ++ t ∧ Forall P t) →
  ∀ w e w', bind m k w = (Raise e, w') →
    ∃ t, Archive.trace w' = Archive.trace w ++ t ∧ Forall P t.
Proof.
  intros Hm Hk w e w'. unfold bind. destruct (m w) as [[a|e1] w1] eqn:E.
  - intros Hka. destruct (Hm _ _ _ E) as (t1 & Ht1 & Hf1).
    destruct (Hk _ _ _ _ Hka) as (t2 & Ht2 & Hf2).
    exists (t1 ++ t2). split; [by rewrite Ht2, Ht1, app_assoc|by apply Forall_app].
  - intros [= <- <-]. exact (Hm _ _ _ E).
Qed.

(** X10. [calc_stats] has no handler around its loop: when the cache's
    [rollback] itself cannot fail and [calc_stats] ends in an exception (an
    id missing from [cache.chunks], a failed read or decryption), the
    transaction it began is left open: [begin_txn] was called and [rollback]
    was not. *)
Theorem calc_stats_failure_skips_rollback (cache : CacheRef) w e w' :
  (∀ c : C, is_ok (rollback c).1 = true) →
  Archive.calc_stats cache w = (Raise e, w') →
  ∃ t, Archive.trace w' = Archive.trace w ++ ev_begin_txn cache :: t ∧
       ev_rollback cache ∉ t.
Proof.
  intros Hrb. unfold Archive.calc_stats.
  unfold bind at 1, Archive.log at 1, modify. cbn beta iota.
  set (w0 := Archive.set_trace _ w). intros Hrun.
  assert (∃ t, Archive.trace w' = Archive.trace w0 ++ t ∧
               Forall (λ ev, ev ≠ ev_rollback cache) t) as (t & Ht & Hf).
  { revert Hrun. generalize w0. clear w0. intros w0. revert w0 e w'.
    apply raise_within_bind; [emits_auto|intros _].
    apply raise_within_bind; [emits_auto|intros i].
    apply raise_within_bind; [emits_auto|intros stats].
    apply raise_within_bind; [emits_auto|intros md].
    apply raise_within_bind; [by apply emits_calc_stats_loop|intros stats'].
    intros w1 e1 w1'. unfold bind, Archive.log, modify, Archive.on_cache, ret. simpl.
    specialize (Hrb (Archive.deref cache
      (Archive.set_trace (Archive.trace w1 ++ [ev_rollback cache]) w1))).
    destruct (rollback _) as [[[]|e2] c2]; done. }
  exists t. subst w0. simpl in Ht. rewrite Ht, <- app_assoc. split; [done|].
  intros Hin. rewrite Forall_forall in Hf. by apply (Hf _ Hin).
Qed.

End Archive_frames.

Section Archive_frames_runs.
Import Example.
#[local] Existing Instances key chunker msgpack cache_ops store_ops host_ops os_ops.

(** X8, run: the stored archive [A] is deleted. *)
Lemma delete_releases_references_witness :
  ∃ t, Archive.trace (Archive.delete self_cache stored_world).2 =
         t ++ [ev_chunk_decref self_cache meta_id; ev_manifest_write; ev_repository_commit;
               ev_cache_commit self_cache] ∧
       ev_chunk_decref self_cache chunk_a ∈ t ∧
       Archive.archives (Archive.delete self_cache stored_world).2 = delete "A"
         (<["A" := mkInfo meta_id "2014-05-01T12:00:00.000000"]> ∅).
Proof.
  assert (Archive.delete self_cache stored_world
          = (Ok tt, (Archive.delete self_cache stored_world).2)) as Hrun
    by (vm_compute; reflexivity).
  destruct (delete_releases_references self_cache stored_world _ Hrun)
    as (md & i & t & Hmd & Hi & Ht & _ & Hin & _ & Ha).
  injection Hmd as <-. injection Hi as <-.
  exists t. split; [exact Ht|]. split; [|exact Ha].
  apply Hin. simpl. apply list_elem_of_here.
Defined.

(** X9, run: a second link to the inode of [/dest/t]. *)
Lemma process_file_hardlink_witness :
  let st := mkStat 0x81a4 2 7 1 0 0 0 0 in
  let w := Archive.set_hard_links (<[(7, 1) := "/dest/t"]> ∅) ingest_world in
  ∃ item w1, Archive.process_file "/dest/u" st self_cache w = Archive.add_item item w1 ∧
             i_source item = Some "/dest/t" ∧ i_chunks item = None ∧
             Archive.trace w1 = [ev_sys (sys_get_all_xattr "/dest/u")].
Proof.
  intros st w.
  pose (w1 := (Archive.stat_attrs st "/dest/u" w).2).
  pose (attrs := mkItem None (Some 0x81a4) None None None (Some 0) (Some 0)
                        (Some None) (Some None) (Some 0) None).
  assert (1 < st_nlink st) as H1 by (vm_compute; reflexivity).
  assert (Archive.hard_links w !! (st_ino st, st_dev st) = Some "/dest/t") as H2
    by (vm_compute; reflexivity).
  assert (Archive.stat_attrs st "/dest/u" w = (Ok attrs, w1)) as H3
    by (vm_compute; reflexivity).
  destruct (process_file_hardlink "/dest/u" st self_cache w "/dest/t" attrs w1 H1 H2 H3)
    as (item & Hpf & _ & Hsrc & Hch & _ & _ & _ & _ & Htr & _).
  exists item, w1. split; [exact Hpf|]. split; [exact Hsrc|]. split; [exact Hch|exact Htr].
Defined.

(** X10, run: the cache does not know the archive's metadata block. *)
Lemma calc_stats_failure_skips_rollback_witness :
  let w := Archive.set_cache cache0 stored_world in
  (Archive.calc_stats self_cache w).1 = Raise KeyError ∧
  ∃ t, Archive.trace (Archive.calc_stats self_cache w).2 = ev_begin_txn self_cache :: t ∧
       ev_rollback self_cache ∉ t.
Proof.
  intros w.
  assert (∀ c : Cache, is_ok (rollback c).1 = true) as H1 by (intros c; reflexivity).
  assert (Archive.calc_stats self_cache w
          = (Raise KeyError, (Archive.calc_stats self_cache w).2)) as H2
    by (vm_compute; reflexivity).
  destruct (calc_stats_failure_skips_rollback self_cache w _ _ H1 H2) as (t & Ht & Hno).
  split; [by rewrite H2|]. exists t. split; [exact Ht|exact Hno].
Defined.

End Archive_frames_runs.

(** ** The checker: intact streams, resynchronisation, check-only mode *)

Section Checker_more.
Context {X : Type}.
Context `{Key} `{Chunker} `{Msgpack} `{StoreOps X}.
Implicit Types (s : ArchiveChecker.t X) (index : gmap Id (Z * Z * Z)).

(** X11. The key [missing_chunk_detector] returns is odd exactly on the ids
    missing from the index, and the nonlocal [state] never decreases: it
    stays or goes up by one. *)
Theorem detector_parity index (state : Z) (chunk_id : Id) :
  let k := ArchiveChecker.missing_chunk_detector index state chunk_id in
  k `mod` 2 = (if bool_decide (index !! chunk_id = None) then 1 else 0) ∧
  (k = state ∨ k = state + 1).
Proof.
  unfold ArchiveChecker.missing_chunk_detector. cbv zeta.
  pose proof (Z.mod_pos_bound state 2 ltac:(lia)) as Hb.
  destruct (bool_decide (index !! chunk_id = None)); case_bool_decide as Hs.
  - split; [|by right]. rewrite Z.add_mod by lia.
    replace (state `mod` 2) with 0 by lia. reflexivity.
  - split; [lia|by left].
  - split; [|by right]. rewrite Z.add_mod by lia.
    replace (state `mod` 2) with 1 by lia. reflexivity.
  - split; [lia|by left].
Qed.

Lemma grouper_intact index ids :
  Forall (λ v, is_Some (index !! v)) ids →
  ArchiveChecker.grouper index 0 0 ids = (ids, 0, None, []).
Proof.
  intros Hall. induction Hall as [|v ids Hv _ IH]; simpl; [done|].
  rewrite detector_present by done. simpl. by rewrite IH.
Qed.

(** What [feed_group] leaves alone. *)
Lemma feed_group_keeps state items : ∀ i u ys s r ys' s',
  ArchiveChecker.feed_group state i items u (ys, s) = (r, (ys', s')) →
  ArchiveChecker.chunks s' = ArchiveChecker.chunks s ∧
  ArchiveChecker.error_found s' = ArchiveChecker.error_found s ∧
  ArchiveChecker.stderr s' = ArchiveChecker.stderr s ∧
  ArchiveChecker.repair s' = ArchiveChecker.repair s ∧
  ys `prefix_of` ys'.
Proof.
  assert (∀ objs ys s, for_each objs ArchiveChecker.yield (ys, s) = (Ok tt, (ys ++ objs, s)))
    as Hyield.
  { induction objs as [|o objs IH]; intros ys s; simpl.
    - by rewrite app_nil_r.
    - unfold bind, ArchiveChecker.yield at 1, modify. simpl. rewrite IH.
      by rewrite <- app_assoc. }
  induction items as [|c items IH]; intros i u ys s r ys' s'; simpl.
  - by intros [= <- <- <-].
  - unfold bind at 1. unfold on_env at 1, bind at 1, ArchiveChecker.log, modify,
      ArchiveChecker.on_ext. simpl.
    destruct (repository_get false c (ArchiveChecker.ext s)) as [[cdata|e] x1]; simpl.
    2:{ by intros [= <- <- <-]. }
    unfold bind at 1. destruct (decrypt c cdata) as [data|].
    2:{ by intros [= <- <- <-]. }
    unfold ret at 1. unfold bind at 1.
    set (s1 := ArchiveChecker.set_ext x1 _).
    assert (∀ r2 st2, (if negb (state =? 0) && bool_decide (i = O)
             then do r0 <- ArchiveChecker.msgpack_resync data;
                  match r0 with Some d => ret d | None => raise TypeError end
             else ret data) (ys, s1) = (r2, st2) → st2 = (ys, s1)) as Hsame.
    { intros r2 st2. destruct (negb _ && _); [|by intros [= _ <-]].
      unfold bind. generalize (ys, s1). clear. intros st.
      assert (∀ r st', ArchiveChecker.msgpack_resync data st = (r, st') → st' = st) as Hr.
      { clear. induction data as [|b data IH]; intros r st'; simpl.
        - by intros [= _ <-].
        - destruct (unpack_one (b :: data)) as [[it|] rest| |];
            try case_bool_decide; try (by intros [= _ <-]); apply IH. }
      specialize (Hr (ArchiveChecker.msgpack_resync data st).1
                     (ArchiveChecker.msgpack_resync data st).2).
      destruct (ArchiveChecker.msgpack_resync data st) as [[[d|]|e] st1];
        simpl in Hr; rewrite (Hr eq_refl); by intros [= _ <-]. }
    match goal with |- context [match ?m (ys, s1) with _ => _ end] =>
      specialize (Hsame (m (ys, s1)).1 (m (ys, s1)).2);
      destruct (m (ys, s1)) as [[data'|e] st2] end;
      simpl in Hsame; rewrite (Hsame eq_refl).
    2:{ by intros [= <- <- <-]. }
    destruct (drain _) as [[objs u'] bad].
    unfold bind at 1. rewrite Hyield.
    destruct bad.
    + intros [= <- <- <-]. simpl. repeat split; try done. by apply prefix_app_r.
    + intros Hrest. apply IH in Hrest as (?&?&?&?&Hp). simpl in *.
      repeat split; try done. etrans; [|exact Hp]. by apply prefix_app_r.
Qed.

(** X12. On an item stream all of whose chunks are in the index, the robust
    iterator is the plain loop: it fetches the chunks in order, decrypts
    them, feeds one unpacker and yields what it decodes, without any
    resynchronisation ([feed_group] with [state] 0); it reports nothing,
    leaves [error_found] and the index as they were, and what was yielded
    before stays yielded. *)
Theorem robust_iterator_intact (ids : list Id) (ys : list Obj) s :
  Forall (λ v, is_Some (ArchiveChecker.chunks s !! v)) ids →
  let out := ArchiveChecker.robust_iterator ids (ys, s) in
  out = (ArchiveChecker.feed_group 0 O ids [] ;; ret tt) (ys, s) ∧
  ArchiveChecker.error_found out.2.2 = ArchiveChecker.error_found s ∧
  ArchiveChecker.stderr out.2.2 = ArchiveChecker.stderr s ∧
  ArchiveChecker.chunks out.2.2 = ArchiveChecker.chunks s ∧
  ys `prefix_of` out.2.1.
Proof.
  intros Hall.
  assert (ArchiveChecker.robust_iterator ids (ys, s) =
          (ArchiveChecker.feed_group 0 O ids [] ;; ret tt) (ys, s)) as Heq.
  { unfold ArchiveChecker.robust_iterator. destruct ids as [|v ids]; [done|].
    apply Forall_cons in Hall as [Hv Hall].
    cbn [ArchiveChecker.robust_loop length]. unfold bind at 1, gets at 1. cbn [snd].
    rewrite detector_present by done.
    cbn -[ArchiveChecker.feed_group ArchiveChecker.grouper ArchiveChecker.robust_loop].
    rewrite grouper_intact by done.
    apply bind_ext. intros u [ys' s']. reflexivity. }
  cbv zeta. rewrite Heq. split; [done|].
  unfold bind.
  destruct (ArchiveChecker.feed_group 0 0 ids [] (ys, s)) as [[u|e] [ys' s']] eqn:E;
    apply feed_group_keeps in E as (?&?&?&?&?); done.
Qed.

(** X13. [msgpack_resync] changes nothing and, when it returns data, returns
    a non-empty tail of its input at whose front an item with a [path]
    decodes; when it returns None, no non-empty tail of the input starts
    with such an item. *)
Theorem msgpack_resync_finds_item {S : Type} (data : bytes) (st : S) r st' :
  ArchiveChecker.msgpack_resync data st = (Ok r, st') →
  st' = st ∧
  match r with
  | Some d => d `suffix_of` data ∧ d ≠ [] ∧
              ∃ it rest, unpack_one d = Decoded (OItem it) rest ∧ is_Some (i_path it)
  | None => ∀ d it rest, d `suffix_of` data → d ≠ [] →
              unpack_one d = Decoded (OItem it) rest → i_path it = None
  end.
Proof.
  revert r st'. induction data as [|b data IH]; intros r st'; simpl.
  - intros [= <- <-]. split; [done|]. intros d it rest Hsuf Hne.
    apply suffix_nil_inv in Hsuf. done.
  - assert (∀ r, (∀ it rest, unpack_one (b :: data) = Decoded (OItem it) rest →
                             i_path it = None) →
              ArchiveChecker.msgpack_resync data st = (Ok r, st') →
              st' = st ∧
              match r with
              | Some d => d `suffix_of` b :: data ∧ d ≠ [] ∧
                  ∃ it rest, unpack_one d = Decoded (OItem it) rest ∧ is_Some (i_path it)
              | None => ∀ d it rest, d `suffix_of` b :: data → d ≠ [] →
                  unpack_one d = Decoded (OItem it) rest → i_path it = None
              end) as Hskip.
    { intros r0 Hhere Hrec. apply IH in Hrec as [-> Hrec]. split; [done|].
      destruct r0 as [d|].
      - destruct Hrec as (Hsuf & Hne & Hit). split; [by apply suffix_cons_r|done].
      - intros d it rest Hsuf Hne Hd. destruct d as [|x d]; [done|].
        apply suffix_cons_inv in Hsuf as [Heq|Hsuf].
        + rewrite Heq in Hd. by eapply Hhere.
        + by eapply Hrec. }
    destruct (unpack_one (b :: data)) as [[it|] rest| |] eqn:E; try done.
    + case_bool_decide as Hp.
      * intros [= <- <-]. split; [done|]. split; [done|]. split; [done|]. eauto.
      * apply Hskip. intros it' rest' [= <- _].
        destruct (i_path it); [destruct Hp; by eexists|done].
    + apply Hskip. intros it' rest' [=].
Qed.


#[export] Instance check_only_refl : Reflexive (@check_only X).
Proof. by intros s Hr. Qed.

#[export] Instance check_only_trans : Transitive (@check_only X).
Proof.
  intros s1 s2 s3 H12 H23 Hr. destruct (H12 Hr) as (Ht & He & Hr2).
  destruct (H23 Hr2) as (Ht' & He' & Hr3). repeat split; congruence.
Qed.

#[export] Instance sticky_error_refl : Reflexive (@sticky_error X).
Proof. by intros s He. Qed.

#[export] Instance sticky_error_trans : Transitive (@sticky_error X).
Proof. intros s1 s2 s3 H12 H23 He. auto. Qed.

Lemma check_only_report_progress msg error :
  steps (@check_only X) (ArchiveChecker.report_progress msg error).
Proof.
  intros s r s'. unfold ArchiveChecker.report_progress, bind, gets, modify, ret.
  destruct error; simpl; [|destruct (ArchiveChecker.progress s)];
    intros [= <- <-]; by intros Hr.
Qed.

Lemma check_only_add_reference id_ size csize cdata :
  steps (@check_only X) (ArchiveChecker.add_reference id_ size csize cdata).
Proof.
  intros s r s' Hrun Hr. revert Hrun.
  unfold ArchiveChecker.add_reference, bind, gets, modify, ret, raise. simpl.
  destruct (ArchiveChecker.chunks s !! id_) as [[[count sz] cs]|]; [|destruct cdata];
    simpl; rewrite ?Hr; intros [= <- <-]; done.
Qed.

Lemma check_only_verify_ref p offset ref :
  steps (@check_only X) (ArchiveChecker.verify_ref p offset ref).
Proof.
  destruct ref as [[i sz] cs]. unfold ArchiveChecker.verify_ref.
  apply steps_bind; [apply _|apply steps_gets, _|intros c].
  destruct (c !! i).
  - apply steps_bind; [apply _|apply check_only_add_reference|intros _; apply steps_ret, _].
  - apply steps_bind; [apply _| |intros p'].
    { destruct p; [apply steps_ret|apply steps_raise]; apply _. }
    apply steps_bind; [apply _|apply check_only_report_progress|intros _].
    destruct (sz <? 0); [apply steps_raise, _|].
    apply steps_bind; [apply _|apply check_only_add_reference|intros _; apply steps_ret, _].
Qed.

Lemma check_only_add_callback chunk :
  steps (@check_only X) (ArchiveChecker.add_callback chunk).
Proof.
  unfold ArchiveChecker.add_callback.
  apply steps_bind; [apply _|apply check_only_add_reference|intros _; apply steps_ret, _].
Qed.

(** X14. A checker that is not in repair mode does not write: whatever the
    items, [verify_file_chunks], [add_callback] and the items buffer that
    writes its chunks through [add_callback] put nothing in the repository
    and leave the outside world as it is, however they end. *)
Theorem check_only_never_writes (item : Item) (packed : bytes) (final : bool) :
  steps (@check_only X) (ArchiveChecker.verify_file_chunks item) ∧
  (∀ chunk, steps (@check_only X) (ArchiveChecker.add_callback chunk)) ∧
  steps (on_snd (@check_only X)) (ChunkBuffer.add ArchiveChecker.add_callback packed) ∧
  steps (on_snd (@check_only X)) (ChunkBuffer.flush ArchiveChecker.add_callback final).
Proof.
  split; [|split; [apply check_only_add_callback|split]].
  - unfold ArchiveChecker.verify_file_chunks.
    apply steps_bind; [apply _| |intros refs].
    { destruct (i_chunks item); [apply steps_ret|apply steps_raise]; apply _. }
    apply steps_bind; [apply _| |intros l; apply steps_ret, _].
    generalize 0 at 1. generalize (@nil ChunkRef).
    induction refs as [|ref refs IH]; intros acc offset; simpl.
    + apply steps_ret, _.
    + apply steps_bind; [apply _|apply check_only_verify_ref|intros ref']. apply IH.
  - apply steps_add; [apply _..|]. apply check_only_add_callback.
  - apply steps_flush; [apply _..|]. apply check_only_add_callback.
Qed.

Lemma sticky_report_progress msg error :
  steps (@sticky_error X) (ArchiveChecker.report_progress msg error).
Proof.
  intros s r s'. unfold ArchiveChecker.report_progress, bind, gets, modify, ret.
  destruct error; simpl; [|destruct (ArchiveChecker.progress s)];
    intros [= <- <-]; by intros Hr.
Qed.

Lemma sticky_add_reference id_ size csize cdata :
  steps (@sticky_error X) (ArchiveChecker.add_reference id_ size csize cdata).
Proof.
  intros s r s' Hrun Hr. revert Hrun.
  unfold ArchiveChecker.add_reference, bind, gets, modify, ret, raise,
    ArchiveChecker.log, ArchiveChecker.on_ext. simpl.
  destruct (ArchiveChecker.chunks s !! id_) as [[[count sz] cs]|]; [|destruct cdata];
    simpl; [| |by intros [= <- <-]].
  - by intros [= <- <-].
  - destruct (ArchiveChecker.repair s); simpl; [|by intros [= <- <-]].
    destruct (repository_put _ _ _) as [r1 x1]. by intros [= <- <-].
Qed.

Lemma sticky_feed_group state i items u :
  steps (on_snd (@sticky_error X)) (ArchiveChecker.feed_group state i items u).
Proof.
  intros [ys s] r [ys' s'] Hrun. apply feed_group_keeps in Hrun as (_&He&_).
  unfold on_snd, sticky_error. simpl. congruence.
Qed.

Lemma sticky_robust_loop fuel : ∀ state prev u ahead input,
  steps (on_snd (@sticky_error X)) (ArchiveChecker.robust_loop fuel state prev u ahead input).
Proof.
  induction fuel as [|fuel IH]; intros state prev u ahead input;
    cbn [ArchiveChecker.robust_loop].
  - apply steps_ret, _.
  - apply steps_bind; [apply _|apply steps_gets, _|intros index].
    match goal with |- steps _ (match ?n with _ => _ end) => destruct n as [[[k v] inp]|] end;
      [|apply steps_ret, _].
    destruct (negb _).
    + apply steps_on_env, sticky_report_progress.
    + destruct (ArchiveChecker.grouper _ _ _ _) as [[[g st] ah] rest].
      apply steps_bind; [apply _|apply sticky_feed_group|intros u']. apply IH.
Qed.

(** X15. No step of the rebuild resets [error_found]: once it is set it is
    still set after [report_progress], [verify_file_chunks], [add_callback]
    and the robust iterator, however they end. *)
Theorem error_found_is_sticky (msg : ArchiveChecker.Report) (error : bool) (item : Item)
    (chunk : bytes) (ids : list Id) :
  steps (@sticky_error X) (ArchiveChecker.report_progress msg error) ∧
  steps (@sticky_error X) (ArchiveChecker.verify_file_chunks item) ∧
  steps (@sticky_error X) (ArchiveChecker.add_callback chunk) ∧
  steps (on_snd (@sticky_error X)) (ArchiveChecker.robust_iterator ids).
Proof.
  split; [apply sticky_report_progress|]. split; [|split].
  - unfold ArchiveChecker.verify_file_chunks.
    apply steps_bind; [apply _| |intros refs].
    { destruct (i_chunks item); [apply steps_ret|apply steps_raise]; apply _. }
    apply steps_bind; [apply _| |intros l; apply steps_ret, _].
    generalize 0 at 1. generalize (@nil ChunkRef).
    induction refs as [|[[i sz] cs] refs IH]; intros acc offset; simpl.
    + apply steps_ret, _.
    + apply steps_bind; [apply _| |intros ref'; apply IH].
      apply steps_bind; [apply _|apply steps_gets, _|intros c].
      destruct (c !! i).
      * apply steps_bind; [apply _|apply sticky_add_reference|intros _; apply steps_ret, _].
      * apply steps_bind; [apply _| |intros p'].
        { destruct (i_path item); [apply steps_ret|apply steps_raise]; apply _. }
        apply steps_bind; [apply _|apply sticky_report_progress|intros _].
        destruct (sz <? 0); [apply steps_raise, _|].
        apply steps_bind; [apply _|apply sticky_add_reference|intros _; apply steps_ret, _].
  - unfold ArchiveChecker.add_callback.
    apply steps_bind; [apply _|apply sticky_add_reference|intros _; apply steps_ret, _].
  - apply sticky_robust_loop.
Qed.

End Checker_more.

Section Checker_more_runs.
Import Example.
#[local] Existing Instances key chunker msgpack cache_ops store_ops host_ops os_ops.

(** X12, run: the two chunks the index has, one item each. *)
Lemma robust_iterator_intact_witness :
  let out := ArchiveChecker.robust_iterator [chunk_a; chunk_c] ([], damaged_checker) in
  out.2.1 = [OItem (item_with_path x61); OItem (item_with_path x63)] ∧
  ArchiveChecker.error_found out.2.2 = false ∧ ArchiveChecker.stderr out.2.2 = [].
Proof.
  assert (Forall (λ v, is_Some (ArchiveChecker.chunks damaged_checker !! v))
            [chunk_a; chunk_c]) as Hall.
  { repeat constructor; vm_compute; by eexists. }
  destruct (robust_iterator_intact [chunk_a; chunk_c] [] damaged_checker Hall)
    as (Heq & He & Hs & _ & _).
  cbv zeta. split; [|split; [exact He|exact Hs]].
  rewrite Heq. vm_compute. reflexivity.
Defined.

(** X13, run: a scalar in front of an item with a path. *)
Lemma msgpack_resync_finds_item_witness :
  ∃ d, ArchiveChecker.msgpack_resync (S := unit) [x00; x81; x61] tt = (Ok (Some d), tt) ∧
       d `suffix_of` [x00; x81; x61] ∧
       ∃ it rest, unpack_one d = Decoded (OItem it) rest ∧ is_Some (i_path it).
Proof.
  assert (ArchiveChecker.msgpack_resync (S := unit) [x00; x81; x61] tt
          = (Ok (Some [x81; x61]), tt)) as Hrun by (vm_compute; reflexivity).
  destruct (msgpack_resync_finds_item _ _ _ _ Hrun) as (_ & Hsuf & _ & Hit).
  exists [x81; x61]. split; [exact Hrun|]. split; [exact Hsuf|exact Hit].
Defined.

(** X16, run: the third chunk, which the index has, does not matter. *)
Lemma robust_iterator_ignores_rest_witness :
  ArchiveChecker.robust_iterator [chunk_a; chunk_b; chunk_c] ([], damaged_checker) =
  ArchiveChecker.robust_iterator [chunk_a; chunk_b] ([], damaged_checker).
Proof.
  assert (Forall (λ v, is_Some (ArchiveChecker.chunks damaged_checker !! v)) [chunk_a])
    as Hpre by (repeat constructor; vm_compute; by eexists).
  assert (ArchiveChecker.chunks damaged_checker !! chunk_b = None) as Hm
    by (vm_compute; reflexivity).
  exact (robust_iterator_ignores_rest [chunk_a] chunk_b [chunk_c] [] damaged_checker Hpre Hm).
Defined.

End Checker_more_runs.

(** ** The constructor: the checkpoint name *)

Section Archive_init.
Context {C X : Type}.
Context `{Key} `{Chunker} `{Msgpack}.
Context `{CacheOps C X} `{StoreOps X} `{HostOps X} `{OsOps X}.
Implicit Types (w : Archive.World C X) (a m : gmap string ArchiveInfo).

Lemma checkpoint_name_of_inj name (i j : nat) :
  Archive.checkpoint_name_of name i = Archive.checkpoint_name_of name j → i = j.
Proof.
  unfold Archive.checkpoint_name_of. intros Heq.
  apply (inj (String.app name)) in Heq. apply (inj (String.app ".checkpoint")) in Heq.
  destruct i as [|i], j as [|j]; try done.
  apply (inj (String.app ".")) in Heq. by apply (inj pretty) in Heq.
Qed.

Lemma checkpoint_name_of_nonempty name i : Archive.checkpoint_name_of name i ≠ "".
Proof.
  unfold Archive.checkpoint_name_of. by destruct name.
Qed.

(** The loop ends before its fuel does: among [fuel] names in a row, one is
    not in a table with fewer than [fuel] entries. *)
Lemma checkpoint_loop_finds name a fuel : ∀ i m w,
  (size m < fuel)%nat →
  (∀ j, (i ≤ j)%nat → m !! Archive.checkpoint_name_of name j
                        = a !! Archive.checkpoint_name_of name j) →
  Archive.archives w = a →
  ∃ k, (i ≤ k)%nat ∧
       a !! Archive.checkpoint_name_of name k = None ∧
       (∀ j, (i ≤ j < k)%nat → is_Some (a !! Archive.checkpoint_name_of name j)) ∧
       Archive.checkpoint_loop fuel name i w
       = (Ok tt, Archive.set_checkpoint_name (Archive.checkpoint_name_of name k) w).
Proof.
  induction fuel as [|fuel IH]; intros i m w Hsize Hm Ha; [lia|].
  cbn [Archive.checkpoint_loop]. unfold bind, modify, gets, ret.
  cbn -[Archive.checkpoint_loop Archive.checkpoint_name_of]. rewrite Ha.
  destruct (decide (is_Some (a !! Archive.checkpoint_name_of name i))) as [Hin|Hout].
  - destruct (IH (S i) (delete (Archive.checkpoint_name_of name i) m)
                (Archive.set_checkpoint_name (Archive.checkpoint_name_of name i) w))
      as (k & Hk & Hfree & Hbelow & Hrun).
    + rewrite <- (Hm i) in Hin by lia.
      pose proof (map_size_delete_Some _ m Hin) as Hs.
      destruct Hin as [v Hv]. assert (size m ≠ 0%nat); [|lia].
      intros Hz. apply map_size_empty_inv in Hz. subst m. by rewrite lookup_empty in Hv.
    + intros j Hj. rewrite lookup_delete_ne; [apply Hm; lia|].
      intros Heq. apply checkpoint_name_of_inj in Heq. lia.
    + done.
    + exists k. split; [lia|]. split; [done|]. split; [|by rewrite Hrun].
      intros j Hj. destruct (decide (j = i)) as [->|]; [done|]. apply Hbelow. lia.
  - exists i. split; [done|]. split.
    { destruct (a !! _); [destruct Hout; by eexists|done]. }
    split; [intros j Hj; lia|done].
Qed.


(** X17. Creating an archive whose name the manifest does not list
    succeeds, and the checkpoint name chosen is the first of
    [name.checkpoint], [name.checkpoint.1], [name.checkpoint.2], ... that the
    manifest does not list: it is free, every earlier one is taken, and it
    is not empty.  The loop ends: the manifest is finite.  The new object
    has no id, no hard links, an empty items buffer, the time of the call as
    its last checkpoint, and nothing was asked of the repository. *)
Theorem init_picks_first_free_checkpoint (cwd name : string) (interval : Z)
    (numeric : bool) w (now : Z) (x : X) :
  Archive.archives w !! name = None →
  time_time (Archive.ext w) = (Ok now, x) →
  ∃ k w',
    Archive.init cwd name true interval numeric w = (Ok tt, w') ∧
    Archive.checkpoint_name w' = Archive.checkpoint_name_of name k ∧
    Archive.archives w !! Archive.checkpoint_name w' = None ∧
    (∀ j, (j < k)%nat → is_Some (Archive.archives w !! Archive.checkpoint_name_of name j)) ∧
    Archive.checkpoint_name w' ≠ "" ∧
    Archive.last_checkpoint w' = now ∧ Archive.name w' = name ∧ Archive.id w' = None ∧
    Archive.hard_links w' = ∅ ∧ Archive.items_buffer w' = ChunkBuffer.init ∧
    Archive.archives w' = Archive.archives w ∧ Archive.trace w' = Archive.trace w.
Proof.
  intros Hfree Htime.
  unfold Archive.init, bind, modify, gets, raise, Archive.on_ext.
  cbn -[Archive.checkpoint_loop Archive.checkpoint_name_of]. rewrite Hfree.
  destruct (decide (is_Some None)) as [[v Hv]|_]; [done|].
  cbn -[Archive.checkpoint_loop Archive.checkpoint_name_of]. rewrite Htime.
  cbn -[Archive.checkpoint_loop Archive.checkpoint_name_of].
  match goal with |- context [Archive.checkpoint_loop _ _ _ ?w0] =>
    destruct (checkpoint_loop_finds name (Archive.archives w) (S (size (Archive.archives w)))
                O (Archive.archives w) w0) as (k & _ & Hk & Hbelow & Hrun);
      [lia|done|done|]
  end.
  eexists k, _. split; [exact Hrun|]. simpl.
  split; [done|]. split; [done|]. split; [intros j Hj; apply Hbelow; lia|].
  split; [apply checkpoint_name_of_nonempty|]. done.
Qed.

(** X18. Opening an archive: a name the manifest does not list is refused
    with DoesNotExist before anything is read; for a listed name, a call
    that returns has read from the repository the block whose id the
    manifest gives, and nothing else: that id is the archive's id, the
    decoded block, of version 1, is its metadata, and the archive's name is
    the name stored in the block. *)
Theorem init_opens_listed_archive (cwd name : string) (interval : Z) (numeric : bool) w :
  match Archive.archives w !! name with
  | None =>
      ∃ w', Archive.init cwd name false interval numeric w = (Raise (DoesNotExist name), w') ∧
            Archive.trace w' = Archive.trace w ∧ Archive.ext w' = Archive.ext w
  | Some info =>
      ∀ w', Archive.init cwd name false interval numeric w = (Ok tt, w') →
        Archive.id w' = Some (info_id info) ∧
        Archive.trace w' = Archive.trace w ++ [ev_repository_get false (info_id info)] ∧
        Archive.archives w' = Archive.archives w ∧
        ∃ md, Archive.metadata w' = Some md ∧ m_version md = 1 ∧
              Archive.name w' = m_name md
  end.
Proof.
  unfold Archive.init, bind, modify, gets, raise. cbn -[Archive.load].
  destruct (Archive.archives w !! name) as [info|].
  - intros w'. unfold Archive.load, Archive.get_one, Archive.key_decrypt, bind, modify,
      gets, ret, raise, Archive.log, Archive.on_ext. simpl.
    destruct (repository_get false (info_id info) (Archive.ext w)) as [[data|e] x1]; [|done].
    destruct (decrypt (info_id info) data) as [plain|]; [|done].
    destruct (unpack_metadata plain) as [md|]; [|done].
    case_bool_decide as Hv; [done|]. intros [= <-]. simpl.
    split; [done|]. split; [done|]. split; [done|].
    exists md. split; [done|]. split; [|done].
    destruct (decide (m_version md = 1)); [done|by destruct Hv].
  - eexists. split; [reflexivity|done].
Qed.

End Archive_init.

(** ** Ingest: special files and the table of hard links *)

Section Archive_links.
Context {C X : Type}.
Context `{Key} `{Chunker} `{Msgpack}.
Context `{CacheOps C X} `{StoreOps X} `{HostOps X} `{OsOps X}.
Implicit Types (w : Archive.World C X).

#[export] Instance same_links_refl : Reflexive (@same_links C X).
Proof. by intros w. Qed.

#[export] Instance same_links_trans : Transitive (@same_links C X).
Proof. intros w1 w2 w3. unfold same_links. congruence. Qed.

Lemma links_log ev : steps (@same_links C X) (Archive.log ev).
Proof. by intros w r w' [= <- <-]. Qed.

Lemma links_on_ext {A} (m : M X A) : steps (@same_links C X) (Archive.on_ext m).
Proof.
  intros w r w'. unfold Archive.on_ext. destruct (m _) as [a x]. by intros [= <- <-].
Qed.

Lemma links_on_cache {A} c (m : M C A) : steps (@same_links C X) (Archive.on_cache c m).
Proof.
  intros w r w'. unfold Archive.on_cache. destruct (m _) as [a c'].
  intros [= <- <-]. by destruct c.
Qed.

Lemma links_on_cache_ext {A} c (m : M (C * X) A) :
  steps (@same_links C X) (Archive.on_cache_ext c m).
Proof.
  intros w r w'. unfold Archive.on_cache_ext. destruct (m _) as [a [c' x]].
  intros [= <- <-]. by destruct c.
Qed.

Lemma links_with_items_buffer {A} (m : M (ChunkBuffer.t * Archive.World C X) A) :
  steps (on_snd same_links) m → steps same_links (Archive.with_items_buffer m).
Proof.
  intros Hm w r w'. unfold Archive.with_items_buffer.
  destruct (m _) as [a [b w1]] eqn:E. intros [= <- <-].
  exact (Hm _ _ _ E).
Qed.

End Archive_links.

(** Decompose a goal [steps same_links m] along the structure of [m]. *)
Ltac links_step :=
  match goal with
  | |- steps _ (bind _ _) => apply steps_bind; [apply _| |intros ?]
  | |- steps _ (ret _) => apply steps_ret, _
  | |- steps _ (raise _) => apply steps_raise, _
  | |- steps _ (gets _) => apply steps_gets, _
  | |- steps _ (modify _) => apply steps_modify; intros ?; reflexivity
  | |- steps _ (getitem ?f) => destruct f; [apply steps_ret, _|apply steps_raise, _]
  | |- steps _ (for_each _ _) => apply steps_for_each; [apply _..|intros ?]
  | |- steps _ (map_m _ _) => apply steps_map_m; [apply _..|intros ?]
  | |- steps _ (finally _ _) => apply steps_finally; [apply _| |]
  | |- steps _ (Archive.log _) => apply links_log
  | |- steps _ (Archive.on_ext _) => apply links_on_ext
  | |- steps _ (Archive.on_cache _ _) => apply links_on_cache
  | |- steps _ (Archive.on_cache_ext _ _) => apply links_on_cache_ext
  | |- steps _ (Archive.with_items_buffer _) => apply links_with_items_buffer
  | |- steps _ (ChunkBuffer.flush _ _) => apply steps_flush; [apply _..|intros ?]
  | |- steps _ (ChunkBuffer.add _ _) => apply steps_add; [apply _..|intros ?]
  | |- steps _ (match ?x with _ => _ end) => destruct x
  | |- steps _ _ => progress autounfold with archive_defs
  | |- steps _ _ => progress unfold Archive.sys, Archive.save, Archive.write_checkpoint,
                      Archive.add_item
  end.

Ltac links_auto := repeat links_step.

Section Archive_ingest.
Context {C X : Type}.
Context `{Key} `{Chunker} `{Msgpack}.
Context `{CacheOps C X} `{StoreOps X} `{HostOps X} `{OsOps X}.
Implicit Types (w : Archive.World C X).

Lemma links_add_item item : steps (@same_links C X) (Archive.add_item item).
Proof. links_auto. Qed.

Lemma links_stat_attrs st path : steps (@same_links C X) (Archive.stat_attrs st path).
Proof. links_auto. Qed.

Lemma links_all_seen cache ids : steps (@same_links C X) (Archive.all_seen cache ids).
Proof. induction ids as [|i ids IH]; simpl; links_auto. apply IH. Qed.


(** X19. [process_file] records the inode of a file with several links the
    first time it meets it, and it does so before the file is looked up or
    read: however the call ends, also when the file cannot be read and no
    item is added, the table of hard links has gained exactly the entry
    (st_ino, st_dev) -> safe path.  In every other case (a single link, or
    an inode met before) the table is left as it was. *)
Theorem process_file_hard_links (path : string) (st : Stat) (cache : CacheRef) w r w' :
  Archive.process_file path st cache w = (r, w') →
  Archive.hard_links w' =
    if (1 <? st_nlink st) && bool_decide (Archive.hard_links w !! (st_ino st, st_dev st) = None)
    then <[(st_ino st, st_dev st) := make_path_safe path]> (Archive.hard_links w)
    else Archive.hard_links w.
Proof.
  assert (steps (@same_links C X)
            (do cwd <- gets Archive.cwd;
             do chunks <- Archive.lookup_memo
                            (id_hash (encode (os_path_join cwd path))) st cache;
             do chunks0 <- match chunks with
                           | Some cs => ret cs
                           | None => Archive.read_and_memorize path
                                       (id_hash (encode (os_path_join cwd path))) st cache
                           end;
             Archive.add_file_item path st chunks0)) as Hrest.
  { apply steps_bind; [apply _|apply steps_gets, _|intros cwd].
    apply steps_bind; [apply _| |intros chunks].
    { unfold Archive.lookup_memo.
      apply steps_bind; [apply _|apply links_log|intros _].
      apply steps_bind; [apply _|apply links_on_cache|intros ids].
      destruct ids as [ids|]; [|apply steps_ret, _].
      apply steps_bind; [apply _|apply links_all_seen|intros ok].
      destruct ok; links_auto. }
    apply steps_bind; [apply _| |intros chunks0].
    { destruct chunks; links_auto. }
    unfold Archive.add_file_item.
    apply steps_bind; [apply _|apply links_stat_attrs|intros attrs].
    apply steps_bind; [apply _|apply links_on_ext|intros _]. apply links_add_item. }
  unfold Archive.process_file. unfold bind at 1, gets at 1. cbn beta iota.
  destruct (1 <? st_nlink st); simpl.
  - destruct (Archive.hard_links w !! (st_ino st, st_dev st)) as [source|] eqn:Hl.
    + rewrite bool_decide_eq_false_2 by done. intros Hrun.
      assert (steps (@same_links C X)
                (do item <- Archive.stat_attrs st path;
                 Archive.add_item (Archive.item_update item
                   (mkItem (Some (make_path_safe path)) None (Some source) None None None
                           None None None None None)))) as Hs.
      { apply steps_bind; [apply _|apply links_stat_attrs|intros item].
        apply links_add_item. }
      exact (Hs _ _ _ Hrun).
    + rewrite bool_decide_eq_true_2 by done. unfold bind at 1, modify at 1. cbn beta iota.
      intros Hrun. by rewrite (Hrest _ _ _ Hrun).
  - unfold bind at 1, ret at 1. intros Hrun. exact (Hrest _ _ _ Hrun).
Qed.

(** X20. [process_symlink] reads the link and never follows it: when
    [readlink] gives [target] and the attributes can be read, the item added
    has the safe path, the file's attributes and [source = target], no
    chunks, and the only calls before [add_item] are [readlink] and the
    listing of the extended attributes of the link itself. *)
Theorem process_symlink_stores_target (path : string) (st : Stat) w (target : string)
    (x : X) (attrs : Item) w1 :
  os_readlink path (Archive.ext w) = (Ok target, x) →
  Archive.stat_attrs st path
    (Archive.set_ext x (Archive.set_trace (Archive.trace w ++ [ev_sys (sys_readlink path)]) w))
    = (Ok attrs, w1) →
  ∃ item,
    Archive.process_symlink path st w = Archive.add_item item w1 ∧
    i_path item = Some (make_path_safe path) ∧ i_source item = Some target ∧
    i_chunks item = None ∧ i_mode item = Some (st_mode st) ∧
    Archive.trace w1 = Archive.trace w ++
      [ev_sys (sys_readlink path); ev_sys (sys_get_all_xattr path)].
Proof.
  intros Hr Hs. eexists. split.
  { unfold Archive.process_symlink. unfold bind at 1, Archive.sys at 1, bind at 1,
      Archive.log, modify, Archive.on_ext. cbn beta iota. simpl Archive.ext. rewrite Hr.
    unfold bind at 1. rewrite Hs. reflexivity. }
  revert Hs. unfold Archive.stat_attrs, Archive.sys, bind, gets, Archive.log, modify,
    Archive.on_ext, ret. simpl.
  destruct (os_get_all_xattr path x) as [[xattrs|e] x']; [|done].
  intros [= <- <-]. simpl. rewrite <- app_assoc. repeat split; done.
Qed.

(** X21. [process_item] and [process_dev] add one item made of the safe
    path and the file's attributes, and for a device its [st_rdev]; the item
    has no chunks and no source, and the attributes read from the file do
    not replace the path or the device number. *)
Theorem process_item_and_dev (path : string) (st : Stat) w (attrs : Item) w1 :
  Archive.stat_attrs st path w = (Ok attrs, w1) →
  ∃ item dev,
    Archive.process_item path st w = Archive.add_item item w1 ∧
    Archive.process_dev path st w = Archive.add_item dev w1 ∧
    i_path item = Some (make_path_safe path) ∧ i_path dev = Some (make_path_safe path) ∧
    i_rdev item = None ∧ i_rdev dev = Some (st_rdev st) ∧
    i_mode item = Some (st_mode st) ∧ i_mode dev = Some (st_mode st) ∧
    i_chunks item = None ∧ i_chunks dev = None ∧
    i_source item = None ∧ i_source dev = None.
Proof.
  intros Hs. eexists _, _. split; [|split].
  { unfold Archive.process_item, bind. rewrite Hs. reflexivity. }
  { unfold Archive.process_dev, bind. rewrite Hs. reflexivity. }
  revert Hs. unfold Archive.stat_attrs, Archive.sys, bind, gets, Archive.log, modify,
    Archive.on_ext, ret. simpl.
  destruct (os_get_all_xattr path (Archive.ext w)) as [[xattrs|e] x']; [|done].
  intros [= <- <-]. simpl. repeat split; done.
Qed.

End Archive_ingest.

Section Archive_ingest_runs.
Import Example.
#[local] Existing Instances key chunker msgpack cache_ops store_ops host_ops os_ops.

(** X17, run: [A.checkpoint] and [A.checkpoint.1] are taken. *)
Lemma init_picks_first_free_checkpoint_witness :
  let w := Archive.set_archives
             (<["A.checkpoint" := mkInfo [] ""]> (<["A.checkpoint.1" := mkInfo [] ""]> ∅))
             world0 in
  Archive.checkpoint_name (Archive.init "/dest" "A" true 300 false w).2 = "A.checkpoint.2" ∧
  ∃ w', Archive.init "/dest" "A" true 300 false w = (Ok tt, w') ∧
        Archive.archives w !! Archive.checkpoint_name w' = None ∧
        Archive.last_checkpoint w' = 1000.
Proof.
  intros w. split; [vm_compute; reflexivity|].
  assert (Archive.archives w !! "A" = None) as H1 by (vm_compute; reflexivity).
  assert (time_time (Archive.ext w) = (Ok 1000, Archive.ext w)) as H2
    by (vm_compute; reflexivity).
  destruct (init_picks_first_free_checkpoint "/dest" "A" 300 false w 1000 _ H1 H2)
    as (k & w' & Hrun & _ & Hfree & _ & _ & Hlast & _).
  exists w'. split; [exact Hrun|]. split; [exact Hfree|exact Hlast].
Defined.

(** X19, run: a file with two links that cannot be opened. *)
Lemma process_file_hard_links_witness :
  let st := mkStat 0x81a4 2 9 1 0 0 0 0 in
  (Archive.process_file "/dest/zz" st self_cache ingest_world).1 = Raise (OSError ENOENT) ∧
  Archive.hard_links (Archive.process_file "/dest/zz" st self_cache ingest_world).2
    = <[(9, 1) := "/dest/zz"]> ∅.
Proof.
  intros st.
  assert (Archive.process_file "/dest/zz" st self_cache ingest_world
          = (Raise (OSError ENOENT),
             (Archive.process_file "/dest/zz" st self_cache ingest_world).2)) as Hrun
    by (vm_compute; reflexivity).
  split; [by rewrite Hrun|].
  exact (process_file_hard_links "/dest/zz" st self_cache ingest_world _ _ Hrun).
Defined.

(** X20, run: the link [/dest/s] to [t]. *)
Lemma process_symlink_stores_target_witness :
  let st := mkStat 0xA1ff 1 8 1 0 0 0 0 in
  let w := Archive.set_ext
             (set_fs (<["/dest/s" := NSymlink "t"]> restore_fs) (Archive.ext ingest_world))
             ingest_world in
  ∃ item w1, Archive.process_symlink "/dest/s" st w = Archive.add_item item w1 ∧
             i_source item = Some "t" ∧ i_chunks item = None ∧
             Archive.trace w1 =
               [ev_sys (sys_readlink "/dest/s"); ev_sys (sys_get_all_xattr "/dest/s")].
Proof.
  intros st w.
  pose (w0 := Archive.set_ext (Archive.ext w)
                (Archive.set_trace (Archive.trace w ++ [ev_sys (sys_readlink "/dest/s")]) w)).
  pose (attrs := mkItem None (Some 0xA1ff) None None None (Some 0) (Some 0)
                        (Some None) (Some None) (Some 0) None).
  assert (os_readlink "/dest/s" (Archive.ext w) = (Ok "t", Archive.ext w)) as H1
    by (vm_compute; reflexivity).
  assert (Archive.stat_attrs st "/dest/s" w0 = (Ok attrs, (Archive.stat_attrs st "/dest/s" w0).2))
    as H2 by (vm_compute; reflexivity).
  destruct (process_symlink_stores_target "/dest/s" st w "t" _ attrs _ H1 H2)
    as (item & Hrun & _ & Hsrc & Hch & _ & Htr).
  exists item, (Archive.stat_attrs st "/dest/s" w0).2.
  split; [exact Hrun|]. split; [exact Hsrc|]. split; [exact Hch|exact Htr].
Defined.

(** X21, run: the device [/dest/t] with device number 5. *)
Lemma process_item_and_dev_witness :
  let st := mkStat 0x21a4 1 7 1 0 0 5 0 in
  ∃ item dev w1,
    Archive.process_item "/dest/t" st ingest_world = Archive.add_item item w1 ∧
    Archive.process_dev "/dest/t" st ingest_world = Archive.add_item dev w1 ∧
    i_rdev item = None ∧ i_rdev dev = Some 5 ∧ i_path dev = Some "/dest/t".
Proof.
  intros st.
  pose (attrs := mkItem None (Some 0x21a4) None None None (Some 0) (Some 0)
                        (Some None) (Some None) (Some 0) None).
  assert (Archive.stat_attrs st "/dest/t" ingest_world
          = (Ok attrs, (Archive.stat_attrs st "/dest/t" ingest_world).2)) as H1
    by (vm_compute; reflexivity).
  destruct (process_item_and_dev "/dest/t" st ingest_world attrs _ H1)
    as (item & dev & Hi & Hd & _ & Hp & Hr1 & Hr2 & _).
  exists item, dev, (Archive.stat_attrs st "/dest/t" ingest_world).2.
  split; [exact Hi|]. split; [exact Hd|]. split; [exact Hr1|]. split; [exact Hr2|exact Hp].
Defined.

End Archive_ingest_runs.

(** ** The checker: verify_chunks *)

Section Checker_verify.
Context {X : Type}.
Context `{StoreOps X} `{ArchiveChecker.RepositoryDelete X}.
Implicit Types (s : ArchiveChecker.t X) (log : list ArchiveChecker.VerifyEvent).

Lemma unused_ids_spec (index : gmap Id (Z * Z * Z)) (i : Id) :
  i ∈ ArchiveChecker.unused_ids index ↔ ∃ sz cs, index !! i = Some (0, sz, cs).
Proof.
  unfold ArchiveChecker.unused_ids. rewrite elem_of_dom. split.
  - intros [[[n sz] cs] Hv]. apply map_lookup_filter_Some in Hv as [Hv Hz].
    simpl in Hz. subst n. eauto.
  - intros (sz & cs & Hv). exists (0, sz, cs). by apply map_lookup_filter_Some.
Qed.

Lemma verify_delete_loop ids : ∀ log s r log' s',
  for_each ids (λ id_,
    ArchiveChecker.note (ArchiveChecker.called_repository_delete id_) ;;
    on_env (ArchiveChecker.on_ext (ArchiveChecker.repository_delete id_))) (log, s)
    = (r, (log', s')) →
  s' = ArchiveChecker.set_ext (ArchiveChecker.ext s') s ∧
  ∃ k : nat, log' = log ++ (ArchiveChecker.called_repository_delete <$> take k ids) ∧
             (r = Ok tt → k = length ids).
Proof.
  induction ids as [|i ids IH]; intros log s r log' s'; simpl.
  - intros [= <- <- <-]. split; [by destruct s|]. exists O. by rewrite app_nil_r.
  - unfold bind at 1 2, ArchiveChecker.note at 1, modify, on_env at 1,
      ArchiveChecker.on_ext at 1. simpl.
    destruct (ArchiveChecker.repository_delete i (ArchiveChecker.ext s)) as [[[]|e] x1]; simpl.
    + intros Hrest. apply IH in Hrest as (Hs & k & Hl & Hk). split.
      { rewrite Hs at 1. by destruct s. }
      exists (S k). simpl. rewrite Hl, <- app_assoc. split; [done|].
      intros Hr. by rewrite Hk.
    + intros [= <- <- <-]. split; [by destruct s|]. exists 1%nat. simpl. done.
Qed.

(** X22. [verify_chunks] never deletes a chunk that is referenced: however
    it ends, every id it has passed to [repository.delete] is in the index
    with count 0.  Without repair mode it calls nothing and changes nothing
    outside the checker; it only prints the number of orphans.  The index is
    not changed; [error_found] is set exactly when some id of count 0 is not
    in [possibly_superseded], and otherwise keeps its value.  In repair
    mode a call that returns has deleted every id of count 0 and has then
    written the manifest and committed the repository. *)
Theorem verify_chunks_deletes_only_unused (manifest_archives : gmap string ArchiveInfo)
    log s r log' s' :
  ArchiveChecker.verify_chunks manifest_archives (log, s) = (r, (log', s')) →
  ∃ t, log' = log ++ t ∧
    (∀ i, ArchiveChecker.called_repository_delete i ∈ t →
          ∃ sz cs, ArchiveChecker.chunks s !! i = Some (0, sz, cs)) ∧
    (ArchiveChecker.repair s = false →
       ArchiveChecker.ext s' = ArchiveChecker.ext s ∧
       ∀ ev, ev ∈ t → ∃ n, ev = ArchiveChecker.orphaned_objects_found n) ∧
    ArchiveChecker.chunks s' = ArchiveChecker.chunks s ∧
    ArchiveChecker.error_found s' =
      ArchiveChecker.error_found s ||
      bool_decide (ArchiveChecker.unused_ids (ArchiveChecker.chunks s)
                     ∖ ArchiveChecker.possibly_superseded s ≠ ∅) ∧
    (r = Ok tt → ArchiveChecker.repair s = true →
       (∀ i sz cs, ArchiveChecker.chunks s !! i = Some (0, sz, cs) →
                   ArchiveChecker.called_repository_delete i ∈ t) ∧
       ∃ t0, t = t0 ++ [ArchiveChecker.called_manifest_write;
                        ArchiveChecker.called_repository_commit]).
Proof.
  unfold ArchiveChecker.verify_chunks.
  unfold bind at 1, gets at 1. cbn beta iota. unfold bind at 1, gets at 1. cbn beta iota.
  cbn [snd].
  set (unused := ArchiveChecker.unused_ids (ArchiveChecker.chunks s)).
  set (orphaned := unused ∖ ArchiveChecker.possibly_superseded s).
  unfold bind at 1.
  assert (∃ log1 s1 t1,
    (if decide (orphaned = ∅) then ret tt
     else on_env (modify (ArchiveChecker.set_error_found true)) ;;
          ArchiveChecker.note (ArchiveChecker.orphaned_objects_found (size orphaned)))
      (log, s) = (Ok tt, (log1, s1)) ∧
    log1 = log ++ t1 ∧ (∀ ev, ev ∈ t1 → ∃ n, ev = ArchiveChecker.orphaned_objects_found n) ∧
    ArchiveChecker.chunks s1 = ArchiveChecker.chunks s ∧
    ArchiveChecker.ext s1 = ArchiveChecker.ext s ∧
    ArchiveChecker.repair s1 = ArchiveChecker.repair s ∧
    ArchiveChecker.error_found s1 =
      ArchiveChecker.error_found s || bool_decide (orphaned ≠ ∅))
    as (log1 & s1 & t1 & -> & -> & Ht1 & Hc1 & He1 & Hr1 & Hf1).
  { destruct (decide (orphaned = ∅)) as [Ho|Ho].
    - exists log, s, []. rewrite app_nil_r. rewrite bool_decide_eq_false_2 by (by intros ?).
      rewrite orb_false_r. repeat split; try done. intros ev Hev. by apply elem_of_nil in Hev.
    - eexists _, _, [_]. split; [reflexivity|]. simpl.
      rewrite bool_decide_eq_true_2 by done. rewrite orb_true_r.
      repeat split; try done. intros ev ->%list_elem_of_singleton. eauto. }
  unfold bind at 1, gets at 1. cbn beta iota. cbn [snd]. rewrite Hr1.
  destruct (ArchiveChecker.repair s) eqn:Hrep.
  2:{ intros [= <- <- <-]. exists t1. split; [done|].
      split; [intros i Hi; apply Ht1 in Hi as [n Hn]; done|].
      split; [done|]. split; [done|]. split; [done|]. intros _ Hfalse. done. }
  unfold bind at 1.
  destruct (for_each _ _ _) as [r2 [log2 s2]] eqn:Hloop.
  apply verify_delete_loop in Hloop as (Hs2 & k & -> & Hk).
  assert (ArchiveChecker.chunks s2 = ArchiveChecker.chunks s ∧
          ArchiveChecker.error_found s2 = ArchiveChecker.error_found s1) as [Hc2 Hf2].
  { rewrite Hs2. simpl. done. }
  set (dels := ArchiveChecker.called_repository_delete <$> take k (elements unused)).
  assert (∀ i, ArchiveChecker.called_repository_delete i ∈ dels →
               ∃ sz cs, ArchiveChecker.chunks s !! i = Some (0, sz, cs)) as Hsafe.
  { intros i Hi. apply list_elem_of_fmap in Hi as (j & [= <-] & Hj).
    apply unused_ids_spec, elem_of_elements.
    eapply elem_of_prefix; [exact Hj|apply prefix_take]. }
  destruct r2 as [[]|e].
  2:{ intros [= <- <- <-]. exists (t1 ++ dels). split; [by rewrite app_assoc|].
      split.
      { intros i [Hi|Hi]%elem_of_app; [apply Ht1 in Hi as [n Hn]; done|by apply Hsafe]. }
      rewrite Hc2, Hf2. done. }
  specialize (Hk eq_refl).
  unfold bind, ArchiveChecker.note, modify, on_env, ArchiveChecker.on_ext. simpl.
  intros Hrun.
  assert (∀ i, ArchiveChecker.called_repository_delete i
                 ∈ dels ++ [ArchiveChecker.called_manifest_write] →
               ArchiveChecker.called_repository_delete i ∈ dels) as Hd1.
  { intros i [Hi|Hi]%elem_of_app; [done|]. by apply list_elem_of_singleton in Hi. }
  assert (∀ i, ArchiveChecker.called_repository_delete i
                 ∈ dels ++ [ArchiveChecker.called_manifest_write;
                            ArchiveChecker.called_repository_commit] →
               ArchiveChecker.called_repository_delete i ∈ dels) as Hd2.
  { intros i [Hi|Hi]%elem_of_app; [done|].
    apply elem_of_cons in Hi as [Hi|Hi]; [done|]. by apply list_elem_of_singleton in Hi. }
  destruct (manifest_write manifest_archives (ArchiveChecker.ext s2)) as [[[]|e] x3];
    simpl in Hrun.
  2:{ injection Hrun as <- <- <-.
      exists (t1 ++ dels ++ [ArchiveChecker.called_manifest_write]).
      split; [by rewrite <- !app_assoc|].
      split.
      { intros i [Hi|Hi]%elem_of_app; [apply Ht1 in Hi as [n Hn]; done|].
        by apply Hsafe, Hd1. }
      simpl. rewrite Hc2, Hf2. done. }
  destruct (repository_commit x3) as [r4 x4]. simpl in Hrun.
  injection Hrun as <- <- <-.
  exists (t1 ++ dels ++ [ArchiveChecker.called_manifest_write;
                         ArchiveChecker.called_repository_commit]).
  split; [by rewrite <- !app_assoc|].
  split.
  { intros i [Hi|Hi]%elem_of_app; [apply Ht1 in Hi as [n Hn]; done|].
    by apply Hsafe, Hd2. }
  simpl. rewrite Hc2, Hf2. split; [done|]. split; [done|]. split; [done|].
  intros _ _. split.
  - intros i sz cs Hi. apply elem_of_app. right. apply elem_of_app. left.
    apply list_elem_of_fmap. exists i. split; [done|].
    rewrite take_ge by lia. apply elem_of_elements, unused_ids_spec. eauto.
  - exists (t1 ++ dels). by rewrite <- app_assoc.
Qed.

End Checker_verify.

Section Checker_verify_runs.
Import Example.
#[local] Existing Instances key chunker msgpack cache_ops store_ops host_ops os_ops delete_ops.

(** X22, run: in repair mode the unreferenced [chunk_a] is deleted and the
    referenced [chunk_c] is not; [chunk_a] is an orphan. *)
Lemma verify_chunks_deletes_only_unused_witness :
  let out := ArchiveChecker.verify_chunks ∅ ([], rebuilt_checker) in
  out.1 = Ok tt ∧
  ArchiveChecker.called_repository_delete chunk_a ∈ out.2.1 ∧
  (ArchiveChecker.called_repository_delete chunk_c ∉ out.2.1) ∧
  ArchiveChecker.error_found out.2.2 = true.
Proof.
  intros out.
  assert (ArchiveChecker.verify_chunks ∅ ([], rebuilt_checker)
          = (Ok tt, (out.2.1, out.2.2))) as Hrun by (vm_compute; reflexivity).
  destruct (verify_chunks_deletes_only_unused ∅ [] rebuilt_checker _ _ _ Hrun)
    as (t & Ht & Hsafe & _ & _ & Herr & Hall).
  destruct (Hall eq_refl eq_refl) as [Hdel _].
  rewrite app_nil_l in Ht.
  split; [exact (f_equal fst Hrun)|]. split; [|split].
  - rewrite Ht. apply (Hdel chunk_a 2 3). vm_compute. reflexivity.
  - rewrite Ht. intros Hin. destruct (Hsafe _ Hin) as (sz & cs & Hc).
    vm_compute in Hc. discriminate.
  - rewrite Herr. vm_compute. reflexivity.
Defined.

End Checker_verify_runs.

Section Archive_open_runs.
Import Example.
#[local] Existing Instances key chunker meta_msgpack cache_ops store_ops host_ops os_ops.

(** X18, run: the stored archive [A] is opened, [B] is not listed. *)
Lemma init_opens_listed_archive_witness :
  (∃ w', Archive.init "/dest" "B" false 300 false stored_world
         = (Raise (DoesNotExist "B"), w')) ∧
  let out := Archive.init "/dest" "A" false 300 false stored_world in
  out.1 = Ok tt ∧ Archive.id out.2 = Some meta_id ∧ Archive.name out.2 = "A" ∧
  Archive.trace out.2 = [ev_repository_get false meta_id].
Proof.
  split.
  - pose proof (init_opens_listed_archive "/dest" "B" 300 false stored_world) as Hth.
    assert (Archive.archives stored_world !! "B" = None) as Hl by (vm_compute; reflexivity).
    rewrite Hl in Hth. destruct Hth as (w' & Hrun & _). by exists w'.
  - pose proof (init_opens_listed_archive "/dest" "A" 300 false stored_world) as Hth.
    assert (Archive.archives stored_world !! "A"
            = Some (mkInfo meta_id "2014-05-01T12:00:00.000000")) as Hl
      by (vm_compute; reflexivity).
    rewrite Hl in Hth.
    assert (Archive.init "/dest" "A" false 300 false stored_world
            = (Ok tt, (Archive.init "/dest" "A" false 300 false stored_world).2)) as Hrun
      by (vm_compute; reflexivity).
    destruct (Hth _ Hrun) as (Hid & Htr & _ & md & Hmd & _ & Hname).
    cbv zeta. split; [by rewrite Hrun|]. split; [exact Hid|]. split; [|exact Htr].
    rewrite Hname. vm_compute in Hmd. injection Hmd as <-. reflexivity.
Defined.

End Archive_open_runs.

(** ** Restore: attributes, the flag, and the contents of files *)

Section Archive_restore.
Context {C X : Type}.
Context `{Key} `{Chunker} `{Msgpack}.
Context `{CacheOps C X} `{StoreOps X} `{HostOps X} `{OsOps X}.
Implicit Types (w : Archive.World C X).

Lemma emits_for_each_elem (P : Event → Prop) {A} (xs : list A)
    (body : A → M (Archive.World C X) unit) :
  (∀ x, x ∈ xs → emits (@Archive.trace C X) P (body x)) →
  emits (@Archive.trace C X) P (for_each xs body).
Proof.
  induction xs as [|x xs IH]; intros Hb; simpl.
  - apply emits_ret.
  - apply emits_bind; [apply Hb, list_elem_of_here|intros _].
    apply IH. intros y Hy. by apply Hb, list_elem_of_further.
Qed.

(** X23. The attributes [stat_attrs] records are the ones [restore_attrs]
    applies: on an item made by [stat_attrs] from [st], whatever the
    destination and however the call ends, [restore_attrs] sets only
    extended attributes that were listed, the mode and the time of [st], and
    as owner and group those of [st] or the ids that the recorded names map
    to on the restoring host. *)
Theorem attrs_round_trip (st : Stat) (src : string) w0 (attrs : Item) w1
    (path : string) (symlink : bool) (fd : option Z) :
  Archive.stat_attrs st src w0 = (Ok attrs, w1) →
  emits (@Archive.trace C X) (restores_stat st attrs)
    (Archive.restore_attrs path attrs symlink fd).
Proof.
  unfold Archive.stat_attrs, Archive.sys, bind, gets, Archive.log, modify, Archive.on_ext,
    ret. simpl.
  destruct (os_get_all_xattr src (Archive.ext w0)) as [[xattrs|e] x']; [|done].
  intros [= <- _]. unfold Archive.restore_attrs. simpl.
  apply emits_bind.
  { destruct xattrs as [|kv xattrs]; [apply emits_ret|].
    apply emits_for_each_elem. intros [k v] Hkv.
    apply emits_try_except; [by apply emits_sys|apply emits_only_ENOTSUP, emits_ret]. }
  intros _. apply emits_bind; [apply emits_gets|intros numeric].
  set (user := if Archive.numeric_owner w0 then None else uid2user (st_uid st)).
  set (group := if Archive.numeric_owner w0 then None else gid2group (st_gid st)).
  assert (∀ uid gid,
    (uid = None ∨ uid = user2uid user) → (gid = None ∨ gid = group2gid group) →
    emits (@Archive.trace C X)
      (restores_stat st
         (mkItem None (Some (st_mode st)) None None None (Some (st_uid st))
            (Some (st_gid st)) (Some user) (Some group) (Some (st_mtime_ns st))
            (match xattrs with [] => None | _ :: _ => Some xattrs end)))
      (do uid0 <- (if Archive.truthy uid then ret (default 0 uid) else ret (st_uid st));
       do gid0 <- (if Archive.truthy gid then ret (default 0 gid) else ret (st_gid st));
       try_except
         (if Archive.truthy fd
          then Archive.sys (sys_fchown (default 0 fd) uid0 gid0)
                 (os_fchown (default 0 fd) uid0 gid0)
          else Archive.sys (sys_lchown path uid0 gid0) (os_lchown path uid0 gid0))
         (Archive.only_OSError (ret ())) ;;
       (if Archive.truthy fd
        then do mode <- ret (st_mode st);
             Archive.sys (sys_fchmod (default 0 fd) mode) (os_fchmod (default 0 fd) mode)
        else if negb symlink
        then do mode <- ret (st_mode st);
             Archive.sys (sys_chmod path mode) (os_chmod path mode)
        else if has_lchmod
        then do mode <- ret (st_mode st);
             Archive.sys (sys_lchmod path mode) (os_lchmod path mode)
        else ret ()) ;;
       if Archive.truthy fd && utime_supports_fd
       then do mtime <- ret (st_mtime_ns st);
            Archive.sys (sys_utime_fd (default 0 fd) mtime) (os_utime_fd (default 0 fd) mtime)
       else if utime_supports_fd
       then do mtime <- ret (st_mtime_ns st);
            Archive.sys (sys_utime_nofollow path mtime) (os_utime_nofollow path mtime)
       else if negb symlink
       then do mtime <- ret (st_mtime_ns st);
            Archive.sys (sys_utime path mtime) (os_utime path mtime)
       else ret ())) as Hrest.
  { intros uid gid Hu Hg.
    assert (∃ u, (u = st_uid st ∨ user2uid user = Some u) ∧
                 (if Archive.truthy uid then ret (default 0 uid) else ret (st_uid st))
                 = (ret u : M (Archive.World C X) Z)) as (u & Hu' & ->).
    { destruct (Archive.truthy uid) eqn:Ht; [|by eexists; split; [left|]].
      destruct uid as [u|]; [|done]. exists u. split; [|done].
      right. by destruct Hu as [|<-]. }
    assert (∃ g, (g = st_gid st ∨ group2gid group = Some g) ∧
                 (if Archive.truthy gid then ret (default 0 gid) else ret (st_gid st))
                 = (ret g : M (Archive.World C X) Z)) as (g & Hg' & ->).
    { destruct (Archive.truthy gid) eqn:Ht; [|by eexists; split; [left|]].
      destruct gid as [g|]; [|done]. exists g. split; [|done].
      right. by destruct Hg as [|<-]. }
    repeat match goal with
           | |- context [bind (ret ?a) ?k] => change (bind (ret a) k) with (k a); cbn beta
           end.
    apply emits_bind.
    { apply emits_try_except; [|apply emits_only_OSError, emits_ret].
      destruct (Archive.truthy fd); by apply emits_sys. }
    intros _. apply emits_bind.
    { destruct (Archive.truthy fd); [by apply emits_sys|].
      destruct (negb symlink); [by apply emits_sys|].
      destruct has_lchmod; [by apply emits_sys|apply emits_ret]. }
    intros _.
    destruct (Archive.truthy fd && utime_supports_fd); [by apply emits_sys|].
    destruct utime_supports_fd; [by apply emits_sys|].
    destruct (negb symlink); [by apply emits_sys|apply emits_ret]. }
  destruct numeric.
  - change (bind (ret (None, None)) ?k) with (k (@None Z, @None Z)). cbn beta iota.
    apply Hrest; by left.
  - repeat match goal with
           | |- context [bind (ret ?a) ?k] => change (bind (ret a) k) with (k a); cbn beta
           end.
    cbn iota. apply Hrest; by right.
Qed.


(** X24. The [restore_attrs] flag of [extract_item] is looked at for
    directories only: for an item that is not a directory, [extract_item]
    does the same with [restore_attrs=False] as with [restore_attrs=True]
    (the attributes of files, FIFOs, links and devices are always
    restored). *)
Theorem extract_item_flag_for_directories_only (item : Item) (dry_run : bool) w :
  (∀ mode, i_mode item = Some mode → S_ISDIR mode = false) →
  Archive.extract_item item false dry_run w = Archive.extract_item item true dry_run w.
Proof.
  intros Hnd. unfold Archive.extract_item. destruct dry_run; [done|].
  apply bind_ext. intros dest w1. apply bind_ext. intros ipath w2.
  destruct (_ || _); [done|]. apply bind_ext. intros [] w3.
  unfold Archive.materialize. destruct (i_mode item) as [mode|]; [|done].
  unfold getitem.
  match goal with
  | |- bind (ret ?a) ?k1 ?s = bind (ret ?a) ?k2 ?s => change (k1 a s = k2 a s)
  end.
  cbn beta. by rewrite (Hnd mode eq_refl).
Qed.

(** The loop that writes a file: every chunk is read, decrypted and
    written before the next one is read. *)
Lemma fetch_many_writes (fd : Z) ids : ∀ w w',
  Archive.fetch_many ids true
    (λ data, Archive.sys (sys_write fd data) (os_write fd data)) w = (Ok tt, w') →
  ∃ plains, Archive.trace w' = Archive.trace w ++ concat (zip_with (chunk_restored fd) ids plains) ∧
            length plains = length ids ∧
            Forall2 (λ i plain, ∃ cdata, decrypt i cdata = Some plain) ids plains.
Proof.
  unfold Archive.fetch_many.
  induction ids as [|i ids IH]; intros w w'; simpl.
  - intros [= <-]. exists []. simpl. by rewrite app_nil_r.
  - unfold bind at 1 2. unfold Archive.get_one, bind at 1, Archive.log, modify.
    unfold Archive.on_ext at 1. simpl.
    destruct (repository_get true i (Archive.ext w)) as [[data|e] x1]; [|done]. simpl.
    unfold bind at 1, Archive.key_decrypt.
    destruct (decrypt i data) as [plain|] eqn:Hd; [|done].
    unfold ret at 1. unfold bind at 1.
    unfold Archive.sys at 1, bind at 1, Archive.log, modify, Archive.on_ext at 1. simpl.
    destruct (os_write fd plain x1) as [[[]|e] x2]; [|done]. simpl.
    intros Hrest. apply IH in Hrest as (plains & Ht & Hl & Hf).
    exists (plain :: plains). simpl in *. rewrite Ht, <- !app_assoc. simpl.
    split; [done|]. split; [by rewrite Hl|]. constructor; [by eexists|done].
Qed.

(** X25. Restoring a regular file that is not a hard link: when
    [extract_item] returns, it has cleared and prepared the place, opened
    the file for writing, then for every chunk of the item, in order, read
    the chunk (as a preloaded one) and written its decrypted contents
    before reading the next, flushed, applied attributes and closed the
    file; nothing else was called. *)
Theorem extract_regular_file_streams (item : Item) (ipath : string) (mode : Z)
    (chunks : list ChunkRef) (restore_attrs_ : bool) w w' :
  i_path item = Some ipath → i_mode item = Some mode →
  startswith ipath "/" || startswith ipath ".." = false →
  S_ISDIR mode = false → S_ISREG mode = true →
  i_source item = None → i_chunks item = Some chunks →
  Archive.extract_item item restore_attrs_ false w = (Ok tt, w') →
  let path := os_path_join (Archive.cwd w) ipath in
  ∃ fd pre plains post,
    Archive.trace w' = Archive.trace w ++ pre ++ [ev_sys (sys_open path "wb")] ++
      concat (zip_with (chunk_restored fd) (chunks.*1.*1) plains) ++
      [ev_sys (sys_flush fd)] ++ post ++ [ev_sys (sys_close fd)] ∧
    length plains = length chunks ∧
    Forall2 (λ i plain, ∃ cdata, decrypt i cdata = Some plain) (chunks.*1.*1) plains ∧
    Forall is_prepare_event pre ∧ Forall is_attr_event post.
Proof.
  intros Hp Hm Hsafe Hdir Hreg Hsrc Hch. cbv zeta.
  unfold Archive.extract_item. cbn beta iota. unfold bind at 1, gets at 1. cbn beta iota.
  rewrite Hp. unfold getitem at 1, bind at 1, ret at 1. rewrite Hsafe.
  set (path := os_path_join (Archive.cwd w) ipath).
  unfold bind at 1.
  destruct (Archive.remove_existing path w) as [[[]|e] w1] eqn:E1; [|done].
  assert (emits (@Archive.trace C X) is_prepare_event (Archive.remove_existing path)) as Hr
    by emits_auto.
  destruct (Hr _ _ _ E1) as (t1 & Ht1 & Hf1).
  unfold Archive.materialize. rewrite Hm. unfold getitem at 1, bind at 1, ret at 1.
  rewrite Hdir, Hreg. unfold bind at 1.
  destruct (Archive.make_parent path w1) as [[[]|e] w2] eqn:E2; [|done].
  assert (emits (@Archive.trace C X) is_prepare_event (Archive.make_parent path)) as Hmp
    by emits_auto.
  destruct (Hmp _ _ _ E2) as (t2 & Ht2 & Hf2).
  rewrite Hsrc, Hch. unfold bind at 1.
  unfold Archive.sys at 1, bind at 1, Archive.log at 1, modify, Archive.on_ext at 1.
  cbn beta iota. simpl Archive.ext.
  destruct (os_open path "wb" (Archive.ext w2)) as [[fd|e] x3]; [|done]. cbn beta iota.
  set (w3 := Archive.set_ext x3 _).
  unfold finally. unfold getitem at 1, bind at 1, ret at 1. unfold bind at 1.
  destruct (Archive.fetch_many _ _ _ w3) as [[[]|e] w4] eqn:E4.
  2:{ destruct (Archive.sys _ _ w4) as [[[]|e'] w5]; done. }
  apply fetch_many_writes in E4 as (plains & Ht4 & Hl4 & Hd4).
  unfold bind at 1.
  unfold Archive.sys at 1, bind at 1, Archive.log at 1, modify, Archive.on_ext at 1.
  cbn beta iota. simpl Archive.ext.
  destruct (os_flush fd (Archive.ext w4)) as [[[]|e] x5]; cbn beta iota.
  2:{ match goal with |- context [Archive.sys ?a ?b ?c] =>
        destruct (Archive.sys a b c) as [[[]|e'] w6] end; done. }
  set (w5 := Archive.set_ext x5 _).
  destruct (Archive.restore_attrs path item false (Some fd) w5) as [[[]|e] w6] eqn:E6.
  2:{ destruct (Archive.sys _ _ w6) as [[[]|e'] w7]; done. }
  assert (emits (@Archive.trace C X) is_attr_event
            (Archive.restore_attrs path item false (Some fd))) as Hra.
  { unfold Archive.restore_attrs. emits_auto. }
  destruct (Hra _ _ _ E6) as (t6 & Ht6 & Hf6).
  unfold Archive.sys, bind, Archive.log, modify, Archive.on_ext. simpl.
  destruct (os_close fd (Archive.ext w6)) as [[[]|e] x7]; [|done].
  intros [= <-]. simpl.
  exists fd, (t1 ++ t2), plains, t6.
  split.
  { rewrite Ht6. subst w5. simpl. rewrite Ht4. subst w3. simpl. rewrite Ht2, Ht1.
    rewrite <- !app_assoc. reflexivity. }
  split; [by rewrite Hl4, !length_fmap|]. split; [done|].
  split; [by apply Forall_app|done].
Qed.


(** X26. [add_item] before the checkpoint interval has elapsed only buffers
    the item: when the time since the last checkpoint is at most the
    interval, no checkpoint is written; the archive's id, the manifest, the
    checkpoint time and the other settings are unchanged, and neither the
    manifest is written nor anything committed. *)
Theorem add_item_before_interval (item : Item) w w0 (now : Z) (x0 : X) :
  Archive.with_items_buffer (ChunkBuffer.add Archive.write_chunk (pack_item item)) w
    = (Ok tt, w0) →
  time_time (Archive.ext w0) = (Ok now, x0) →
  now - Archive.last_checkpoint w ≤ Archive.checkpoint_interval w →
  Archive.add_item item w = (Ok tt, Archive.set_ext x0 w0) ∧
  same_config w (Archive.set_ext x0 w0) ∧
  ∃ t, Archive.trace (Archive.set_ext x0 w0) = Archive.trace w ++ t ∧
       Forall (λ ev, is_persist ev = false) t.
Proof.
  intros Hadd Htime Hle.
  assert (same_config w w0) as Hcfg.
  { revert Hadd. apply frame_with_items_buffer, steps_add; [apply _..|].
    apply frame_write_chunk. }
  assert (emits (@Archive.trace C X) (λ ev, is_persist ev = false)
            (Archive.with_items_buffer
               (ChunkBuffer.add Archive.write_chunk (pack_item item)))) as Hem
    by emits_auto.
  destruct (Hem _ _ _ Hadd) as (t & Ht & Hf).
  destruct Hcfg as (?&?&?&?&?&Hint&Hlast&?&?&?).
  split; [|split; [by repeat split|by exists t]].
  unfold Archive.add_item, bind. rewrite Hadd.
  unfold Archive.on_ext. rewrite Htime. unfold gets. simpl.
  rewrite Hint, Hlast.
  by assert ((Archive.checkpoint_interval w <? now - Archive.last_checkpoint w) = false)
    as -> by lia.
Qed.

End Archive_restore.

Section Archive_restore_runs.
Import Example.
#[local] Existing Instances key chunker msgpack cache_ops store_ops host_ops os_ops.

(** X23, run: the attributes of [/dest/t], applied to a restored file. *)
Lemma attrs_round_trip_witness :
  let attrs := mkItem None (Some 0x81a4) None None None (Some 0) (Some 0)
                      (Some None) (Some None) (Some 0) None in
  Archive.trace (Archive.restore_attrs "/dest/r" attrs false None restore_world).2 =
    [ev_sys (sys_lchown "/dest/r" 0 0); ev_sys (sys_chmod "/dest/r" 0x81a4);
     ev_sys (sys_utime_nofollow "/dest/r" 0)] ∧
  Forall (restores_stat file_stat attrs)
    (Archive.trace (Archive.restore_attrs "/dest/r" attrs false None restore_world).2).
Proof.
  intros attrs.
  assert (Archive.stat_attrs file_stat "/dest/t" ingest_world
          = (Ok attrs, (Archive.stat_attrs file_stat "/dest/t" ingest_world).2)) as H1
    by (vm_compute; reflexivity).
  assert (Archive.restore_attrs "/dest/r" attrs false None restore_world
          = ((Archive.restore_attrs "/dest/r" attrs false None restore_world).1,
             (Archive.restore_attrs "/dest/r" attrs false None restore_world).2)) as H2
    by (by destruct (Archive.restore_attrs "/dest/r" attrs false None restore_world)).
  destruct (attrs_round_trip file_stat "/dest/t" ingest_world attrs _ "/dest/r" false None
              H1 restore_world _ _ H2) as (t & Ht & Hf).
  split; [vm_compute; reflexivity|]. rewrite Ht. exact Hf.
Defined.

(** X24, run: a file item restored with and without the flag. *)
Lemma extract_item_flag_for_directories_only_witness :
  Archive.extract_item (file_item "n") false false restore_world
  = Archive.extract_item (file_item "n") true false restore_world ∧
  ev_sys (sys_fchmod 3 0x81a4)
    ∈ Archive.trace (Archive.extract_item (file_item "n") false false restore_world).2.
Proof.
  assert (∀ mode, i_mode (file_item "n") = Some mode → S_ISDIR mode = false) as H1
    by (intros mode [= <-]; vm_compute; reflexivity).
  split; [exact (extract_item_flag_for_directories_only (file_item "n") false restore_world H1)|].
  vm_compute. do 5 apply list_elem_of_further. apply list_elem_of_here.
Defined.

(** X25, run: a file of one chunk, [chunk_a], restored as [/dest/f]. *)
Lemma extract_regular_file_streams_witness :
  let item := mkItem (Some "f") (Some 0x81a4) None (Some [(chunk_a, 2, 3)]) None
                     (Some 0) (Some 0) (Some None) (Some None) (Some 0) None in
  let out := Archive.extract_item item true false stored_world in
  fs (Archive.ext out.2) !! "/dest/f" = Some (NFile chunk_a) ∧
  ∃ fd pre plains post,
    Archive.trace out.2 = pre ++ [ev_sys (sys_open "/dest/f" "wb")] ++
      concat (zip_with (chunk_restored fd) [chunk_a] plains) ++
      [ev_sys (sys_flush fd)] ++ post ++ [ev_sys (sys_close fd)] ∧
    length plains = 1%nat.
Proof.
  intros item out.
  assert (Archive.extract_item item true false stored_world
          = (Ok tt, (Archive.extract_item item true false stored_world).2)) as Hrun
    by (vm_compute; reflexivity).
  destruct (extract_regular_file_streams item "f" 0x81a4 [(chunk_a, 2, 3)] true
              stored_world _ eq_refl eq_refl eq_refl eq_refl eq_refl eq_refl eq_refl Hrun)
    as (fd & pre & plains & post & Ht & Hl & _).
  split; [vm_compute; reflexivity|].
  exists fd, pre, plains, post. split; [exact Ht|exact Hl].
Defined.

(** X26, run: 100 seconds after the last checkpoint, the interval being
    300. *)
Lemma add_item_before_interval_witness :
  (Archive.add_item item_a ingest_world).1 = Ok tt ∧
  Archive.archives (Archive.add_item item_a ingest_world).2 = ∅ ∧
  Archive.last_checkpoint (Archive.add_item item_a ingest_world).2 = 900.
Proof.
  pose (w0 := (Archive.with_items_buffer
                 (ChunkBuffer.add Archive.write_chunk (pack_item item_a)) ingest_world).2).
  assert (Archive.with_items_buffer
            (ChunkBuffer.add Archive.write_chunk (pack_item item_a)) ingest_world
          = (Ok tt, w0)) as H1 by (vm_compute; reflexivity).
  assert (time_time (Archive.ext w0) = (Ok 1000, Archive.ext w0)) as H2
    by (vm_compute; reflexivity).
  assert (1000 - Archive.last_checkpoint ingest_world
          ≤ Archive.checkpoint_interval ingest_world) as H3 by (vm_compute; discriminate).
  destruct (add_item_before_interval item_a ingest_world w0 1000 _ H1 H2 H3)
    as (Hrun & (_&_&_&_&_&_&Hlast&_&_&Harch) & _).
  rewrite Hrun. split; [done|]. split; [exact Harch|exact Hlast].
Defined.

End Archive_restore_runs.

